(** * A shallow embedding of script.js, the click-driven chess page

  The page keeps a handful of script-level variables (the selection, the
  pending promotion, the last opponent move), writes to a few page
  elements, and delegates every question about chess to the [Chess] object
  of chess.js and the evaluation to [window.fetchEngineEval].  Both
  collaborators live outside the repository: the rules engine is an
  interface here ([Chess]), instantiated on concrete positions by the
  reference engine of module [Ref]; what the evaluation request comes to
  and the value of [Math.random()] are data of the events that drive the
  page.  [engineEvaluateAndAct] is an async function: it runs up to its
  [await] when it is called and from there when the answer arrives, and
  any other event may come in between. *)

From Stdlib Require Import List NArith ZArith QArith Qround Qreduction Qabs Qpower Bool Lia Lqa.
From Stdlib.Strings Require Byte.
Import ListNotations.

(* ================================================================= *)
(** ** JavaScript strings

    A string is a sequence of UTF-16 code units.  A literal of this file
    stands for the code units of its characters, as in the script. *)

Inductive string : Set :=
| EmptyString
| String (c : N) (s : string).

Declare Scope js_scope.
Delimit Scope js_scope with js.
Bind Scope js_scope with string.

Module String.

Fixpoint append (a b : string) : string :=
  match a with
  | EmptyString => b
  | String c a' => String c (append a' b)
  end.

Fixpoint length (s : string) : nat :=
  match s with
  | EmptyString => O
  | String _ s' => S (length s')
  end.

Fixpoint eqb (a b : string) : bool :=
  match a, b with
  | EmptyString, EmptyString => true
  | String c a', String d b' => (c =? d)%N && eqb a' b'
  | _, _ => false
  end.

(** The code unit at index [i]. *)
Fixpoint get (i : nat) (s : string) : option N :=
  match s, i with
  | EmptyString, _ => None
  | String c _, O => Some c
  | String _ s', S i' => get i' s'
  end.

(** The [m] code units from index [n] on, or as many as there are. *)
Fixpoint substring (n m : nat) (s : string) : string :=
  match n, m, s with
  | O, O, _ => EmptyString
  | O, S m', EmptyString => s
  | O, S m', String c s' => String c (substring O m' s')
  | S n', _, EmptyString => s
  | S n', _, String c s' => substring n' m s'
  end.

Fixpoint prefix (p s : string) : bool :=
  match p, s with
  | EmptyString, _ => true
  | String c p', String d s' => (c =? d)%N && prefix p' s'
  | String _ _, EmptyString => false
  end.

Fixpoint concat (sep : string) (l : list string) : string :=
  match l with
  | [] => EmptyString
  | [x] => x
  | x :: l' => append x (append sep (concat sep l'))
  end.

Fixpoint of_units (l : list N) : string :=
  match l with
  | [] => EmptyString
  | c :: l' => String c (of_units l')
  end.

Fixpoint units (s : string) : list N :=
  match s with
  | EmptyString => []
  | String c s' => c :: units s'
  end.

(** The decimal digits of a numeral. *)
Fixpoint of_uint (d : Decimal.uint) : string :=
  match d with
  | Decimal.Nil => EmptyString
  | Decimal.D0 d' => String 48 (of_uint d')
  | Decimal.D1 d' => String 49 (of_uint d')
  | Decimal.D2 d' => String 50 (of_uint d')
  | Decimal.D3 d' => String 51 (of_uint d')
  | Decimal.D4 d' => String 52 (of_uint d')
  | Decimal.D5 d' => String 53 (of_uint d')
  | Decimal.D6 d' => String 54 (of_uint d')
  | Decimal.D7 d' => String 55 (of_uint d')
  | Decimal.D8 d' => String 56 (of_uint d')
  | Decimal.D9 d' => String 57 (of_uint d')
  end.

(** The code units of a code point: itself, or a surrogate pair. *)
Definition units_of_point (cp : N) : list N :=
  if (cp <? 65536)%N then [cp]
  else [(55296 + (cp - 65536) / 1024)%N; (56320 + (cp - 65536) mod 1024)%N].

(** Reading a literal: the code points of its UTF-8 bytes. *)
Fixpoint points_of_utf8 (bs : list N) : list N :=
  match bs with
  | [] => []
  | b :: r =>
      if (b <? 128)%N then b :: points_of_utf8 r
      else if (b <? 224)%N then
        match r with
        | b1 :: r' => ((b - 192) * 64 + (b1 - 128))%N :: points_of_utf8 r'
        | [] => []
        end
      else if (b <? 240)%N then
        match r with
        | b1 :: b2 :: r' =>
            ((b - 224) * 4096 + (b1 - 128) * 64 + (b2 - 128))%N
            :: points_of_utf8 r'
        | _ => []
        end
      else
        match r with
        | b1 :: b2 :: b3 :: r' =>
            ((b - 240) * 262144 + (b1 - 128) * 4096 + (b2 - 128) * 64
             + (b3 - 128))%N :: points_of_utf8 r'
        | _ => []
        end
  end.

Definition of_bytes (bs : list Byte.byte) : string :=
  of_units (flat_map units_of_point (points_of_utf8 (map Byte.to_N bs))).

(** Showing a string: the UTF-8 bytes of its code points. *)
Definition utf8_of_point (cp : N) : list N :=
  if (cp <? 128)%N then [cp]
  else if (cp <? 2048)%N then [(192 + cp / 64)%N; (128 + cp mod 64)%N]
  else if (cp <? 65536)%N then
    [(224 + cp / 4096)%N; (128 + (cp / 64) mod 64)%N; (128 + cp mod 64)%N]
  else [(240 + cp / 262144)%N; (128 + (cp / 4096) mod 64)%N;
        (128 + (cp / 64) mod 64)%N; (128 + cp mod 64)%N].

Fixpoint points_of_units (l : list N) : list N :=
  match l with
  | [] => []
  | h :: t =>
      match t with
      | l' :: r =>
          if ((55296 <=? h) && (h <? 56320) && (56320 <=? l') && (l' <? 57344))%N
          then (65536 + (h - 55296) * 1024 + (l' - 56320))%N :: points_of_units r
          else h :: points_of_units t
      | [] => [h]
      end
  end.

Definition to_bytes (s : string) : option (list Byte.byte) :=
  fold_right (fun b acc => match Byte.of_N b, acc with
                           | Some x, Some l => Some (x :: l)
                           | _, _ => None
                           end)
             (Some []) (flat_map utf8_of_point (points_of_units (units s))).

End String.

String Notation string String.of_bytes String.to_bytes : js_scope.

Infix "++" := String.append (right associativity, at level 60) : js_scope.
Infix "=?" := String.eqb (at level 70) : js_scope.

Open Scope js_scope.
(* ================================================================= *)
(** ** JavaScript values and built-ins used by the script *)

Module JS.

(** White space and line terminators, the code units [trim] strips. *)
Definition isWhiteSpace (c : N) : bool :=
  ((9 <=? c) && (c <=? 13) || (c =? 32) || (c =? 160) || (c =? 5760)
   || (8192 <=? c) && (c <=? 8202) || (c =? 8232) || (c =? 8233)
   || (c =? 8239) || (c =? 8287) || (c =? 12288) || (c =? 65279))%N.

Fixpoint trimStart (s : string) : string :=
  match s with
  | String c s' => if isWhiteSpace c then trimStart s' else s
  | EmptyString => EmptyString
  end.

Fixpoint trimEnd (s : string) : string :=
  match s with
  | EmptyString => EmptyString
  | String c s' =>
      match trimEnd s' with
      | EmptyString => if isWhiteSpace c then EmptyString else String c EmptyString
      | t => String c t
      end
  end.

Definition trim (s : string) : string := trimEnd (trimStart s).

(** [toLowerCase] is the host's: it follows the case mappings of the
    version of Unicode the browser implements. *)
Class Casing := { toLowerCase : string -> string }.

Definition isSurrogate (c : N) : bool := ((55296 <=? c) && (c <? 57344))%N.

(** A code unit that stands for a character without a lowercase form of
    its own. *)
Definition settled {U : Casing} (c : N) : Prop :=
  isSurrogate c = false
  /\ toLowerCase (String c EmptyString) = String c EmptyString.

Fixpoint all_units (P : N -> Prop) (s : string) : Prop :=
  match s with
  | EmptyString => True
  | String c s' => P c /\ all_units P s'
  end.

(** What the script's use of [toLowerCase] relies on, and every version of
    Unicode provides: lowercasing twice is lowercasing once; a string that
    neither starts nor ends with white space is lowercased to such a string;
    characters without a lowercase form stay as they are; the code units
    of a lowercased string have no lowercase form of their own. *)
Class CasingLaws (U : Casing) : Prop := {
  lowercase_idempotent :
    forall s, toLowerCase (toLowerCase s) = toLowerCase s;
  lowercase_trimmed :
    forall s, trim s = s -> trim (toLowerCase s) = toLowerCase s;
  lowercase_settled :
    forall s, all_units settled s -> toLowerCase s = s;
  lowercase_units :
    forall s c, In c (String.units (toLowerCase s)) ->
                toLowerCase (String c EmptyString) = String c EmptyString
}.

(** A casing to run examples with: the mappings of Unicode for the code
    units up to U+00FF and for U+0130, whose lowercase form has two code
    units; the other code units are left as they are. *)
Definition lowerUnit (c : N) : string :=
  if ((65 <=? c) && (c <=? 90)
      || (192 <=? c) && (c <=? 222) && negb (c =? 215))%N
  then String (c + 32) EmptyString
  else if (c =? 304)%N then String 105 (String 775 EmptyString)
  else String c EmptyString.

Fixpoint lowerUnits (s : string) : string :=
  match s with
  | EmptyString => EmptyString
  | String c s' => lowerUnit c ++ lowerUnits s'
  end.

#[global] Instance latin : Casing := {| toLowerCase := lowerUnits |}.

(** [s.slice(b, e)] for [0 <= b <= e]. *)
Definition slice (b e : nat) (s : string) : string := String.substring b (e - b) s.

(** [s[i]]: a string of one code unit, [None] (undefined) past the end. *)
Definition at_ (i : nat) (s : string) : option string :=
  match String.get i s with
  | Some c => Some (String c EmptyString)
  | None => None
  end.

(** [s.includes(t)]. *)
Fixpoint includes (s t : string) : bool :=
  String.prefix t s || match s with
                       | EmptyString => false
                       | String _ s' => includes s' t
                       end.

(** Truthiness of a string-or-null variable. *)
Definition truthy (v : option string) : bool :=
  match v with
  | Some s => negb (s =? "")
  | None => false
  end.

(** [v || d] on a string-or-undefined value. *)
Definition or_else (v : option string) (d : string) : string :=
  if truthy v then match v with Some s => s | None => d end else d.

(** [v === s] for a string-or-undefined [v] and a string [s]. *)
Definition equals (v : option string) (s : string) : bool :=
  match v with
  | Some x => x =? s
  | None => false
  end.

(** *** Numbers

    A Number is NaN, an infinity or a finite double, given by its exact
    value.  Every arithmetic operation rounds its exact result to the
    nearest double, ties to the even significand.  The two zeros are not
    told apart: they print alike, compare alike, and give the same results
    in the operations the script uses. *)
Inductive number := NaN | Infinity (negative : bool) | Fin (x : Q).

Definition pow2 (e : Z) : Q :=
  if (0 <=? e)%Z then inject_Z (2 ^ e) else 1 # Z.to_pos (2 ^ (- e)).

Definition Qltb (a b : Q) : bool := negb (Qle_bool b a).

(** The integer part of the binary logarithm of a positive rational. *)
Definition ilog2 (x : Q) : Z :=
  let c := (Z.log2 (Qnum x) - Z.log2 (Zpos (Qden x)))%Z in
  if Qle_bool (pow2 c) x then c else (c - 1)%Z.

(** The nearest integer, ties to the even one. *)
Definition nearest_even (x : Q) : Z :=
  let f := Qfloor x in
  match (x - inject_Z f ?= 1 # 2)%Q with
  | Lt => f
  | Gt => (f + 1)%Z
  | Eq => if Z.even f then f else (f + 1)%Z
  end.

(** The double nearest to a positive rational: a significand of at most
    53 bits at the exponent of the rational, and not below that of the
    subnormal numbers; from 2^1024 on, the result is infinite. *)
Definition round_positive (x : Q) : number :=
  let e := Z.max (ilog2 x - 52) (-1074) in
  let m := nearest_even (x / pow2 e) in
  let r := (inject_Z m * pow2 e)%Q in
  if Qle_bool (pow2 1024) r then Infinity false else Fin (Qred r).

Definition negate (a : number) : number :=
  match a with
  | NaN => NaN
  | Infinity s => Infinity (negb s)
  | Fin x => Fin (Qred (- x))
  end.

Definition round (x : Q) : number :=
  match (x ?= 0)%Q with
  | Eq => Fin 0
  | Gt => round_positive x
  | Lt => negate (round_positive (- x))
  end.

Definition is_negative (x : Q) : bool := Qltb x 0.
Definition is_zero (x : Q) : bool := Qeq_bool x 0.

(** [a * b]. *)
Definition mul (a b : number) : number :=
  match a, b with
  | NaN, _ | _, NaN => NaN
  | Infinity s, Infinity t => Infinity (xorb s t)
  | Infinity s, Fin y | Fin y, Infinity s =>
      if is_zero y then NaN else Infinity (xorb s (is_negative y))
  | Fin x, Fin y => round (x * y)
  end.

(** [a - b]. *)
Definition sub (a b : number) : number :=
  match a, b with
  | NaN, _ | _, NaN => NaN
  | Infinity s, Infinity t => if Bool.eqb s t then NaN else Infinity s
  | Infinity s, Fin _ => Infinity s
  | Fin _, Infinity t => Infinity (negb t)
  | Fin x, Fin y => round (x - y)
  end.

(** [Math.round]: the nearest integer, ties towards +infinity. *)
Definition Math_round (a : number) : number :=
  match a with
  | Fin x => Fin (inject_Z (Qfloor (x + (1 # 2))))
  | _ => a
  end.

Definition Math_floor (a : number) : number :=
  match a with
  | Fin x => Fin (inject_Z (Qfloor x))
  | _ => a
  end.

(** [a === b] and [a > b] on numbers; both are false as soon as a side is
    NaN. *)
Definition strict_eq (a b : number) : bool :=
  match a, b with
  | Fin x, Fin y => Qeq_bool x y
  | Infinity s, Infinity t => Bool.eqb s t
  | _, _ => false
  end.

Definition gt (a b : number) : bool :=
  match a, b with
  | Fin x, Fin y => Qltb y x
  | Infinity false, Fin _ | Fin _, Infinity true | Infinity false, Infinity true => true
  | _, _ => false
  end.

(** *** Number to string

    The digits are the shortest decimal numeral that reads back as the
    number, the closest one when several are as short; the layout is plain
    for exponents from -6 to 21 and scientific beyond. *)
Definition pow10 (e : Z) : Q :=
  if (0 <=? e)%Z then inject_Z (10 ^ e) else 1 # Z.to_pos (10 ^ (- e)).

(** The integer part of the decimal logarithm of a positive rational. *)
Definition ilog10 (x : Q) : Z :=
  let c := (ilog2 x * 30103 / 100000)%Z in
  if Qltb x (pow10 c) then (c - 1)%Z
  else if Qle_bool (pow10 (c + 1)) x then (c + 1)%Z else c.

Definition digits (z : Z) : string := String.of_uint (N.to_uint (Z.to_N z)).

Fixpoint zeros (n : nat) : string :=
  match n with
  | O => ""
  | S n' => String 48 (zeros n')
  end.

(** The two numerals of [k] digits around [x], as (digits, position of the
    decimal point). *)
Definition around (x : Q) (k n : Z) : list (Z * Z) :=
  let lo := Qfloor (x / pow10 (n - k)) in
  [(lo, n);
   if (lo + 1 =? 10 ^ k)%Z then (10 ^ (k - 1), n + 1) else (lo + 1, n)]%Z.

Definition numeral_value (k : Z) (c : Z * Z) : Q :=
  (inject_Z (fst c) * pow10 (snd c - k))%Q.

Definition reads_back (x : Q) (k : Z) (c : Z * Z) : bool :=
  (10 ^ (k - 1) <=? fst c)%Z && (fst c <? 10 ^ k)%Z
  && match round (numeral_value k c) with
     | Fin y => Qeq_bool y x
     | _ => false
     end.

Definition closest (x : Q) (k : Z) (a b : Z * Z) : Z * Z :=
  match (Qabs (numeral_value k a - x) ?= Qabs (numeral_value k b - x))%Q with
  | Lt => a
  | Gt => b
  | Eq => if Z.even (fst a) then a else b
  end.

Fixpoint shortest (fuel : nat) (x : Q) (k n : Z) : Z * Z * Z :=
  match filter (reads_back x k) (around x k n), fuel with
  | [a], _ => (a, k)
  | a :: b :: _, _ => (closest x k a b, k)
  | [], S fuel' => shortest fuel' x (k + 1) n
  | [], O => ((Qfloor (x / pow10 (n - k)), n), k)
  end.

Definition layout (s n k : Z) : string :=
  let ds := digits s in
  if ((k <=? n) && (n <=? 21))%Z then ds ++ zeros (Z.to_nat (n - k))
  else if ((0 <? n) && (n <=? 21))%Z then
    String.substring 0 (Z.to_nat n) ds ++ "."
    ++ String.substring (Z.to_nat n) (Z.to_nat (k - n)) ds
  else if ((-6 <? n) && (n <=? 0))%Z then "0." ++ zeros (Z.to_nat (- n)) ++ ds
  else
    let e := (n - 1)%Z in
    (if (k =? 1)%Z then ds
     else String.substring 0 1 ds ++ "." ++ String.substring 1 (Z.to_nat (k - 1)) ds)
    ++ "e" ++ (if (0 <=? e)%Z then "+" else "-") ++ digits (Z.abs e).

Definition toString_positive (x : Q) : string :=
  let '(s, n, k) := shortest 17 x 1 (ilog10 x + 1) in
  layout s n k.

(** Number-to-string conversion, as in a template literal. *)
Definition toString (a : number) : string :=
  match a with
  | NaN => "NaN"
  | Infinity s => if s then "-Infinity" else "Infinity"
  | Fin x =>
      match (x ?= 0)%Q with
      | Eq => "0"
      | Gt => toString_positive x
      | Lt => "-" ++ toString_positive (- x)
      end
  end.

(** *** String to number *)

Definition digit_value (base c : N) : option N :=
  let v := if ((48 <=? c) && (c <=? 57))%N then (c - 48)%N
           else if ((97 <=? c) && (c <=? 122))%N then (c - 87)%N
           else if ((65 <=? c) && (c <=? 90))%N then (c - 55)%N
           else base in
  if (v <? base)%N then Some v else None.

(** The longest run of digits at the head of a string, and what follows. *)
Fixpoint take_digits (base : N) (l : list N) : list N * list N :=
  match l with
  | [] => ([], [])
  | c :: r =>
      match digit_value base c with
      | Some v => let '(ds, rest) := take_digits base r in (v :: ds, rest)
      | None => ([], l)
      end
  end.

Definition numeral (base : N) (ds : list N) : N :=
  fold_left (fun a d => (a * base + d)%N) ds 0%N.

(** A numeral in another base: digits of that base and nothing else. *)
Definition parse_radix (base : N) (l : list N) : number :=
  match take_digits base l with
  | ((_ :: _) as ds, []) => round (inject_Z (Z.of_N (numeral base ds)))
  | _ => NaN
  end.

(** The part after "e" or "E": an optional sign, digits, and nothing
    else. *)
Definition parse_exponent (l : list N) : option Z :=
  let '(negative, body) :=
    match l with
    | 43 :: r => (false, r)
    | 45 :: r => (true, r)
    | _ => (false, l)
    end%N in
  match take_digits 10 body with
  | ((_ :: _) as ds, []) =>
      let e := Z.of_N (numeral 10 ds) in Some (if negative then (- e)%Z else e)
  | _ => None
  end.

(** An unsigned decimal literal: digits with an optional fraction, or a
    fraction alone, and an optional exponent. *)
Definition parse_decimal (l : list N) : option Q :=
  let '(ip, r1) := take_digits 10 l in
  let '(fp, r2) :=
    match r1 with
    | 46%N :: r => take_digits 10 r
    | _ => ([], r1)
    end in
  match ip, fp with
  | [], [] => None
  | _, _ =>
      let e := match r2 with
               | [] => Some 0%Z
               | c :: r => if ((c =? 101) || (c =? 69))%N
                           then parse_exponent r else None
               end in
      match e with
      | Some e =>
          Some (inject_Z (Z.of_N (numeral 10 (ip ++ fp)%list))
                * pow10 (e - Z.of_nat (length fp)))%Q
      | None => None
      end
  end.

(** The number a string converts to: 0 for an empty or blank string, NaN
    for what is not a numeric literal. *)
Definition StringToNumber (s : string) : number :=
  match String.units (trim s) with
  | [] => Fin 0
  | l =>
      let radix (base : N) :=
        match l with
        | _ :: _ :: r => parse_radix base r
        | _ => NaN
        end in
      let decimal :=
        let '(negative, body) :=
          match l with
          | 43 :: r => (false, r)
          | 45 :: r => (true, r)
          | _ => (false, l)
          end%N in
        if String.of_units body =? "Infinity" then Infinity negative
        else match parse_decimal body with
             | Some q => if negative then negate (round q) else round q
             | None => NaN
             end in
      match l with
      | 48 :: c :: _ =>
          if ((c =? 120) || (c =? 88))%N then radix 16%N
          else if ((c =? 111) || (c =? 79))%N then radix 8%N
          else if ((c =? 98) || (c =? 66))%N then radix 2%N
          else decimal
      | _ => decimal
      end%N
  end.

(** *** Values

    What a field of the evaluation's answer may hold.  An object (an
    array, a function, a plain object) is known to the script by its
    conversion to a number only, which may raise. *)
Inductive value :=
| VUndefined
| VNull
| VBoolean (b : bool)
| VNumber (n : number)
| VString (s : string)
| VBigInt (z : Z)
| VSymbol
| VObject (toNumber : option number).

(** [v * n] for a Number [n]: the product, or [None] for the TypeError of
    a BigInt, a Symbol or an object whose conversion raises. *)
Definition times (v : value) (n : number) : option number :=
  match v with
  | VUndefined => Some (mul NaN n)
  | VNull => Some (mul (Fin 0) n)
  | VBoolean b => Some (mul (Fin (if b then 1 else 0)) n)
  | VNumber x => Some (mul x n)
  | VString s => Some (mul (StringToNumber s) n)
  | VBigInt _ => None
  | VSymbol => None
  | VObject (Some x) => Some (mul x n)
  | VObject None => None
  end.

(** The members of [Object.prototype], which every object literal
    inherits. *)
Definition Object_prototype : list string :=
  ["constructor"; "hasOwnProperty"; "isPrototypeOf"; "propertyIsEnumerable";
   "toLocaleString"; "toString"; "valueOf"; "__proto__"; "__defineGetter__";
   "__defineSetter__"; "__lookupGetter__"; "__lookupSetter__"].

(** [o[key]] on an object literal with the own properties [own], all
    strings: an own property, else an inherited member (a function, or the
    prototype object itself), else undefined. *)
Definition member (own : list (string * string)) (key : string) : value :=
  match find (fun kv => fst kv =? key) own with
  | Some kv => VString (snd kv)
  | None => if existsb (String.eqb key) Object_prototype
            then VObject (Some NaN) else VUndefined
  end.

(** [v || d] for a string [d]. *)
Definition or_default (v : value) (d : string) : value :=
  match v with
  | VUndefined | VNull | VBoolean false | VNumber NaN => VString d
  | VNumber (Fin x) => if is_zero x then VString d else v
  | VString s => if s =? "" then VString d else v
  | VBigInt z => if (z =? 0)%Z then VString d else v
  | _ => v
  end.

End JS.
(* ================================================================= *)
(** ** The objects exchanged with the rules engine *)

Inductive Color := White | Black.
Inductive PieceType := Pawn | Knight | Bishop | Rook | Queen | King.

(** The one-letter codes chess.js uses for sides and piece types. *)
Definition color_code (c : Color) : string :=
  match c with White => "w" | Black => "b" end.

Definition type_code (t : PieceType) : string :=
  match t with
  | Pawn => "p" | Knight => "n" | Bishop => "b"
  | Rook => "r" | Queen => "q" | King => "k"
  end.

Definition Color_eqb (a b : Color) : bool :=
  match a, b with
  | White, White | Black, Black => true
  | _, _ => false
  end.

Definition PieceType_eqb (a b : PieceType) : bool :=
  (type_code a =? type_code b).

Definition opposite (c : Color) : Color :=
  match c with White => Black | Black => White end.

(** What [game.get(square)] returns when the square is occupied. *)
Record Piece := mkPiece { type : PieceType; color : Color }.

(** The object literal handed to [game.move]; a [promotion] of [None] is a
    missing, undefined or null property. *)
Module Req.
Record t := mk { from : string; to : string; promotion : option string }.
End Req.

(** A verbose move of [game.moves({verbose: true})]: the fields the script
    reads. *)
Module Move.
Record t := mk { from : string; to : string; flags : string;
                 promotion : option string }.
(** Passing a verbose move itself to [game.move]. *)
Definition as_req (m : t) : Req.t := Req.mk (from m) (to m) (promotion m).
End Move.

(** The script's record of a suspended promotion: [{ from, to, color }]. *)
Module Pending.
Record t := mk { from : string; to : string; color : Color }.
End Pending.

(** The part of chess.js the script calls.  [move] answers [None] for the
    [null] of a rejected move, which leaves the game object as it was, and
    the position after the move otherwise.  [moves g None] is
    [game.moves({verbose: true})] and [moves g (Some sq)] is
    [game.moves({square: sq, verbose: true})]; [board g i j] is
    [game.board()[i][j]], asked for [i, j < 8] only. *)
Record Chess := {
  game_t : Type;
  reset : game_t;
  turn : game_t -> Color;
  get : game_t -> string -> option Piece;
  board : game_t -> nat -> nat -> option Piece;
  moves : game_t -> option string -> list Move.t;
  move : game_t -> Req.t -> option game_t;
  game_over : game_t -> bool;
  in_check : game_t -> bool;
  in_checkmate : game_t -> bool;
  in_stalemate : game_t -> bool;
  in_threefold_repetition : game_t -> bool;
  insufficient_material : game_t -> bool;
  in_draw : game_t -> bool;
  fen : game_t -> string
}.

(** The laws of chess.js the script relies on.  Each is a property of the
    library's move generator and of [move], which searches the generated
    legal moves for one with the requested squares and promotion piece. *)
Module Laws.
Section Laws.
Variable E : Chess.

(** An accepted move hands the turn to the other side. *)
Definition move_flips_turn : Prop :=
  forall g r g', move E g r = Some g' -> turn E g' = opposite (turn E g).

(** A move is accepted only when it is one of the legal moves generated
    for its source square. *)
Definition move_is_legal : Prop :=
  forall g r g', move E g r = Some g' ->
    In (Req.to r) (map Move.to (moves E g (Some (Req.from r)))).

(** A request for a legal pair of squares that names the queen as promotion
    piece is accepted, whether or not the move is a promotion. *)
Definition legal_with_queen_accepted : Prop :=
  forall g sq m, In m (moves E g (Some sq)) ->
    exists g', move E g (Req.mk sq (Move.to m) (Some "q")) = Some g'.

(** A legal move never lands on a piece of the side to move. *)
Definition no_self_capture : Prop :=
  forall g sq m p, In m (moves E g (Some sq)) ->
    get E g (Move.to m) = Some p -> color p = opposite (turn E g).

(** A verbose move has a [promotion] property exactly when its flags
    contain the promotion flag. *)
Definition promotion_flagged : Prop :=
  forall g m, In m (moves E g None) ->
    (JS.includes (Move.flags m) "p" = true <-> Move.promotion m <> None).

End Laws.
End Laws.

(* ================================================================= *)
(** ** The page: script variables, page elements, handlers *)

Section Page.
Variable E : Chess.
Context {host : JS.Casing}.

(** The script-level variables, the page elements the script writes to, and
    two observation logs: every object handed to [game.move] (oldest first)
    and the delay of every [setTimeout(engineEvaluateAndAct, _)]. *)
Record State := mkState {
  game : game_t E;
  selectedSquare : option string;
  legalMovesFromSelected : list string;
  pendingPromotion : option Pending.t;
  manualGameOver : bool;
  lastAIMoveUCI : option string;
  promotionModal : bool;               (* style.display is 'flex' *)
  statusEl : string;                   (* textContent *)
  whoIsWinningEl : string;
  whiteProbabilityEl : string;
  blackProbabilityEl : string;
  leftPlayerInfo : bool;               (* carries the class 'active' *)
  rightPlayerInfo : bool;
  classes : list (string * string);    (* highlight classes of the cells *)
  tokens : list (string * (string * JS.value));
                                       (* cell, className, textContent *)
  submitted : list Req.t;
  timers : list nat
}.

Definition set_game (v : game_t E) (st : State) : State :=
  mkState v (selectedSquare st) (legalMovesFromSelected st)
    (pendingPromotion st) (manualGameOver st) (lastAIMoveUCI st)
    (promotionModal st) (statusEl st) (whoIsWinningEl st) (whiteProbabilityEl
    st) (blackProbabilityEl st) (leftPlayerInfo st) (rightPlayerInfo st)
    (classes st) (tokens st) (submitted st) (timers st).
Definition set_selectedSquare (v : option string) (st : State) : State :=
  mkState (game st) v (legalMovesFromSelected st) (pendingPromotion st)
    (manualGameOver st) (lastAIMoveUCI st) (promotionModal st) (statusEl st)
    (whoIsWinningEl st) (whiteProbabilityEl st) (blackProbabilityEl st)
    (leftPlayerInfo st) (rightPlayerInfo st) (classes st) (tokens st)
    (submitted st) (timers st).
Definition set_legalMovesFromSelected (v : list string) (st : State) : State :=
  mkState (game st) (selectedSquare st) v (pendingPromotion st)
    (manualGameOver st) (lastAIMoveUCI st) (promotionModal st) (statusEl st)
    (whoIsWinningEl st) (whiteProbabilityEl st) (blackProbabilityEl st)
    (leftPlayerInfo st) (rightPlayerInfo st) (classes st) (tokens st)
    (submitted st) (timers st).
Definition set_pendingPromotion (v : option Pending.t) (st : State) : State :=
  mkState (game st) (selectedSquare st) (legalMovesFromSelected st) v
    (manualGameOver st) (lastAIMoveUCI st) (promotionModal st) (statusEl st)
    (whoIsWinningEl st) (whiteProbabilityEl st) (blackProbabilityEl st)
    (leftPlayerInfo st) (rightPlayerInfo st) (classes st) (tokens st)
    (submitted st) (timers st).
Definition set_manualGameOver (v : bool) (st : State) : State :=
  mkState (game st) (selectedSquare st) (legalMovesFromSelected st)
    (pendingPromotion st) v (lastAIMoveUCI st) (promotionModal st) (statusEl
    st) (whoIsWinningEl st) (whiteProbabilityEl st) (blackProbabilityEl st)
    (leftPlayerInfo st) (rightPlayerInfo st) (classes st) (tokens st)
    (submitted st) (timers st).
Definition set_lastAIMoveUCI (v : option string) (st : State) : State :=
  mkState (game st) (selectedSquare st) (legalMovesFromSelected st)
    (pendingPromotion st) (manualGameOver st) v (promotionModal st) (statusEl
    st) (whoIsWinningEl st) (whiteProbabilityEl st) (blackProbabilityEl st)
    (leftPlayerInfo st) (rightPlayerInfo st) (classes st) (tokens st)
    (submitted st) (timers st).
Definition set_promotionModal (v : bool) (st : State) : State :=
  mkState (game st) (selectedSquare st) (legalMovesFromSelected st)
    (pendingPromotion st) (manualGameOver st) (lastAIMoveUCI st) v (statusEl
    st) (whoIsWinningEl st) (whiteProbabilityEl st) (blackProbabilityEl st)
    (leftPlayerInfo st) (rightPlayerInfo st) (classes st) (tokens st)
    (submitted st) (timers st).
Definition set_statusEl (v : string) (st : State) : State :=
  mkState (game st) (selectedSquare st) (legalMovesFromSelected st)
    (pendingPromotion st) (manualGameOver st) (lastAIMoveUCI st)
    (promotionModal st) v (whoIsWinningEl st) (whiteProbabilityEl st)
    (blackProbabilityEl st) (leftPlayerInfo st) (rightPlayerInfo st) (classes
    st) (tokens st) (submitted st) (timers st).
Definition set_whoIsWinningEl (v : string) (st : State) : State :=
  mkState (game st) (selectedSquare st) (legalMovesFromSelected st)
    (pendingPromotion st) (manualGameOver st) (lastAIMoveUCI st)
    (promotionModal st) (statusEl st) v (whiteProbabilityEl st)
    (blackProbabilityEl st) (leftPlayerInfo st) (rightPlayerInfo st) (classes
    st) (tokens st) (submitted st) (timers st).
Definition set_whiteProbabilityEl (v : string) (st : State) : State :=
  mkState (game st) (selectedSquare st) (legalMovesFromSelected st)
    (pendingPromotion st) (manualGameOver st) (lastAIMoveUCI st)
    (promotionModal st) (statusEl st) (whoIsWinningEl st) v
    (blackProbabilityEl st) (leftPlayerInfo st) (rightPlayerInfo st) (classes
    st) (tokens st) (submitted st) (timers st).
Definition set_blackProbabilityEl (v : string) (st : State) : State :=
  mkState (game st) (selectedSquare st) (legalMovesFromSelected st)
    (pendingPromotion st) (manualGameOver st) (lastAIMoveUCI st)
    (promotionModal st) (statusEl st) (whoIsWinningEl st) (whiteProbabilityEl
    st) v (leftPlayerInfo st) (rightPlayerInfo st) (classes st) (tokens st)
    (submitted st) (timers st).
Definition set_leftPlayerInfo (v : bool) (st : State) : State :=
  mkState (game st) (selectedSquare st) (legalMovesFromSelected st)
    (pendingPromotion st) (manualGameOver st) (lastAIMoveUCI st)
    (promotionModal st) (statusEl st) (whoIsWinningEl st) (whiteProbabilityEl
    st) (blackProbabilityEl st) v (rightPlayerInfo st) (classes st) (tokens
    st) (submitted st) (timers st).
Definition set_rightPlayerInfo (v : bool) (st : State) : State :=
  mkState (game st) (selectedSquare st) (legalMovesFromSelected st)
    (pendingPromotion st) (manualGameOver st) (lastAIMoveUCI st)
    (promotionModal st) (statusEl st) (whoIsWinningEl st) (whiteProbabilityEl
    st) (blackProbabilityEl st) (leftPlayerInfo st) v (classes st) (tokens st)
    (submitted st) (timers st).
Definition set_classes (v : list (string * string)) (st : State) : State :=
  mkState (game st) (selectedSquare st) (legalMovesFromSelected st)
    (pendingPromotion st) (manualGameOver st) (lastAIMoveUCI st)
    (promotionModal st) (statusEl st) (whoIsWinningEl st) (whiteProbabilityEl
    st) (blackProbabilityEl st) (leftPlayerInfo st) (rightPlayerInfo st) v
    (tokens st) (submitted st) (timers st).
Definition set_tokens (v : list (string * (string * JS.value))) (st : State)
  : State :=
  mkState (game st) (selectedSquare st) (legalMovesFromSelected st)
    (pendingPromotion st) (manualGameOver st) (lastAIMoveUCI st)
    (promotionModal st) (statusEl st) (whoIsWinningEl st) (whiteProbabilityEl
    st) (blackProbabilityEl st) (leftPlayerInfo st) (rightPlayerInfo st)
    (classes st) v (submitted st) (timers st).
Definition set_submitted (v : list Req.t) (st : State) : State :=
  mkState (game st) (selectedSquare st) (legalMovesFromSelected st)
    (pendingPromotion st) (manualGameOver st) (lastAIMoveUCI st)
    (promotionModal st) (statusEl st) (whoIsWinningEl st) (whiteProbabilityEl
    st) (blackProbabilityEl st) (leftPlayerInfo st) (rightPlayerInfo st)
    (classes st) (tokens st) v (timers st).
Definition set_timers (v : list nat) (st : State) : State :=
  mkState (game st) (selectedSquare st) (legalMovesFromSelected st)
    (pendingPromotion st) (manualGameOver st) (lastAIMoveUCI st)
    (promotionModal st) (statusEl st) (whoIsWinningEl st) (whiteProbabilityEl
    st) (blackProbabilityEl st) (leftPlayerInfo st) (rightPlayerInfo st)
    (classes st) (tokens st) (submitted st) v.

Definition files : list string := ["a"; "b"; "c"; "d"; "e"; "f"; "g"; "h"].
Definition ranks_down : list string := ["8"; "7"; "6"; "5"; "4"; "3"; "2"; "1"].

(** The cells of [createBoardGrid], a8 ... h1. *)
Definition squares : list string :=
  flat_map (fun r => map (fun f => f ++ r) files) ranks_down.

Definition has_cell (sq : string) : bool := existsb (String.eqb sq) squares.

Definition pair_eqb (a b : string * string) : bool :=
  (fst a =? fst b) && (snd a =? snd b).

(** [el.classList.add(c)] on the cell [sq], when the page has that cell. *)
Definition classList_add (sq c : string) (cl : list (string * string))
  : list (string * string) :=
  if has_cell sq
  then if existsb (pair_eqb (sq, c)) cl then cl else cl ++ [(sq, c)]
  else cl.

Definition pieceToGlyph (code : string) : JS.value :=
  let map := [("wp", "♙"); ("wr", "♖"); ("wn", "♘"); ("wb", "♗");
              ("wq", "♕"); ("wk", "♔"); ("bp", "♟"); ("br", "♜");
              ("bn", "♞"); ("bb", "♝"); ("bq", "♛"); ("bk", "♚")] in
  JS.or_default (JS.member map code) "?".

(** One token per occupied cell, in the order of the two loops, with the
    value assigned to its [textContent]; the cells lose their 'sel', 'move'
    and 'capture' classes (not 'castle'). *)
Definition renderPieces (st : State) : State :=
  let st := set_classes (filter (fun sc => snd sc =? "castle") (classes st)) st in
  let row (ir : nat * string) :=
    flat_map (fun jf : nat * string =>
                match board E (game st) (fst ir) (fst jf) with
                | Some piece =>
                    let code := color_code (color piece) ++ type_code (type piece) in
                    [(snd jf ++ snd ir, ("pc " ++ code, pieceToGlyph code))]
                | None => []
                end)
             (combine (seq 0 8) files) in
  set_tokens (flat_map row (combine (seq 0 8) ranks_down)) st.

Definition clearHighlights (st : State) : State := set_classes [] st.

Definition highlightMoves (from : string) (st : State) : State :=
  let st := clearHighlights st in
  let moves := moves E (game st) (Some from) in
  let st := set_legalMovesFromSelected (map Move.to moves) st in
  let st := set_classes (classList_add from "sel" (classes st)) st in
  fold_left
    (fun st m =>
       let isCapture := JS.includes (Move.flags m) "c"
                        || JS.includes (Move.flags m) "e" in
       let isKCastle := JS.includes (Move.flags m) "k" in
       let isQCastle := JS.includes (Move.flags m) "q" in
       let c := if isKCastle || isQCastle then "castle"
                else if isCapture then "capture" else "move" in
       set_classes (classList_add (Move.to m) c (classes st)) st)
    moves st.

Definition shouldPromptPromotion (g : game_t E) (from to : string)
  (color_ : Color) : bool :=
  match get E g from with
  | None => false
  | Some p =>
      if negb (PieceType_eqb (type p) Pawn) || negb (Color_eqb (color p) color_)
      then false
      else
        let rank := JS.at_ 1 to in
        Color_eqb color_ White && JS.equals rank "8"
        || Color_eqb color_ Black && JS.equals rank "1"
  end.

Definition openPromotionModal (st : State) : State := set_promotionModal true st.
Definition closePromotionModal (st : State) : State := set_promotionModal false st.

(** [game.move(r)]: whether it was accepted, and the state afterwards. *)
Definition game_move (r : Req.t) (st : State) : bool * State :=
  let st := set_submitted (submitted st ++ [r]) st in
  match move E (game st) r with
  | Some g' => (true, set_game g' st)
  | None => (false, st)
  end.

Definition turnLabel_of (turnSide : Color) : string :=
  if Color_eqb turnSide White then "You" else "Mahmoud".

Definition updateStatus (st : State) : State :=
  if manualGameOver st then st else
  let g := game st in
  let turnSide := turn E g in
  let turnLabel := turnLabel_of turnSide in
  let status := turnLabel ++ " to move." in
  let status :=
    if negb (game_over E g) && in_check E g
    then status ++ " " ++ (if Color_eqb turnSide White
                           then "You are in check!" else "Mahmoud is in check!")
    else status in
  let '(status, st) :=
    if game_over E g then
      if in_checkmate E g then
        let winnerLabel := if Color_eqb turnSide White then "Mahmoud" else "You" in
        ("Checkmate. " ++ winnerLabel ++ " won!",
         set_whoIsWinningEl (winnerLabel ++ " won!") st)
      else if in_stalemate E g then
        ("Stalemate. Draw!", set_whoIsWinningEl "Draw!" st)
      else if in_threefold_repetition E g then
        ("Threefold repetition. Draw!", set_whoIsWinningEl "Draw!" st)
      else if insufficient_material E g then
        ("Insufficient material. Draw!", set_whoIsWinningEl "Draw!" st)
      else if in_draw E g then
        ("50-move rule. Draw!", set_whoIsWinningEl "Draw!" st)
      else
        ("Game Over.", set_whoIsWinningEl "Game Over" st)
    else (status, st) in
  let st := set_statusEl status st in
  if game_over E g then
    set_rightPlayerInfo false
      (set_leftPlayerInfo false
         (set_blackProbabilityEl "N/A" (set_whiteProbabilityEl "N/A" st)))
  else if Color_eqb turnSide White then
    set_rightPlayerInfo false (set_leftPlayerInfo true st)
  else
    set_leftPlayerInfo false (set_rightPlayerInfo true st).

Definition syncAfterHumanMove (st : State) : State :=
  let st := updateStatus (renderPieces st) in
  if negb (manualGameOver st) && negb (game_over E (game st))
  then set_timers (timers st ++ [450%nat]) st
  else st.

Definition is_white (piece : option Piece) : bool :=
  match piece with
  | Some p => Color_eqb (color p) White
  | None => false
  end.

Definition select (sq : string) (st : State) : State :=
  highlightMoves sq (set_selectedSquare (Some sq) st).

(** The click handler of the cells; [sq] is the clicked cell's
    [dataset.square]. *)
Definition onSquareClick (sq : string) (st : State) : State :=
  if manualGameOver st then st else
  if game_over E (game st) then st else
  if negb (Color_eqb (turn E (game st)) White) then st else
  let piece := get E (game st) sq in
  if negb (JS.truthy (selectedSquare st)) then
    if is_white piece then select sq st else st
  else
  if is_white piece && negb (JS.equals (selectedSquare st) sq) then select sq st
  else
  match selectedSquare st with
  | Some sel =>
      if JS.truthy (selectedSquare st) then
        let isPromotion := shouldPromptPromotion (game st) sel sq White in
        if isPromotion then
          openPromotionModal
            (set_pendingPromotion (Some (Pending.mk sel sq White)) st)
        else
          let '(accepted, st) := game_move (Req.mk sel sq (Some "q")) st in
          if negb accepted then
            if is_white piece then select sq st
            else clearHighlights (set_selectedSquare None st)
          else
            syncAfterHumanMove (clearHighlights (set_selectedSquare None st))
      else st
  | None => st
  end.

(** The click handler of the promotion buttons.  [btn] is [None] when the
    click lands on no button, and otherwise the button's [data-piece]
    attribute ([None] when the attribute is missing). *)
Definition onPromotionClick (btn : option (option string)) (st : State) : State :=
  match btn with
  | None => st
  | Some promotionPiece =>
      match pendingPromotion st with
      | None => st
      | Some pending =>
          let '(accepted, st) :=
            game_move (Req.mk (Pending.from pending) (Pending.to pending)
                              promotionPiece) st in
          let st := closePromotionModal (set_pendingPromotion None st) in
          if accepted then syncAfterHumanMove st
          else updateStatus (renderPieces st)
      end
  end.

Definition uciToMove (uci : JS.value) : option Req.t :=
  match uci with
  | JS.VString u =>
      if u =? "" then None else
      let s := JS.toLowerCase (JS.trim u) in
      if (String.length s <? 4)%nat then None else
      let from := JS.slice 0 2 s in
      let to := JS.slice 2 4 s in
      let promotion := if (5 <=? String.length s)%nat then JS.at_ 4 s else None in
      let promotion := option_map JS.toLowerCase promotion in
      if JS.truthy promotion then Some (Req.mk from to promotion)
      else Some (Req.mk from to None)
  | _ => None
  end.

(** What the call [window.fetchEngineEval(fen)] comes to when
    [engineEvaluateAndAct] reaches it.  Without an [await] the function runs
    to its end at once, and draws [Math.random()] if it gets to the
    fallback. *)
Inductive Request :=
| NoClient (rnd : Q)      (* window.fetchEngineEval is not a function *)
| RaisesAtOnce (rnd : Q)  (* the call itself throws *)
| Awaits.                 (* the call returns: the function is suspended *)

(** What the awaited value and its destructuring come to. *)
Inductive Answer :=
| Raises     (* the promise rejects, or resolves to null or undefined,
                which cannot be destructured *)
| Binds (prob best_move : JS.value).
             (* the two properties, undefined when missing *)

Definition percent (n : JS.number) : string := JS.toString n ++ "%".

Definition uci_of (from to : string) (promotion : option string) : string :=
  from ++ to ++ JS.or_else promotion "".

(** The first half of the [try] block, after the await: the percentages
    and the leader label.  [None] is the TypeError of a [prob] that does
    not convert to a number, raised before anything is written. *)
Definition showProbabilities (prob : JS.value) (st : State) : option State :=
  match JS.times prob (JS.Fin 100) with
  | None => None
  | Some product =>
      let wPct := JS.Math_round product in
      let bPct := JS.sub (JS.Fin 100) wPct in
      let st := set_whiteProbabilityEl (percent wPct) st in
      let st := set_blackProbabilityEl (percent bPct) st in
      Some (set_whoIsWinningEl
              (if JS.strict_eq wPct (JS.Fin 50) then "Balanced"
               else if JS.gt wPct (JS.Fin 50) then "You" else "Mahmoud") st)
  end.

(** The second half: the recommended move, on the opponent's turn; answers
    [moved]. *)
Definition applyBestMove (best_move : JS.value) (st : State) : bool * State :=
  if Color_eqb (turn E (game st)) Black && negb (game_over E (game st)) then
    match uciToMove best_move with
    | Some mv =>
        let '(res, st) := game_move mv st in
        if res then
          (true, set_lastAIMoveUCI
                   (Some (match best_move with
                          | JS.VString u => u
                          | _ => uci_of (Req.from mv) (Req.to mv) (Req.promotion mv)
                          end)) st)
        else if JS.truthy (Req.promotion mv) then
          let alt := Req.mk (Req.from mv) (Req.to mv) (Some "q") in
          let '(res, st) := game_move alt st in
          if res
          then (true, set_lastAIMoveUCI
                        (Some (Req.from mv ++ Req.to mv ++ "q")) st)
          else (false, st)
        else (false, st)
    | None => (false, st)
    end
  else (false, st).

(** The [try] block after the await; an exception leaves it with nothing
    moved. *)
Definition applyEvaluation (prob best_move : JS.value) (st : State)
  : bool * State :=
  match showProbabilities prob st with
  | Some st => applyBestMove best_move st
  | None => (false, st)
  end.

(** [moves[idx]] for [idx = Math.floor(Math.random() * moves.length)]:
    undefined unless [idx] is an index of the array. *)
Definition pick (rnd : Q) (moves : list Move.t) : option Move.t :=
  match JS.Math_floor
          (JS.mul (JS.Fin rnd) (JS.Fin (inject_Z (Z.of_nat (length moves))))) with
  | JS.Fin idx =>
      if Qeq_bool idx (inject_Z (Qfloor idx)) && (0 <=? Qfloor idx)%Z
      then nth_error moves (Z.to_nat (Qfloor idx)) else None
  | _ => None
  end.

(** The random-move fallback.  [None] stands for the TypeError of reading
    [m.flags] on an undefined [m], which no [rnd] in [0, 1) produces. *)
Definition fallback (rnd : Q) (st : State) : option State :=
  let moves := moves E (game st) None in
  if (0 <? length moves)%nat then
    match pick rnd moves with
    | Some m =>
        let '(_, st) :=
          if JS.includes (Move.flags m) "p"
          then game_move (Req.mk (Move.from m) (Move.to m) (Some "q")) st
          else game_move (Move.as_req m) st in
        Some (set_lastAIMoveUCI
                (Some (uci_of (Move.from m) (Move.to m) (Move.promotion m))) st)
    | None => None
    end
  else Some st.

(** The last two calls of a cycle; a fallback that threw skips them. *)
Definition redraw (after : option State) (st : State) : State :=
  match after with
  | Some st => updateStatus (renderPieces st)
  | None => st
  end.

(** From the fallback test to the end of the function. *)
Definition finish (moved : bool) (rnd : Q) (st : State) : State :=
  if negb moved && Color_eqb (turn E (game st)) Black
     && negb (game_over E (game st))
  then redraw (fallback rnd st) st
  else redraw (Some st) st.

Definition placeholders (st : State) : State :=
  set_blackProbabilityEl "Calculating…"
    (set_whiteProbabilityEl "Calculating…" st).

(** A call of [engineEvaluateAndAct]: the function runs up to its [await],
    and to its end when it does not get there. *)
Definition engineEvaluateAndAct (r : Request) (st : State) : State :=
  if manualGameOver st || game_over E (game st) then st else
  let st := placeholders st in
  match r with
  | NoClient rnd => finish false rnd st
  | RaisesAtOnce rnd => finish false rnd st
  | Awaits => st
  end.

(** The rest of the function, when the awaited answer arrives: it reads
    the script variables and the position as they are by then. *)
Definition resume (a : Answer) (rnd : Q) (st : State) : State :=
  let '(moved, st) :=
    match a with
    | Raises => (false, st)
    | Binds prob best_move => applyEvaluation prob best_move st
    end in
  finish moved rnd st.

Definition startNewGame (st : State) : State :=
  let st := set_game (reset E) st in
  let st := set_selectedSquare None st in
  let st := set_pendingPromotion None st in
  let st := set_manualGameOver false st in
  let st := set_lastAIMoveUCI None st in
  let st := closePromotionModal (updateStatus (renderPieces (clearHighlights st))) in
  set_timers (timers st ++ [300%nat]) st.

(** What can happen to the page.  An answer belongs to an earlier call
    that was suspended; the page keeps no count of the calls in flight, and
    any event may come between a call and its answer. *)
Inductive Event :=
| CellClick (sq : string)
| PromotionClick (btn : option (option string))
| NewGameClick
| EngineCycle (r : Request)
| AnswerArrives (a : Answer) (rnd : Q).

(** The script variables as the top of the script declares them, over a game
    object in position [g]; the page elements carry no text yet. *)
Definition declared (g : game_t E) : State :=
  mkState g None [] None false None false "" "" "" "" false false [] [] [] [].

(** The synchronous part of loading the script: the first render and status
    line over a new game.  The first call of [engineEvaluateAndAct]
    follows as an event. *)
Definition loaded : State := updateStatus (renderPieces (declared (reset E))).

Definition step (st : State) (e : Event) : State :=
  match e with
  | CellClick sq => onSquareClick sq st
  | PromotionClick btn => onPromotionClick btn st
  | NewGameClick => startNewGame st
  | EngineCycle r => engineEvaluateAndAct r st
  | AnswerArrives a rnd => resume a rnd st
  end.

Definition run (st : State) (es : list Event) : State := fold_left step es st.

End Page.

Arguments game {E} _.
Arguments selectedSquare {E} _.
Arguments legalMovesFromSelected {E} _.
Arguments pendingPromotion {E} _.
Arguments manualGameOver {E} _.
Arguments lastAIMoveUCI {E} _.
Arguments promotionModal {E} _.
Arguments statusEl {E} _.
Arguments whoIsWinningEl {E} _.
Arguments whiteProbabilityEl {E} _.
Arguments blackProbabilityEl {E} _.
Arguments leftPlayerInfo {E} _.
Arguments rightPlayerInfo {E} _.
Arguments classes {E} _.
Arguments tokens {E} _.
Arguments submitted {E} _.
Arguments timers {E} _.

(* ================================================================= *)
(** ** A reference rules engine

    chess.js is loaded by the page and is not part of the repository.  This
    module implements the interface [Chess] with the rules of chess, in the
    way chess.js organises them (pseudo-legal generation in the library's
    scanning order, a king-safety filter, promotion moves in the order
    q, r, b, n, castling last), so that the handlers can be run on concrete
    positions. *)

Module Ref.

(** A cell as (file, rank), both in 0..7; a1 is (0, 0). *)
Definition Sq : Type := (Z * Z)%type.

Definition on_board (s : Sq) : bool :=
  ((0 <=? fst s) && (fst s <? 8) && (0 <=? snd s) && (snd s <? 8))%Z.

Definition Sq_eqb (a b : Sq) : bool :=
  ((fst a =? fst b) && (snd a =? snd b))%Z.

Definition shift (s d : Sq) : Sq := (fst s + fst d, snd s + snd d)%Z.

(** a8, b8, ..., h1: the order in which the library scans the board. *)
Definition all_squares : list Sq :=
  flat_map (fun r => map (fun f => (Z.of_nat f, Z.of_nat r)) (seq 0 8))
           (rev (seq 0 8)).

(** The algebraic name of a cell of the board. *)
Definition name (s : Sq) : string :=
  if on_board s
  then nth (Z.to_nat (fst s)) files "" ++ nth (Z.to_nat (7 - snd s)) ranks_down ""
  else "".

Definition parse (sq : string) : option Sq :=
  find (fun s => name s =? sq) all_squares.

Definition idx (s : Sq) : nat := (Z.to_nat (snd s) * 8 + Z.to_nat (fst s))%nat.

Definition Cells : Type := list (option Piece).

Definition piece_at (c : Cells) (s : Sq) : option Piece :=
  if on_board s then nth (idx s) c None else None.

Fixpoint put {A : Type} (n : nat) (v : A) (l : list A) : list A :=
  match l, n with
  | [], _ => []
  | _ :: t, O => v :: t
  | h :: t, S n' => h :: put n' v t
  end.

Definition place (c : Cells) (s : Sq) (v : option Piece) : Cells :=
  if on_board s then put (idx s) v c else c.

(** Castling rights: white king side, white queen side, black king side,
    black queen side. *)
Record Rights := mkRights { wk : bool; wq : bool; bk : bool; bq : bool }.

Definition Key : Type := (Cells * Color * Rights * option Sq)%type.

Record Pos := mkPos {
  cells : Cells;               (* 64 cells: a1, b1, ..., h8 *)
  side : Color;
  rights : Rights;
  ep_square : option Sq;
  half_moves : nat;
  move_number : nat;
  seen : list Key              (* the earlier positions of the game *)
}.

Definition key (p : Pos) : Key := (cells p, side p, rights p, ep_square p).

Definition knight_offsets : list Sq :=
  [(-2, 1); (-1, 2); (1, 2); (2, 1); (2, -1); (1, -2); (-1, -2); (-2, -1)]%Z.
Definition bishop_offsets : list Sq := [(-1, 1); (1, 1); (1, -1); (-1, -1)]%Z.
Definition rook_offsets : list Sq := [(0, 1); (1, 0); (0, -1); (-1, 0)]%Z.
Definition queen_offsets : list Sq :=
  [(-1, 1); (0, 1); (1, 1); (1, 0); (1, -1); (0, -1); (-1, -1); (-1, 0)]%Z.

(** The cells along a direction, up to and including the first occupied
    one. *)
Fixpoint slide (c : Cells) (s d : Sq) (fuel : nat) : list Sq :=
  match fuel with
  | O => []
  | S k =>
      let t := shift s d in
      if on_board t then
        match piece_at c t with
        | None => t :: slide c t d k
        | Some _ => [t]
        end
      else []
  end.

Definition forward (us : Color) : Z := match us with White => 1 | Black => -1 end.
Definition start_rank (us : Color) : Z := match us with White => 1 | Black => 6 end.
Definition last_rank (us : Color) : Z := match us with White => 7 | Black => 0 end.

(** The cells a piece other than a pawn reaches on the board as it is. *)
Definition reach (c : Cells) (s : Sq) (t : PieceType) : list Sq :=
  match t with
  | Knight => filter on_board (map (shift s) knight_offsets)
  | King => filter on_board (map (shift s) queen_offsets)
  | Bishop => flat_map (fun d => slide c s d 7) bishop_offsets
  | Rook => flat_map (fun d => slide c s d 7) rook_offsets
  | Queen => flat_map (fun d => slide c s d 7) queen_offsets
  | Pawn => []
  end.

Definition attacks (c : Cells) (s : Sq) (pc : Piece) (t : Sq) : bool :=
  match type pc with
  | Pawn =>
      (snd t =? snd s + forward (color pc))%Z
      && ((fst t =? fst s - 1) || (fst t =? fst s + 1))%Z
  | ty => existsb (Sq_eqb t) (reach c s ty)
  end.

Definition attacked (c : Cells) (by_ : Color) (t : Sq) : bool :=
  existsb (fun s => match piece_at c s with
                    | Some pc => Color_eqb (color pc) by_ && attacks c s pc t
                    | None => false
                    end) all_squares.

Definition king_square (c : Cells) (us : Color) : option Sq :=
  find (fun s => match piece_at c s with
                 | Some pc => PieceType_eqb (type pc) King && Color_eqb (color pc) us
                 | None => false
                 end) all_squares.

Definition king_attacked (c : Cells) (us : Color) : bool :=
  match king_square c us with
  | Some k => attacked c (opposite us) k
  | None => false
  end.

Inductive Kind := Normal | Capture | BigPawn | EpCapture | KsideCastle | QsideCastle.

(** A generated move before promotion pieces are attached. *)
Record Raw := mkRaw { rfrom : Sq; rto : Sq; rpiece : PieceType; rkind : Kind }.

Definition is_free (c : Cells) (s : Sq) : bool :=
  on_board s && match piece_at c s with None => true | Some _ => false end.

Definition holds (c : Cells) (s : Sq) (who : Color) : bool :=
  match piece_at c s with
  | Some pc => Color_eqb (color pc) who
  | None => false
  end.

Definition pawn_moves (p : Pos) (s : Sq) : list Raw :=
  let c := cells p in
  let us := side p in
  let one := shift s (0, forward us)%Z in
  let two := shift one (0, forward us)%Z in
  let pushes :=
    if is_free c one then
      mkRaw s one Pawn Normal ::
      (if (snd s =? start_rank us)%Z && is_free c two
       then [mkRaw s two Pawn BigPawn] else [])
    else [] in
  let capture (df : Z) :=
    let t := shift s (df, forward us)%Z in
    if on_board t then
      if holds c t (opposite us) then [mkRaw s t Pawn Capture]
      else match ep_square p with
           | Some e => if Sq_eqb e t then [mkRaw s t Pawn EpCapture] else []
           | None => []
           end
    else [] in
  pushes ++ capture (- forward us)%Z ++ capture (forward us).

Definition piece_moves (p : Pos) (s : Sq) (t : PieceType) : list Raw :=
  match t with
  | Pawn => pawn_moves p s
  | _ =>
      flat_map (fun d =>
                  match piece_at (cells p) d with
                  | None => [mkRaw s d t Normal]
                  | Some pc => if Color_eqb (color pc) (side p) then []
                               else [mkRaw s d t Capture]
                  end)
               (reach (cells p) s t)
  end.

Definition may_castle (r : Rights) (us : Color) (kingside : bool) : bool :=
  match us, kingside with
  | White, true => wk r
  | White, false => wq r
  | Black, true => bk r
  | Black, false => bq r
  end.

Definition castles (p : Pos) : list Raw :=
  let c := cells p in
  let us := side p in
  let them := opposite us in
  match king_square c us with
  | None => []
  | Some k =>
      let at_ (d : Z) := shift k (d, 0%Z) in
      (if may_castle (rights p) us true
          && is_free c (at_ 1%Z) && is_free c (at_ 2%Z)
          && negb (attacked c them k) && negb (attacked c them (at_ 1%Z))
          && negb (attacked c them (at_ 2%Z))
       then [mkRaw k (at_ 2%Z) King KsideCastle] else [])
      ++
      (if may_castle (rights p) us false
          && is_free c (at_ (-1)%Z) && is_free c (at_ (-2)%Z)
          && is_free c (at_ (-3)%Z)
          && negb (attacked c them k) && negb (attacked c them (at_ (-1)%Z))
          && negb (attacked c them (at_ (-2)%Z))
       then [mkRaw k (at_ (-2)%Z) King QsideCastle] else [])
  end.

Definition pseudo (p : Pos) : list Raw :=
  flat_map (fun s => match piece_at (cells p) s with
                     | Some pc => if Color_eqb (color pc) (side p)
                                  then piece_moves p s (type pc) else []
                     | None => []
                     end) all_squares
  ++ castles p.

Definition is_capture (k : Kind) : bool :=
  match k with Capture | EpCapture => true | _ => false end.

Definition home_rank (us : Color) : Z := match us with White => 0 | Black => 7 end.

(** The rights left after a move from [from] to [to] by [us]: a king move
    gives up both of its side's rights; leaving a rook's home cell, or
    landing on one of the other side's, gives up the right of that rook. *)
Definition update_rights (r : Rights) (us : Color) (pt : PieceType)
  (from to : Sq) : Rights :=
  let lost (who : Color) (kingside : bool) :=
    (Color_eqb who us && PieceType_eqb pt King)
    || (Color_eqb who us
        && Sq_eqb from ((if kingside then 7 else 0)%Z, home_rank who))
    || (Color_eqb who (opposite us)
        && Sq_eqb to ((if kingside then 7 else 0)%Z, home_rank who)) in
  mkRights (wk r && negb (lost White true)) (wq r && negb (lost White false))
           (bk r && negb (lost Black true)) (bq r && negb (lost Black false)).

(** The position after a generated move; [promo] is the piece a promoting
    pawn turns into. *)
Definition make_move (p : Pos) (m : Raw) (promo : option PieceType) : Pos :=
  let us := side p in
  let c := cells p in
  let moved := match promo with
               | Some t => mkPiece t us
               | None => mkPiece (rpiece m) us
               end in
  let c := place (place c (rfrom m) None) (rto m) (Some moved) in
  let c := match rkind m with
           | EpCapture => place c (fst (rto m), snd (rfrom m)) None
           | KsideCastle =>
               place (place c (shift (rto m) (1, 0)%Z) None)
                     (shift (rto m) (-1, 0)%Z) (Some (mkPiece Rook us))
           | QsideCastle =>
               place (place c (shift (rto m) (-2, 0)%Z) None)
                     (shift (rto m) (1, 0)%Z) (Some (mkPiece Rook us))
           | _ => c
           end in
  mkPos c (opposite us)
        (update_rights (rights p) us (rpiece m) (rfrom m) (rto m))
        (match rkind m with
         | BigPawn => Some (shift (rfrom m) (0, forward us)%Z)
         | _ => None
         end)
        (if PieceType_eqb (rpiece m) Pawn || is_capture (rkind m)
         then 0%nat else S (half_moves p))
        (if Color_eqb us Black then S (move_number p) else move_number p)
        (key p :: seen p).

(** A generated move is legal when it leaves the mover's king unattacked.
    The test on the target cell changes nothing on positions of a game: no
    generated move lands on a piece of the mover. *)
Definition is_legal (p : Pos) (m : Raw) : bool :=
  negb (king_attacked (cells (make_move p m None)) (side p))
  && negb (holds (cells p) (rto m) (side p)).

Definition promotes (us : Color) (m : Raw) : bool :=
  PieceType_eqb (rpiece m) Pawn && (snd (rto m) =? last_rank us)%Z.

Definition with_promotions (us : Color) (m : Raw) : list (Raw * option PieceType) :=
  if promotes us m
  then map (fun t => (m, Some t)) [Queen; Rook; Bishop; Knight]
  else [(m, None)].

Definition generate_moves (p : Pos) : list (Raw * option PieceType) :=
  flat_map (with_promotions (side p)) (filter (is_legal p) (pseudo p)).

Definition kind_flag (k : Kind) : string :=
  match k with
  | Normal => "n" | Capture => "c" | BigPawn => "b"
  | EpCapture => "e" | KsideCastle => "k" | QsideCastle => "q"
  end.

Definition pretty (x : Raw * option PieceType) : Move.t :=
  let '(m, promo) := x in
  match promo with
  | Some t => Move.mk (name (rfrom m)) (name (rto m))
                      (kind_flag (rkind m) ++ "p") (Some (type_code t))
  | None => Move.mk (name (rfrom m)) (name (rto m)) (kind_flag (rkind m)) None
  end.

Definition moves (p : Pos) (square : option string) : list Move.t :=
  let all := map pretty (generate_moves p) in
  match square with
  | Some sq => filter (fun m => Move.from m =? sq) all
  | None => all
  end.

Definition option_string_eqb (a b : option string) : bool :=
  match a, b with
  | Some x, Some y => x =? y
  | None, None => true
  | _, _ => false
  end.

(** The first generated move with the requested cells whose promotion, when
    it has one, is the requested one. *)
Definition requested (r : Req.t) (x : Raw * option PieceType) : bool :=
  let m := pretty x in
  (Req.from r =? Move.from m) && (Req.to r =? Move.to m)
  && match Move.promotion m with
     | None => true
     | Some _ => option_string_eqb (Req.promotion r) (Move.promotion m)
     end.

Definition move (p : Pos) (r : Req.t) : option Pos :=
  match find (requested r) (generate_moves p) with
  | Some (m, promo) => Some (make_move p m promo)
  | None => None
  end.

Definition get (p : Pos) (sq : string) : option Piece :=
  match parse sq with
  | Some s => piece_at (cells p) s
  | None => None
  end.

Definition board (p : Pos) (i j : nat) : option Piece :=
  piece_at (cells p) (Z.of_nat j, 7 - Z.of_nat i)%Z.

Definition in_check (p : Pos) : bool := king_attacked (cells p) (side p).

Definition no_moves (p : Pos) : bool :=
  match generate_moves p with [] => true | _ => false end.

Definition in_checkmate (p : Pos) : bool := in_check p && no_moves p.
Definition in_stalemate (p : Pos) : bool := negb (in_check p) && no_moves p.

Definition Piece_eqb (a b : Piece) : bool :=
  PieceType_eqb (type a) (type b) && Color_eqb (color a) (color b).

Definition cell_eqb (a b : option Piece) : bool :=
  match a, b with
  | Some x, Some y => Piece_eqb x y
  | None, None => true
  | _, _ => false
  end.

Fixpoint cells_eqb (a b : Cells) : bool :=
  match a, b with
  | [], [] => true
  | x :: a', y :: b' => cell_eqb x y && cells_eqb a' b'
  | _, _ => false
  end.

Definition Rights_eqb (a b : Rights) : bool :=
  Bool.eqb (wk a) (wk b) && Bool.eqb (wq a) (wq b)
  && Bool.eqb (bk a) (bk b) && Bool.eqb (bq a) (bq b).

Definition Key_eqb (a b : Key) : bool :=
  let '(ca, sa, ra, ea) := a in
  let '(cb, sb, rb, eb) := b in
  cells_eqb ca cb && Color_eqb sa sb && Rights_eqb ra rb
  && match ea, eb with
     | Some x, Some y => Sq_eqb x y
     | None, None => true
     | _, _ => false
     end.

Definition in_threefold_repetition (p : Pos) : bool :=
  (3 <=? length (filter (Key_eqb (key p)) (key p :: seen p)))%nat.

(** Bare kings, a lone minor piece, or bishops that all stand on cells of
    one colour. *)
Definition insufficient_material (p : Pos) : bool :=
  let occupied := filter (fun s => match piece_at (cells p) s with
                                   | Some _ => true | None => false end)
                         all_squares in
  let of_type (t : PieceType) :=
    filter (fun s => match piece_at (cells p) s with
                     | Some pc => PieceType_eqb (type pc) t
                     | None => false end) all_squares in
  let num_pieces := length occupied in
  let bishops := map (fun s => Z.even (fst s + snd s)) (of_type Bishop) in
  if (num_pieces =? 2)%nat then true
  else if (num_pieces =? 3)%nat
          && ((length (of_type Bishop) =? 1)%nat
              || (length (of_type Knight) =? 1)%nat) then true
  else if (num_pieces =? length (of_type Bishop) + 2)%nat
  then forallb (fun x => x) bishops || forallb negb bishops
  else false.

Definition in_draw (p : Pos) : bool :=
  (100 <=? half_moves p)%nat || in_stalemate p || insufficient_material p
  || in_threefold_repetition p.

Definition game_over (p : Pos) : bool :=
  (100 <=? half_moves p)%nat || in_checkmate p || in_stalemate p
  || insufficient_material p || in_threefold_repetition p.

Definition decimal (n : nat) : string := String.of_uint (Nat.to_uint n).

Definition fen_letter (pc : Piece) : string :=
  match color pc, type pc with
  | White, Pawn => "P" | White, Knight => "N" | White, Bishop => "B"
  | White, Rook => "R" | White, Queen => "Q" | White, King => "K"
  | Black, t => type_code t
  end.

(** One rank of the placement field: letters, and counts of empty cells. *)
Fixpoint fen_rank (row : list (option Piece)) (empty : nat) : string :=
  match row with
  | [] => if (0 <? empty)%nat then decimal empty else ""
  | None :: rest => fen_rank rest (S empty)
  | Some pc :: rest =>
      (if (0 <? empty)%nat then decimal empty else "")
      ++ fen_letter pc ++ fen_rank rest 0
  end.

Definition fen (p : Pos) : string :=
  let row (r : nat) :=
    fen_rank (map (fun f => piece_at (cells p) (Z.of_nat f, Z.of_nat r)) (seq 0 8)) 0 in
  let cflags := (if wk (rights p) then "K" else "") ++ (if wq (rights p) then "Q" else "")
                ++ (if bk (rights p) then "k" else "") ++ (if bq (rights p) then "q" else "") in
  String.concat "/" (map row (rev (seq 0 8)))
  ++ " " ++ color_code (side p)
  ++ " " ++ (if cflags =? "" then "-" else cflags)
  ++ " " ++ match ep_square p with Some e => name e | None => "-" end
  ++ " " ++ decimal (half_moves p)
  ++ " " ++ decimal (move_number p).

Definition back_row (c : Color) : list (option Piece) :=
  map (fun t => Some (mkPiece t c))
      [Rook; Knight; Bishop; Queen; King; Bishop; Knight; Rook].

Definition initial : Pos :=
  mkPos (back_row White ++ repeat (Some (mkPiece Pawn White)) 8
         ++ repeat None 32
         ++ repeat (Some (mkPiece Pawn Black)) 8 ++ back_row Black)%list
        White (mkRights true true true true) None 0 1 [].

(** A position from the placement field of a FEN string (ranks 8 to 1,
    separated by "/"), the side to move, the castling rights and the
    en-passant cell. *)
Definition fen_piece (c : N) : option Piece :=
  find (fun pc => fen_letter pc =? String c "")
       (flat_map (fun col => map (fun t => mkPiece t col)
                                 [Pawn; Knight; Bishop; Rook; Queen; King])
                 [White; Black]).

Fixpoint fen_row (s : string) : list (option Piece) :=
  match s with
  | EmptyString => []
  | String c rest =>
      match fen_piece c with
      | Some pc => Some pc :: fen_row rest
      | None => (repeat None (N.to_nat c - 48) ++ fen_row rest)%list
      end
  end.

Fixpoint split_rows (s : string) (cur : string) : list string :=
  match s with
  | EmptyString => [cur]
  | String c rest =>
      if (c =? 47)%N then cur :: split_rows rest ""
      else split_rows rest (cur ++ String c "")
  end.

Definition setup (placement : string) (to_move : Color) (r : Rights)
  (ep : option Sq) : Pos :=
  mkPos (flat_map fen_row (rev (split_rows placement "")))
        to_move r ep 0 1 [].

Definition engine : Chess :=
  Build_Chess Pos initial side get board moves move game_over in_check
              in_checkmate in_stalemate in_threefold_repetition
              insufficient_material in_draw fen.

(** Leaf count of the move tree, the usual test of a move generator. *)
Fixpoint perft (d : nat) (p : Pos) : nat :=
  match d with
  | O => 1
  | S d' => fold_left (fun n x => (n + perft d' (make_move p (fst x) (snd x)))%nat)
                      (generate_moves p) 0%nat
  end.

End Ref.

(* ================================================================= *)
(** ** Vocabulary of the properties *)

Section Vocabulary.
Variable E : Chess.
Context {host : JS.Casing}.

(** The cell-click handler gets past its three guards. *)
Definition live (st : State E) : Prop :=
  manualGameOver st = false /\ game_over E (game st) = false
  /\ turn E (game st) = White.

(** The selection is active and holds a piece of the human side. *)
Definition selected (st : State E) (sel : string) : Prop :=
  selectedSquare st = Some sel /\ sel <> ""
  /\ is_white (get E (game st) sel) = true.

(** The legal-destination set of the piece on [sel]. *)
Definition destinations (g : game_t E) (sel : string) : list string :=
  map Move.to (moves E g (Some sel)).

(** A click on [sq] that the handler takes as a reselection. *)
Definition reselects (st : State E) (sel sq : string) : bool :=
  is_white (get E (game st) sq) && negb (sel =? sq).

(** The terminal conditions of the status line, and the order of
    precedence in which the specification lists them. *)
Inductive Terminal :=
| Checkmate | Stalemate | ThreefoldRepetition | InsufficientMaterial
| OtherDraw | Unspecified.

Definition precedence : list Terminal :=
  [Checkmate; Stalemate; ThreefoldRepetition; InsufficientMaterial;
   OtherDraw; Unspecified].

Definition applies (g : game_t E) (t : Terminal) : bool :=
  match t with
  | Checkmate => in_checkmate E g
  | Stalemate => in_stalemate E g
  | ThreefoldRepetition => in_threefold_repetition E g
  | InsufficientMaterial => insufficient_material E g
  | OtherDraw => in_draw E g
  | Unspecified => true
  end.

(** The condition the specification asks to display: the first one, in the
    order of precedence, that applies. *)
Definition spec_terminal (g : game_t E) : option Terminal :=
  find (applies g) precedence.

Definition terminal_status (t : Terminal) (turnSide : Color) : string :=
  match t with
  | Checkmate =>
      "Checkmate. " ++ (if Color_eqb turnSide White then "Mahmoud" else "You")
      ++ " won!"
  | Stalemate => "Stalemate. Draw!"
  | ThreefoldRepetition => "Threefold repetition. Draw!"
  | InsufficientMaterial => "Insufficient material. Draw!"
  | OtherDraw => "50-move rule. Draw!"
  | Unspecified => "Game Over."
  end.

Definition terminal_banner (t : Terminal) (turnSide : Color) : string :=
  match t with
  | Checkmate => (if Color_eqb turnSide White then "Mahmoud" else "You") ++ " won!"
  | Unspecified => "Game Over"
  | _ => "Draw!"
  end.

(** The status line of a turn that is not terminal: whose turn it is, and
    whether that side is in check. *)
Definition turn_status (g : game_t E) : string :=
  match turn E g, in_check E g with
  | White, false => "You to move."
  | White, true => "You to move. You are in check!"
  | Black, false => "Mahmoud to move."
  | Black, true => "Mahmoud to move. Mahmoud is in check!"
  end.

(** "Clicking a cell in the legal-destination set of the selected piece
    always results in that move being applied and the turn flipping", as
    worded. *)
Definition legal_click_always_moves : Prop :=
  forall (st : State E) (sel sq : string),
    live st -> selected st sel -> In sq (destinations (game st) sel) ->
    let st' := onSquareClick E sq st in
    (exists r, Req.from r = sel /\ Req.to r = sq
               /\ move E (game st) r = Some (game st'))
    /\ turn E (game st') = opposite (turn E (game st)).

(** "The position is unchanged while the promotion is pending", as
    worded. *)
Definition unchanged_while_pending : Prop :=
  forall (st : State E) (sq : string),
    pendingPromotion st <> None -> game (onSquareClick E sq st) = game st.

(** "uciToMove returns null for every string whose trimmed form is shorter
    than 4 characters", as worded. *)
Definition null_below_four_characters : Prop :=
  forall u : string,
    (String.length (JS.trim u) < 4)%nat -> uciToMove (JS.VString u) = None.

(** An answer is malformed when it lacks a numeric [prob] or a string
    [best_move]. *)
Definition malformed (a : Answer) : Prop :=
  match a with
  | Binds prob best_move =>
      (forall n, prob <> JS.VNumber n) \/ (forall s, best_move <> JS.VString s)
  | Raises => False
  end.

(** "Every failure of the evaluation request, a malformed response among
    them, leaves the probability displays in the calculating state until
    the fallback move", as worded: when the answer of a call is such a
    failure and nothing came in between, nothing was moved and both displays
    still read the placeholder when the fallback test is reached. *)
Definition failure_keeps_calculating : Prop :=
  forall (st : State E) (a : Answer),
    manualGameOver st = false -> game_over E (game st) = false ->
    a = Raises \/ malformed a ->
    let '(moved, st1) :=
      match a with
      | Raises => (false, engineEvaluateAndAct E Awaits st)
      | Binds prob best_move =>
          applyEvaluation E prob best_move (engineEvaluateAndAct E Awaits st)
      end in
    moved = false
    /\ whiteProbabilityEl st1 = "Calculating…"
    /\ blackProbabilityEl st1 = "Calculating…".

End Vocabulary.

(** Concrete games on the reference engine. *)
Module Demo.

Definition half : JS.value := JS.VNumber (JS.Fin (1 # 2)).

(** A call for the opponent that is answered before anything else
    happens. *)
Definition answered (uci : string) : list Event :=
  [EngineCycle Awaits; AnswerArrives (Binds half (JS.VString uci)) 0].

(** 1. a4 b5 2. axb5 a6 3. bxa6 Bb7 4. axb7 Nc6, played through the page:
    the human by clicks, the opponent from the evaluation answers. *)
Definition pawn_to_b7 : list Event :=
  ([EngineCycle (NoClient 0); CellClick "a2"; CellClick "a4"]
   ++ answered "b7b5" ++ [CellClick "a4"; CellClick "b5"]
   ++ answered "a7a6" ++ [CellClick "b5"; CellClick "a6"]
   ++ answered "c8b7" ++ [CellClick "a6"; CellClick "b7"]
   ++ answered "b8c6")%list.

Definition before_promotion : State Ref.engine :=
  run Ref.engine (loaded Ref.engine) pawn_to_b7.

(** 1. f3 e5 2. g4 Qh4, checkmate. *)
Definition fools_mate : list Event :=
  ([EngineCycle (NoClient 0); CellClick "f2"; CellClick "f3"]
   ++ answered "e7e5" ++ [CellClick "g2"; CellClick "g4"]
   ++ answered "d8h4")%list.

Definition mated : State Ref.engine :=
  run Ref.engine (loaded Ref.engine) fools_mate.

(** After 1. e4, before the opponent's cycle. *)
Definition after_e4 : State Ref.engine :=
  run Ref.engine (loaded Ref.engine)
      [EngineCycle (NoClient 0); CellClick "e2"; CellClick "e4"].

(** The same games with a piece picked up, and with the modal open. *)
Definition e2_selected : State Ref.engine :=
  run Ref.engine (loaded Ref.engine) [EngineCycle (NoClient 0); CellClick "e2"].

Definition a2_selected : State Ref.engine :=
  run Ref.engine (loaded Ref.engine) [EngineCycle (NoClient 0); CellClick "a2"].

Definition b7_selected : State Ref.engine :=
  run Ref.engine before_promotion [CellClick "b7"].

Definition promotion_pending : State Ref.engine :=
  run Ref.engine b7_selected [CellClick "a8"].

(** With the promotion b7-a8 pending, the knights go out and back twice:
    5. Nf3 Ne5 6. Ng1 Nc6 7. Nf3 Ne5 8. Ng1 Nc6, and the position after
    4. axb7 Nc6 has occurred three times, with the human to move. *)
Definition knights_out_and_back : list Event :=
  ([CellClick "g1"; CellClick "f3"] ++ answered "c6e5"
   ++ [CellClick "f3"; CellClick "g1"] ++ answered "e5c6")%list.

Definition drawn_with_promotion_pending : State Ref.engine :=
  run Ref.engine promotion_pending
      (knights_out_and_back ++ knights_out_and_back)%list.

(** A bare position in which the opponent's a-pawn is about to promote. *)
Definition black_promotes : State Ref.engine :=
  declared Ref.engine
    (Ref.setup "4k3/8/8/8/8/8/p7/4K3" Black
               (Ref.mkRights false false false false) None).

End Demo.

(* ================================================================= *)
(** ** Vocabulary of the further properties *)

(** The cells [createBoardGrid] appends to the board, in order: the
    [dataset.square] and the [className] of each. *)
Definition createBoardGrid : list (string * string) :=
  flat_map (fun r : nat =>
              map (fun f : nat =>
                     (nth f files "" ++ Ref.decimal r,
                      "sq " ++ (if ((r + f) mod 2 =? 0)%nat
                                then "light" else "dark")))
                  (seq 0 8))
           (rev (seq 1 8)).

(** The cell of row [i] (from the top) and column [j] of the grid. *)
Definition cell (i j : nat) : string := nth j files "" ++ nth i ranks_down "".

(** The code under which a piece is drawn: colour letter, type letter. *)
Definition piece_code (piece : Piece) : string :=
  color_code (color piece) ++ type_code (type piece).

(** The class [highlightMoves] gives to the destination of a move. *)
Definition highlight_class (m : Move.t) : string :=
  if JS.includes (Move.flags m) "k" || JS.includes (Move.flags m) "q"
  then "castle"
  else if JS.includes (Move.flags m) "c" || JS.includes (Move.flags m) "e"
       then "capture" else "move".

(** What the fallback hands to [game.move] for a move [m] of the list. *)
Definition fallback_request (m : Move.t) : Req.t :=
  if JS.includes (Move.flags m) "p"
  then Req.mk (Move.from m) (Move.to m) (Some "q")
  else Move.as_req m.

(** More laws of chess.js: a move of the generated list is accepted when
    it is handed back (a promotion with any of the four pieces), and a game
    that is not over has a legal move. *)
Module MoreLaws.
Section MoreLaws.
Variable E : Chess.

Definition generated_move_accepted : Prop :=
  forall g m, In m (moves E g None) ->
    exists g', move E g (fallback_request m) = Some g'.

Definition moves_unless_over : Prop :=
  forall g, game_over E g = false -> moves E g None <> [].

End MoreLaws.
End MoreLaws.

Section MoreVocabulary.
Variable E : Chess.

(** The page shows the position: drawing and updating the status again
    would change nothing. *)
Definition in_sync (st : State E) : Prop :=
  manualGameOver st = false
  /\ updateStatus E st = st
  /\ tokens (renderPieces E st) = tokens st.

(** The modal is open exactly while a promotion is pending. *)
Definition modal_tracks_pending (st : State E) : Prop :=
  promotionModal st = match pendingPromotion st with
                      | Some _ => true
                      | None => false
                      end.

End MoreVocabulary.

(** A string that does not start with white space. *)
Definition starts_clean (s : string) : Prop :=
  match s with
  | EmptyString => True
  | String c _ => JS.isWhiteSpace c = false
  end.

(** A string that does not end with white space. *)
Definition ends_clean (s : string) : Prop :=
  forall (t : string) (c : N), s = t ++ String c "" -> JS.isWhiteSpace c = false.

Definition blank (s : string) : Prop :=
  JS.all_units (fun c => JS.isWhiteSpace c = true) s.

(** The trimmed form of a string: what is left of it without the white
    space at its two ends. *)
Definition trimmed_form (u t : string) : Prop :=
  exists l r, u = l ++ t ++ r /\ blank l /\ blank r
              /\ starts_clean t /\ ends_clean t.

(** The flags of a move contain the flag [f]. *)
Definition carries (flags f : string) : Prop :=
  exists a b, flags = a ++ f ++ b.

(** The decimal numeral of a natural number. *)
Fixpoint numeral_digits (fuel n : nat) : string :=
  match fuel with
  | O => ""
  | S fuel' =>
      (if (n <? 10)%nat then "" else numeral_digits fuel' (n / 10))
      ++ String (N.of_nat (48 + n mod 10)) ""
  end.

Definition numeral (n : nat) : string := numeral_digits (S n) n.

(** The doubles: the rationals [m * 2^e] with a significand below 2^53 and
    an exponent from -1074 to 971. *)
Definition is_double (x : Q) : Prop :=
  exists m e : Z,
    (Z.abs m < 2 ^ 53)%Z /\ (-1074 <= e <= 971)%Z
    /\ (x == inject_Z m * (2 # 1) ^ e)%Q.

(** [x] is a double, and no double is nearer to [q]. *)
Definition nearest_double (q x : Q) : Prop :=
  is_double x
  /\ forall y, is_double y -> (Qabs (q - x) <= Qabs (q - y))%Q.

Section CycleVocabulary.
Variable E : Chess.

(** What an evaluation cycle has no business with: the selection, the
    pending promotion and its modal, the reserved flag, the timers. *)
Definition controls (st : State E) :=
  (selectedSquare st, legalMovesFromSelected st, pendingPromotion st,
   promotionModal st, manualGameOver st, timers st).

(** The record of the moves made. *)
Definition moves_made (st : State E) :=
  (game st, submitted st, lastAIMoveUCI st).

End CycleVocabulary.

(** The promotion the parser takes from what follows the two cells: the
    lowercase form of its first code unit, when that is not empty. *)
Definition promotion_of {host : JS.Casing} (rest : string) : option string :=
  match rest with
  | EmptyString => None
  | String c _ =>
      let p := JS.toLowerCase (String c "") in
      if p =? "" then None else Some p
  end.

(** A string of characters that are not white space and have no lowercase
    form of their own. *)
Fixpoint plain {host : JS.Casing} (s : string) : Prop :=
  match s with
  | EmptyString => True
  | String c s' => JS.isWhiteSpace c = false /\ JS.settled c /\ plain s'
  end.

Section StatusVocabulary.
Variable E : Chess.

(** The status line of a position. *)
Definition status_line (g : game_t E) : string :=
  if game_over E g
  then match spec_terminal E g with
       | Some t => terminal_status t (turn E g)
       | None => "Game Over."
       end
  else turn_status E g.

(** The page with the status of its position written on it: what
    [updateStatus] amounts to while the reserved flag is off. *)
Definition shown (st : State E) : State E :=
  let g := game st in
  if game_over E g
  then set_rightPlayerInfo E false
         (set_leftPlayerInfo E false
            (set_blackProbabilityEl E "N/A"
               (set_whiteProbabilityEl E "N/A"
                  (set_statusEl E (status_line g)
                     (set_whoIsWinningEl E
                        (match spec_terminal E g with
                         | Some t => terminal_banner t (turn E g)
                         | None => "Game Over"
                         end) st)))))
  else set_rightPlayerInfo E (negb (Color_eqb (turn E g) White))
         (set_leftPlayerInfo E (Color_eqb (turn E g) White)
            (set_statusEl E (status_line g) st)).

End StatusVocabulary.

Section WriteOnlyVocabulary.
Variable E : Chess.

(** Everything of the state but the script's destination list and its
    record of the last opponent move. *)
Definition core (st : State E) :=
  (game st, selectedSquare st, pendingPromotion st, manualGameOver st,
   promotionModal st, statusEl st, whoIsWinningEl st, whiteProbabilityEl st,
   blackProbabilityEl st, leftPlayerInfo st, rightPlayerInfo st, classes st,
   tokens st, submitted st, timers st).

(** Two states that differ at most in those two variables. *)
Definition alike (a b : State E) : Prop := core a = core b.

End WriteOnlyVocabulary.

(** What the displays read for a percentage: the check of one row of the
    table from 0 to 100. *)
Definition percent_row (n : nat) : bool :=
  let w := JS.Fin (inject_Z (Z.of_nat n)) in
  (percent w =? numeral n ++ "%")
  && (percent (JS.sub (JS.Fin 100) w) =? numeral (100 - n) ++ "%")
  && Bool.eqb (JS.strict_eq w (JS.Fin 50)) (n =? 50)%nat
  && Bool.eqb (JS.gt w (JS.Fin 50)) (50 <? n)%nat.
(* ================================================================= *)
(** ** Strings *)

Module StringFacts.

Lemma eqb_refl (s : string) : (s =? s) = true.
Proof. induction s as [|c s IH]; cbn; [reflexivity|]. now rewrite N.eqb_refl. Qed.

Lemma eqb_eq (a b : string) : (a =? b) = true <-> a = b.
Proof.
  split; [|intros ->; apply eqb_refl].
  revert b. induction a as [|c a IH]; intros [|d b]; cbn; try discriminate.
  - reflexivity.
  - intros H. apply andb_prop in H. destruct H as [H1 H2].
    apply N.eqb_eq in H1. apply IH in H2. now subst.
Qed.

Lemma eqb_spec (a b : string) : reflect (a = b) (a =? b).
Proof.
  destruct (a =? b) eqn:H; constructor.
  - now apply eqb_eq.
  - intros E. apply eqb_eq in E. congruence.
Qed.

Lemma eqb_neq (a b : string) : (a =? b) = false <-> a <> b.
Proof. destruct (eqb_spec a b); split; congruence. Qed.

Lemma append_nil_r (s : string) : s ++ "" = s.
Proof. induction s as [|c s IH]; cbn; congruence. Qed.

Lemma append_assoc (a b c : string) : (a ++ b) ++ c = a ++ b ++ c.
Proof. induction a as [|x a IH]; cbn; congruence. Qed.

Lemma length_append (a b : string) :
  String.length (a ++ b) = (String.length a + String.length b)%nat.
Proof. induction a as [|x a IH]; cbn; congruence. Qed.

End StringFacts.

(* ================================================================= *)
(** ** Rounding to the nearest double *)

Module FloatFacts.
Import JS.
Local Open Scope Q_scope.

Lemma two_power (e : Z) : 0 < (2 # 1) ^ e.
Proof. apply Qpower_0_lt. reflexivity. Qed.

Lemma pow2_power (e : Z) : pow2 e == (2 # 1) ^ e.
Proof.
  unfold pow2. destruct (Z.leb_spec 0 e) as [H | H].
  - exact (Zpower_Qpower 2 e H).
  - assert ((2 # 1) ^ e == / (2 # 1) ^ (- e)) as ->.
    { rewrite <- Qpower_opp. now rewrite Z.opp_involutive. }
    assert (inject_Z (2 ^ (- e)) == (2 # 1) ^ (- e)) as <-
        by (apply (Zpower_Qpower 2); lia).
    assert (0 < 2 ^ (- e))%Z as P by (apply Z.pow_pos_nonneg; lia).
    destruct (2 ^ (- e))%Z as [|p|p] eqn:V; try lia.
    reflexivity.
Qed.

Lemma pow2_pos (e : Z) : 0 < pow2 e.
Proof. rewrite pow2_power. apply two_power. Qed.

Lemma pow2_add (a b : Z) : pow2 (a + b) == pow2 a * pow2 b.
Proof. rewrite !pow2_power. apply Qpower_plus. discriminate. Qed.

Lemma pow2_nonneg (e : Z) : (0 <= e)%Z -> pow2 e = inject_Z (2 ^ e).
Proof. intros H. unfold pow2. destruct (Z.leb_spec 0 e); [reflexivity | lia]. Qed.

Lemma pow2_ge_1 (e : Z) : (0 <= e)%Z -> 1 <= pow2 e.
Proof.
  intros H. rewrite pow2_nonneg by assumption.
  change 1 with (inject_Z 1). rewrite <- Zle_Qle.
  assert (0 < 2 ^ e)%Z by (apply Z.pow_pos_nonneg; lia). lia.
Qed.

Lemma pow2_le (a b : Z) : (a <= b)%Z -> pow2 a <= pow2 b.
Proof.
  intros H. replace b with (a + (b - a))%Z by lia. rewrite pow2_add.
  pose proof (pow2_pos a). pose proof (pow2_ge_1 (b - a) ltac:(lia)). nra.
Qed.

Lemma pow2_lt (a b : Z) : (a < b)%Z -> pow2 a < pow2 b.
Proof.
  intros H. replace b with (a + (b - a))%Z by lia. rewrite pow2_add.
  pose proof (pow2_pos a).
  assert (2 <= pow2 (b - a)).
  { replace (b - a)%Z with (1 + (b - a - 1))%Z by lia. rewrite pow2_add.
    pose proof (pow2_ge_1 (b - a - 1) ltac:(lia)).
    change (pow2 1) with (2 # 1). lra. }
  nra.
Qed.

(** *** The binary logarithm *)

Lemma ilog2_spec (x : Q) :
  0 < x -> pow2 (ilog2 x) <= x /\ x < pow2 (ilog2 x + 1).
Proof.
  intros Hx. destruct x as [a b]. unfold ilog2. cbn [Qnum Qden].
  assert (0 < a)%Z as Ha by (unfold Qlt in Hx; cbn in Hx; lia).
  set (la := Z.log2 a). set (lb := Z.log2 (Z.pos b)).
  destruct (Z.log2_spec a Ha) as [A1 A2]. fold la in A1, A2.
  destruct (Z.log2_spec (Z.pos b) ltac:(lia)) as [B1 B2]. fold lb in B1, B2.
  assert (0 <= la)%Z as Hla by apply Z.log2_nonneg.
  assert (0 <= lb)%Z as Hlb by apply Z.log2_nonneg.
  assert ((a # b) * inject_Z (Z.pos b) == inject_Z a) as Hab.
  { unfold Qeq, Qmult, inject_Z. cbn. lia. }
  assert (pow2 lb <= inject_Z (Z.pos b)) as L1
      by (rewrite pow2_nonneg by lia; now rewrite <- Zle_Qle).
  assert (inject_Z (Z.pos b) < pow2 (lb + 1)) as L2
      by (rewrite pow2_nonneg by lia; now rewrite <- Zlt_Qlt).
  assert (pow2 la <= inject_Z a) as L3
      by (rewrite pow2_nonneg by lia; now rewrite <- Zle_Qle).
  assert (inject_Z a < pow2 (la + 1)) as L4
      by (rewrite pow2_nonneg by lia; now rewrite <- Zlt_Qlt).
  pose proof (pow2_pos lb) as Plb. pose proof (pow2_pos (lb + 1)) as Plb1.
  assert (0 < inject_Z (Z.pos b)) as Pb by (change 0 with (inject_Z 0); now rewrite <- Zlt_Qlt).
  (* the two candidates *)
  assert ((a # b) < pow2 (la - lb + 1)) as Up.
  { assert (pow2 (la + 1) == pow2 (la - lb + 1) * pow2 lb) as E
        by (rewrite <- pow2_add; f_equiv; lia).
    pose proof (pow2_pos (la - lb + 1)). nra. }
  assert (pow2 (la - lb - 1) <= (a # b)) as Low.
  { assert (pow2 la == pow2 (la - lb - 1) * pow2 (lb + 1)) as E
        by (rewrite <- pow2_add; f_equiv; lia).
    pose proof (pow2_pos (la - lb - 1)). nra. }
  destruct (Qle_bool (pow2 (la - lb)) (a # b)) eqn:C.
  - apply Qle_bool_iff in C. split; assumption.
  - assert (~ pow2 (la - lb) <= (a # b)) as C'
        by (intros K; apply Qle_bool_iff in K; congruence).
    apply Qnot_le_lt in C'.
    replace (la - lb - 1 + 1)%Z with (la - lb)%Z by lia. split; assumption.
Qed.

(** *** The nearest integer *)

Lemma floor_bounds (x : Q) :
  inject_Z (Qfloor x) <= x /\ x < inject_Z (Qfloor x) + 1.
Proof.
  split; [apply Qfloor_le|]. pose proof (Qlt_floor x) as H.
  now rewrite inject_Z_plus in H.
Qed.

Lemma nearest_even_cases (x : Q) :
  let d := x - inject_Z (Qfloor x) in
  (nearest_even x = Qfloor x /\ d <= 1 # 2)
  \/ (nearest_even x = (Qfloor x + 1)%Z /\ 1 # 2 <= d).
Proof.
  cbv zeta. unfold nearest_even.
  destruct (x - inject_Z (Qfloor x) ?= 1 # 2) eqn:C.
  - apply Qeq_alt in C. destruct (Z.even (Qfloor x)); [left | right]; split;
      try reflexivity; rewrite C; apply Qle_refl.
  - apply Qlt_alt in C. left. split; [reflexivity | now apply Qlt_le_weak].
  - apply Qgt_alt in C. right. split; [reflexivity | now apply Qlt_le_weak].
Qed.

Lemma integers_apart (a b : Z) : (a < b)%Z -> inject_Z a + 1 <= inject_Z b.
Proof.
  intros H. change 1 with (inject_Z 1). rewrite <- inject_Z_plus, <- Zle_Qle. lia.
Qed.

(** No integer is nearer to [x] than [nearest_even x]. *)
Lemma nearest_even_nearest (x : Q) (z : Z) :
  Qabs (x - inject_Z (nearest_even x)) <= Qabs (x - inject_Z z).
Proof.
  destruct (floor_bounds x) as [F1 F2].
  destruct (nearest_even_cases x) as [[-> D] | [-> D]]; cbv zeta in D;
    rewrite ?inject_Z_plus; change (inject_Z 1) with 1;
    destruct (Z_lt_le_dec (Qfloor x) z) as [Hz | Hz].
  - apply integers_apart in Hz.
    rewrite (Qabs_pos (x - inject_Z (Qfloor x))) by lra.
    rewrite (Qabs_neg (x - inject_Z z)) by lra. lra.
  - rewrite Zle_Qle in Hz.
    rewrite (Qabs_pos (x - inject_Z (Qfloor x))) by lra.
    rewrite (Qabs_pos (x - inject_Z z)) by lra. lra.
  - apply integers_apart in Hz.
    rewrite (Qabs_neg (x - (inject_Z (Qfloor x) + 1))) by lra.
    rewrite (Qabs_neg (x - inject_Z z)) by lra. lra.
  - rewrite Zle_Qle in Hz.
    rewrite (Qabs_neg (x - (inject_Z (Qfloor x) + 1))) by lra.
    rewrite (Qabs_pos (x - inject_Z z)) by lra. lra.
Qed.

Lemma nearest_even_nonneg (x : Q) : 0 <= x -> (0 <= nearest_even x)%Z.
Proof.
  intros H. assert (0 <= Qfloor x)%Z
    by (rewrite <- (Qfloor_Z 0); now apply Qfloor_resp_le).
  destruct (nearest_even_cases x) as [[-> _] | [-> _]]; lia.
Qed.

Lemma nearest_even_le (x : Q) (z : Z) :
  x <= inject_Z z -> (nearest_even x <= z)%Z.
Proof.
  intros H. destruct (floor_bounds x) as [F1 F2].
  destruct (Z_lt_le_dec z (nearest_even x)) as [C | C]; [exfalso | assumption].
  pose proof (nearest_even_nearest x z) as N.
  apply integers_apart in C.
  destruct (nearest_even_cases x) as [[E D] | [E D]]; cbv zeta in D;
    rewrite E in C.
  - lra.
  - rewrite inject_Z_plus in C. change (inject_Z 1) with 1 in C.
    assert (inject_Z (Qfloor x) < inject_Z z) as K by lra.
    rewrite <- Zlt_Qlt in K. apply integers_apart in K. lra.
Qed.

Lemma nearest_even_ge (x : Q) (z : Z) :
  inject_Z z <= x -> (z <= nearest_even x)%Z.
Proof.
  intros H. destruct (floor_bounds x) as [F1 F2].
  assert (z <= Qfloor x)%Z
    by (rewrite <- (Qfloor_Z z); now apply Qfloor_resp_le).
  destruct (nearest_even_cases x) as [[-> _] | [-> _]]; lia.
Qed.

(** *** Doubles *)

Lemma double_intro (m e : Z) :
  (Z.abs m < 2 ^ 53)%Z -> (-1074 <= e <= 971)%Z ->
  is_double (inject_Z m * pow2 e).
Proof. intros. exists m, e. rewrite pow2_power. repeat split; try assumption; lia. Qed.

Lemma double_integer (z : Z) : (Z.abs z < 2 ^ 53)%Z -> is_double (inject_Z z).
Proof.
  intros H. exists z, 0%Z. repeat split; try lia. cbn. ring.
Qed.

Lemma double_opp (x : Q) : is_double x -> is_double (- x).
Proof.
  intros (m & e & Hm & He & Hx). exists (- m)%Z, e.
  repeat split; try lia. rewrite Hx, inject_Z_opp. ring.
Qed.

Lemma double_compat (x y : Q) : x == y -> is_double x -> is_double y.
Proof. intros E (m & e & Hm & He & Hx). exists m, e. now rewrite <- E. Qed.

Lemma inject_nonneg (z : Z) : (0 <= z)%Z -> 0 <= inject_Z z.
Proof. intros H. change 0 with (inject_Z 0). now rewrite <- Zle_Qle. Qed.

Lemma inject_nonpos (z : Z) : (z <= 0)%Z -> inject_Z z <= 0.
Proof. intros H. change 0 with (inject_Z 0). now rewrite <- Zle_Qle. Qed.

Lemma inject_Z_abs (m : Z) : Qabs (inject_Z m) == inject_Z (Z.abs m).
Proof.
  destruct (Z_le_gt_dec 0 m).
  - rewrite Z.abs_eq by assumption. apply Qabs_pos. now apply inject_nonneg.
  - rewrite Z.abs_neq by lia. rewrite inject_Z_opp. apply Qabs_neg.
    apply inject_nonpos. lia.
Qed.

Lemma double_below (x : Q) : is_double x -> Qabs x < pow2 1024.
Proof.
  intros (m & e & Hm & He & Hx). rewrite Hx, <- pow2_power, Qabs_Qmult.
  rewrite (Qabs_pos (pow2 e)) by (apply Qlt_le_weak, pow2_pos).
  rewrite inject_Z_abs.
  assert (inject_Z (Z.abs m) < pow2 53) as H1
      by (rewrite pow2_nonneg by lia; now rewrite <- Zlt_Qlt).
  assert (pow2 e <= pow2 971) as H2 by (apply pow2_le; lia).
  assert (pow2 1024 == pow2 53 * pow2 971) as -> by (rewrite <- pow2_add; reflexivity).
  pose proof (pow2_pos e). pose proof (pow2_pos 53).
  assert (0 <= inject_Z (Z.abs m)) by (apply inject_nonneg; lia).
  nra.
Qed.

(** *** The rounding of a positive rational *)

Section Positive.
Variable x : Q.
Hypothesis positive : 0 < x.

Local Abbreviation e := (Z.max (ilog2 x - 52) (-1074)) (only parsing).
Local Abbreviation m := (nearest_even (x / pow2 e)) (only parsing).
Local Abbreviation raw := (inject_Z m * pow2 e) (only parsing).

Lemma scaled : x == x / pow2 e * pow2 e.
Proof. field. pose proof (pow2_pos e). lra. Qed.

Lemma raw_distance (z : Z) :
  Qabs (x - raw) <= Qabs (x - inject_Z z * pow2 e).
Proof.
  pose proof (pow2_pos e) as P.
  assert (forall k : Z, x - inject_Z k * pow2 e
                        == (x / pow2 e - inject_Z k) * pow2 e) as Sc
      by (intros k; field; lra).
  rewrite !Sc, !Qabs_Qmult.
  rewrite (Qabs_pos (pow2 e)) by lra.
  pose proof (nearest_even_nearest (x / pow2 e) z) as N.
  nra.
Qed.

Lemma significand_bounds : (0 <= m <= 2 ^ 53)%Z.
Proof.
  destruct (ilog2_spec x positive) as [L1 L2].
  pose proof (pow2_pos e) as P. split.
  - apply nearest_even_nonneg. apply Qle_shift_div_l; lra.
  - apply nearest_even_le. apply Qle_shift_div_r; [assumption|].
    rewrite <- pow2_nonneg by lia. rewrite <- pow2_add.
    apply Qlt_le_weak. eapply Qlt_le_trans; [exact L2|].
    apply pow2_le. lia.
Qed.

Lemma normal_significand : (e = ilog2 x - 52)%Z -> (2 ^ 52 <= m)%Z.
Proof.
  intros He. destruct (ilog2_spec x positive) as [L1 _].
  pose proof (pow2_pos e) as P.
  apply nearest_even_ge. apply Qle_shift_div_l; [assumption|].
  rewrite <- pow2_nonneg by lia. rewrite <- pow2_add.
  eapply Qle_trans; [|exact L1]. apply pow2_le. lia.
Qed.

(** No double is nearer to [x] than the rounded value, before the test
    for an overflow. *)
Lemma raw_nearest (y : Q) : is_double y -> Qabs (x - raw) <= Qabs (x - y).
Proof.
  intros (k & j & Hk & Hj & Hy). rewrite <- pow2_power in Hy.
  pose proof (pow2_pos e) as P. pose proof (pow2_pos j) as Pj.
  destruct (Z_le_gt_dec e j) as [C | C].
  - assert (y == inject_Z (k * 2 ^ (j - e)) * pow2 e) as ->.
    { rewrite Hy, inject_Z_mult, <- pow2_nonneg by lia.
      replace j with (j - e + e)%Z at 1 by lia. rewrite pow2_add. ring. }
    apply raw_distance.
  - assert (e = ilog2 x - 52)%Z as He by lia.
    destruct (ilog2_spec x positive) as [L1 _].
    assert (pow2 (ilog2 x) == inject_Z (2 ^ 52) * pow2 e) as Hp.
    { rewrite <- pow2_nonneg by lia. rewrite <- pow2_add. f_equiv. lia. }
    assert (y < pow2 (ilog2 x)) as Hlt.
    { assert (Qabs y < pow2 (ilog2 x)) as A.
      { rewrite Hy, Qabs_Qmult, inject_Z_abs, (Qabs_pos (pow2 j)) by lra.
        assert (inject_Z (Z.abs k) < pow2 53) as H1
            by (rewrite pow2_nonneg by lia; now rewrite <- Zlt_Qlt).
        assert (0 <= inject_Z (Z.abs k)) by (apply inject_nonneg; lia).
        assert (pow2 53 * pow2 j <= pow2 (ilog2 x)) as H2.
        { rewrite <- pow2_add. apply pow2_le. lia. }
        pose proof (pow2_pos 53). nra. }
      pose proof (Qle_Qabs y). lra. }
    pose proof (raw_distance (2 ^ 52)) as N. rewrite <- Hp in N.
    rewrite (Qabs_pos (x - pow2 (ilog2 x))) in N by lra.
    rewrite (Qabs_pos (x - y)) by lra. lra.
Qed.

Lemma raw_double : raw < pow2 1024 -> is_double raw.
Proof.
  intros H. pose proof significand_bounds as [M0 M1].
  pose proof (pow2_pos e) as P.
  assert (-1074 <= e)%Z as E0 by lia.
  assert (e <= 971)%Z as E1.
  { destruct (Z_le_gt_dec e 971) as [|C]; [assumption | exfalso].
    assert (e = ilog2 x - 52)%Z as He by lia.
    pose proof (normal_significand He) as M2.
    assert (pow2 1024 <= raw); [|lra].
    assert (pow2 1024 <= pow2 52 * pow2 e) as K
        by (rewrite <- pow2_add; apply pow2_le; lia).
    assert (pow2 52 <= inject_Z m)
        by (rewrite pow2_nonneg by lia; now rewrite <- Zle_Qle).
    pose proof (pow2_pos 52). nra. }
  destruct (Z.eq_dec m (2 ^ 53)) as [Em | Nm].
  - assert (e <= 970)%Z.
    { destruct (Z_le_gt_dec e 970) as [|C]; [assumption | exfalso].
      assert (pow2 1024 <= raw); [|lra].
      rewrite Em, <- pow2_nonneg, <- pow2_add by lia.
      apply pow2_le. lia. }
    apply (double_compat (inject_Z (2 ^ 52) * pow2 (e + 1))).
    + rewrite Em, <- !pow2_nonneg, <- !pow2_add by lia.
      f_equiv. lia.
    + apply double_intro; lia.
  - apply double_intro; lia.
Qed.

Lemma round_positive_nearest (b : Q) :
  is_double b -> x <= b ->
  exists r, round_positive x = Fin r /\ nearest_double x r /\ r <= b.
Proof.
  intros Db Hb.
  assert (raw <= b) as Rb.
  { destruct (Qlt_le_dec b raw) as [C | C]; [exfalso | assumption].
    pose proof (raw_nearest b Db) as N.
    rewrite (Qabs_neg (x - raw)), (Qabs_neg (x - b)) in N by lra. lra. }
  assert (raw < pow2 1024) as Fi.
  { pose proof (double_below b Db). pose proof (Qle_Qabs b). lra. }
  exists (Qred raw). split; [|split].
  - unfold round_positive.
    destruct (Qle_bool (pow2 1024) raw) eqn:C; [|reflexivity].
    apply Qle_bool_iff in C. lra.
  - split.
    + apply (double_compat raw); [symmetry; apply Qred_correct | now apply raw_double].
    + intros y Dy. rewrite Qred_correct. now apply raw_nearest.
  - now rewrite Qred_correct.
Qed.

End Positive.

(** *** The rounding of any rational *)

Lemma nearest_opp (x r : Q) : nearest_double x r -> nearest_double (- x) (- r).
Proof.
  intros [D N]. split; [now apply double_opp|].
  intros y Dy. specialize (N (- y) (double_opp y Dy)).
  assert (- x - - r == - (x - r)) as -> by ring.
  assert (- x - y == - (x - - y)) as -> by ring.
  now rewrite !Qabs_opp.
Qed.

Lemma nearest_compat (x x' r r' : Q) :
  x == x' -> r == r' -> nearest_double x r -> nearest_double x' r'.
Proof.
  intros Ex Er [D N]. split; [now apply (double_compat r)|].
  intros y Dy. rewrite <- Ex, <- Er. now apply N.
Qed.

(** The product, the difference and the literal the script computes is a
    double nearest to the exact value, as long as that value does not pass
    the largest double. *)
Theorem round_nearest (x b : Q) :
  is_double b -> Qabs x <= b ->
  exists r, round x = Fin r /\ nearest_double x r /\ Qabs r <= b.
Proof.
  intros Db Hb. unfold round. destruct (x ?= 0) eqn:C.
  - apply Qeq_alt in C. exists 0. split; [reflexivity|]. split.
    + split; [apply (double_integer 0); reflexivity|].
      intros y _. rewrite C. assert (0 - 0 == 0) as -> by ring.
      apply Qabs_nonneg.
    + rewrite C in Hb. exact Hb.
  - apply Qlt_alt in C.
    assert (x < 0) as Neg by exact C.
    destruct (round_positive_nearest (- x) ltac:(lra) b Db) as (r & R & Nr & Br).
    { rewrite (Qabs_neg x) in Hb by lra. exact Hb. }
    rewrite R. cbn [negate]. exists (Qred (- r)). split; [reflexivity|]. split.
    + apply (nearest_compat (- - x) x (- r)); [ring | symmetry; apply Qred_correct|].
      now apply nearest_opp.
    + rewrite Qred_correct, Qabs_opp.
      destruct Nr as [_ Nr]. specialize (Nr 0 (double_integer 0 eq_refl)).
      assert (0 <= r).
      { destruct (Qlt_le_dec r 0) as [Cr | Cr]; [exfalso | assumption].
        rewrite (Qabs_pos (- x - r)), (Qabs_pos (- x - 0)) in Nr by lra. lra. }
      rewrite Qabs_pos by assumption. exact Br.
  - apply Qgt_alt in C.
    destruct (round_positive_nearest x C b Db) as (r & R & Nr & Br).
    { rewrite (Qabs_pos x) in Hb by lra. exact Hb. }
    exists r. split; [exact R|]. split; [exact Nr|].
    destruct Nr as [_ Nr]. specialize (Nr 0 (double_integer 0 eq_refl)).
    assert (0 <= r).
    { destruct (Qlt_le_dec r 0) as [Cr | Cr]; [exfalso | assumption].
      rewrite (Qabs_pos (x - r)), (Qabs_pos (x - 0)) in Nr by lra. lra. }
    rewrite Qabs_pos by assumption. exact Br.
Qed.

(** A rounded value stays on its side of every double. *)
Lemma nearest_le (x r b : Q) :
  nearest_double x r -> is_double b -> x <= b -> r <= b.
Proof.
  intros [_ N] Db H. destruct (Qlt_le_dec b r) as [C | C]; [exfalso | assumption].
  specialize (N b Db).
  rewrite (Qabs_neg (x - r)), (Qabs_neg (x - b)) in N by lra. lra.
Qed.

Lemma nearest_ge (x r a : Q) :
  nearest_double x r -> is_double a -> a <= x -> a <= r.
Proof.
  intros [_ N] Da H. destruct (Qlt_le_dec r a) as [C | C]; [exfalso | assumption].
  specialize (N a Da).
  rewrite (Qabs_pos (x - r)), (Qabs_pos (x - a)) in N by lra. lra.
Qed.

Lemma double_abs (x : Q) : is_double x -> is_double (Qabs x).
Proof.
  intros D. destruct (Qlt_le_dec x 0).
  - apply (double_compat (- x)); [symmetry; apply Qabs_neg; lra | now apply double_opp].
  - apply (double_compat x); [symmetry; now apply Qabs_pos | assumption].
Qed.

Theorem round_between (x a b : Q) :
  is_double a -> is_double b -> a <= x -> x <= b ->
  exists r, round x = Fin r /\ nearest_double x r /\ a <= r /\ r <= b.
Proof.
  intros Da Db Ha Hb.
  assert (exists c, is_double c /\ Qabs x <= c) as (c & Dc & Hc).
  { destruct (Qlt_le_dec x 0).
    - exists (- a). split; [now apply double_opp|]. rewrite Qabs_neg by lra. lra.
    - exists b. split; [assumption|]. now rewrite Qabs_pos. }
  destruct (round_nearest x c Dc Hc) as (r & R & N & _).
  exists r. split; [exact R|]. split; [exact N|]. split.
  - now apply (nearest_ge x).
  - now apply (nearest_le x).
Qed.

(** A double is its own rounding. *)
Theorem round_double (x : Q) :
  is_double x -> exists r, round x = Fin r /\ r == x.
Proof.
  intros D.
  destruct (round_nearest x (Qabs x) (double_abs x D) (Qle_refl _)) as (r & R & [_ N] & _).
  exists r. split; [exact R|]. specialize (N x D).
  assert (Qabs (x - x) == 0) as E
      by (assert (x - x == 0) as -> by ring; reflexivity).
  rewrite E in N.
  destruct (Qlt_le_dec x r).
  - rewrite (Qabs_neg (x - r)) in N by lra. lra.
  - rewrite (Qabs_pos (x - r)) in N by lra. lra.
Qed.

(** The largest double below 1 is 1 - 2^-53. *)
Lemma double_below_one (x : Q) :
  is_double x -> x < 1 -> x <= 1 - pow2 (-53).
Proof.
  intros (m & e & Hm & He & Hx) H. rewrite <- pow2_power in Hx.
  pose proof (pow2_pos e) as P.
  assert (1 == pow2 53 * pow2 (-53)) as One by (rewrite <- pow2_add; reflexivity).
  pose proof (pow2_pos (-53)) as P53.
  destruct (Z_le_gt_dec (-53) e) as [C | C].
  - assert (x == inject_Z (m * 2 ^ (e + 53)) * pow2 (-53)) as Ex.
    { rewrite Hx, inject_Z_mult, <- pow2_nonneg by lia.
      replace e with (e + 53 + -53)%Z at 1 by lia. rewrite pow2_add. ring. }
    assert (inject_Z (m * 2 ^ (e + 53)) < pow2 53) as K by nra.
    rewrite pow2_nonneg in K by lia. rewrite <- Zlt_Qlt in K.
    assert (inject_Z (m * 2 ^ (e + 53)) <= pow2 53 - 1) as K'.
    { rewrite pow2_nonneg by lia. change 1 with (inject_Z 1).
      unfold Qminus. rewrite <- inject_Z_opp, <- inject_Z_plus, <- Zle_Qle. lia. }
    nra.
  - assert (inject_Z m <= pow2 53).
    { rewrite pow2_nonneg by lia. rewrite <- Zle_Qle. lia. }
    assert (pow2 e <= pow2 (-54)) by (apply pow2_le; lia).
    assert (pow2 53 * pow2 (-54) == 1 # 2) as Half
        by (rewrite <- pow2_add; reflexivity).
    assert (pow2 (-53) <= 1 # 2) by (change (pow2 (-53)) with (1 # 9007199254740992); reflexivity || discriminate).
    destruct (Qlt_le_dec (inject_Z m) 0).
    + nra.
    + pose proof (pow2_pos 53). nra.
Qed.

End FloatFacts.
(* ================================================================= *)
(** ** The reference engine obeys the laws *)

Module RefLaws.
Import Ref.

(** The generator agrees with the published leaf counts on the starting
    position and on three positions that exercise castling, en passant,
    pins and promotions. *)
Example perft_start : perft 1 initial = 20%nat /\ perft 2 initial = 400%nat.
Proof. vm_compute. split; reflexivity. Qed.

Example perft_castling :
  perft 2 (setup "r3k2r/p1ppqpb1/bn2pnp1/3PN3/1p2P3/2N2Q1p/PPPBBPPP/R3K2R"
                 White (mkRights true true true true) None) = 2039%nat.
Proof. vm_compute. reflexivity. Qed.

Example perft_endgame :
  perft 3 (setup "8/2p5/3p4/KP5r/1R3p1k/8/4P1P1/8"
                 White (mkRights false false false false) None) = 2812%nat.
Proof. vm_compute. reflexivity. Qed.

Example perft_promotions :
  perft 2 (setup "rnbq1k1r/pp1Pbppp/2p5/8/2B5/8/PPP1NnPP/RNBQK2R"
                 White (mkRights true true false false) None) = 1486%nat.
Proof. vm_compute. reflexivity. Qed.

Lemma name_off_board (s : Sq) : on_board s = false -> name s = "".
Proof. intros H. unfold name. now rewrite H. Qed.

Lemma on_board_listed (s : Sq) : on_board s = true -> In s all_squares.
Proof.
  destruct s as [f r]. unfold on_board. cbn [fst snd]. intros H.
  repeat (apply andb_prop in H; destruct H as [H ?]).
  assert (Hf : (f = 0 \/ f = 1 \/ f = 2 \/ f = 3 \/ f = 4 \/ f = 5 \/ f = 6 \/ f = 7)%Z) by lia.
  assert (Hr : (r = 0 \/ r = 1 \/ r = 2 \/ r = 3 \/ r = 4 \/ r = 5 \/ r = 6 \/ r = 7)%Z) by lia.
  clear - Hf Hr.
  repeat (destruct Hf as [-> | Hf]); try subst f;
    repeat (destruct Hr as [-> | Hr]); try subst r;
    vm_compute; tauto.
Qed.

Lemma parse_name (s : Sq) : on_board s = true -> parse (name s) = Some s.
Proof.
  intros H. apply on_board_listed in H. revert s H. apply Forall_forall.
  vm_compute. repeat constructor.
Qed.

Lemma get_name (p : Pos) (s : Sq) : get p (name s) = piece_at (cells p) s.
Proof.
  unfold get. destruct (on_board s) eqn:H.
  - now rewrite parse_name.
  - rewrite name_off_board by assumption. unfold piece_at. now rewrite H.
Qed.

Lemma generated (p : Pos) (m : Raw) (promo : option PieceType) :
  In (m, promo) (generate_moves p) ->
  is_legal p m = true /\ In (m, promo) (with_promotions (side p) m).
Proof.
  unfold generate_moves. rewrite in_flat_map. intros [m' [Hm Hin]].
  apply filter_In in Hm. destruct Hm as [_ Hl].
  assert (m' = m).
  { unfold with_promotions in Hin. destruct (promotes (side p) m').
    - apply in_map_iff in Hin. destruct Hin as [t [E _]]. congruence.
    - destruct Hin as [E | []]. congruence. }
  subst m'. auto.
Qed.

Lemma queen_sibling (p : Pos) (m : Raw) (t : PieceType) :
  In (m, Some t) (generate_moves p) -> In (m, Some Queen) (generate_moves p).
Proof.
  unfold generate_moves. rewrite !in_flat_map. intros [m' [Hm Hin]].
  exists m'. split; [assumption|].
  unfold with_promotions in *. destruct (promotes (side p) m').
  - apply in_map_iff in Hin. destruct Hin as [t' [E _]].
    inversion E; subst. left. reflexivity.
  - destruct Hin as [E | []]. discriminate.
Qed.

Lemma find_finds {A : Type} (f : A -> bool) (l : list A) (x : A) :
  In x l -> f x = true -> exists y, find f l = Some y.
Proof.
  intros Hin Hf. destruct (find f l) eqn:E; [eauto|].
  rewrite (find_none _ _ E _ Hin) in Hf. discriminate.
Qed.

Lemma ref_move_flips_turn : Laws.move_flips_turn engine.
Proof.
  intros g r g'. cbn. unfold move.
  destruct (find (requested r) (generate_moves g)) as [[m promo]|]; [|discriminate].
  intros E. inversion E. reflexivity.
Qed.

Lemma ref_move_is_legal : Laws.move_is_legal engine.
Proof.
  intros g r g'. cbn. unfold move.
  destruct (find (requested r) (generate_moves g)) as [x|] eqn:F; [|discriminate].
  intros _. apply find_some in F. destruct F as [Hin Hreq].
  unfold requested in Hreq.
  apply andb_prop in Hreq. destruct Hreq as [Hreq _].
  apply andb_prop in Hreq. destruct Hreq as [Hf Ht].
  apply StringFacts.eqb_eq in Hf, Ht.
  apply in_map_iff. exists (pretty x). split; [now symmetry|].
  unfold moves. apply filter_In. split.
  - now apply in_map.
  - rewrite Hf. apply StringFacts.eqb_refl.
Qed.

Lemma ref_legal_with_queen_accepted : Laws.legal_with_queen_accepted engine.
Proof.
  intros g sq m. cbn. unfold moves. rewrite filter_In, in_map_iff.
  intros [[[raw promo] [Hp Hin]] Hfrom]. apply StringFacts.eqb_eq in Hfrom.
  assert (exists x, In x (generate_moves g)
                    /\ requested (Req.mk sq (Move.to m) (Some "q")) x = true)
    as [x [Hx Hr]].
  { destruct promo as [t|].
    - exists (raw, Some Queen). split; [eapply queen_sibling; eassumption|].
      subst m. unfold requested. cbn in *. subst sq.
      now rewrite !StringFacts.eqb_refl.
    - exists (raw, None). split; [assumption|].
      subst m. unfold requested. cbn in *. subst sq.
      now rewrite !StringFacts.eqb_refl. }
  destruct (find_finds _ _ _ Hx Hr) as [[m' promo'] F].
  unfold move. rewrite F. eauto.
Qed.

Lemma ref_no_self_capture : Laws.no_self_capture engine.
Proof.
  intros g sq m pc. cbn. unfold moves. rewrite filter_In, in_map_iff.
  intros [[[raw promo] [Hp Hin]] _] Hget.
  apply generated in Hin. destruct Hin as [Hl _].
  unfold is_legal in Hl. apply andb_prop in Hl. destruct Hl as [_ Hh].
  assert (Move.to m = name (rto raw)) as Hto
    by (subst m; destruct promo; reflexivity).
  rewrite Hto, get_name in Hget. unfold holds in Hh. rewrite Hget in Hh.
  destruct (color pc), (side g); cbn in *; congruence.
Qed.

Lemma ref_promotion_flagged : Laws.promotion_flagged engine.
Proof.
  intros g m. cbn. unfold moves. rewrite in_map_iff.
  intros [[raw promo] [Hp _]]. subst m.
  destruct promo as [t|]; destruct (rkind raw) eqn:K; cbn; rewrite K; cbn;
    split; congruence.
Qed.

End RefLaws.
(* ================================================================= *)
(** ** Properties of the handlers, for every rules engine *)

Section Facts.
Variable E : Chess.
Context {host : JS.Casing}.
Implicit Types st : State E.

(** *** What each helper touches *)

Lemma fold_classes (f : Move.t -> list (string * string) -> list (string * string))
  (ms : list Move.t) st :
  fold_left (fun st m => set_classes E (f m (classes st)) st) ms st
  = set_classes E (fold_left (fun cl m => f m cl) ms (classes st)) st.
Proof.
  revert st. induction ms as [|m ms IH]; intros st; cbn.
  - now destruct st.
  - now rewrite IH.
Qed.

(** [highlightMoves] writes the destination list and the cell classes,
    and nothing else. *)
Lemma highlightMoves_writes (from : string) st :
  exists cl, highlightMoves E from st
             = set_classes E cl
                 (set_legalMovesFromSelected E
                    (map Move.to (moves E (game st) (Some from))) st).
Proof.
  unfold highlightMoves, clearHighlights. cbn.
  rewrite (fold_classes
             (fun m => classList_add (Move.to m)
                (if JS.includes (Move.flags m) "k" || JS.includes (Move.flags m) "q"
                 then "castle"
                 else if JS.includes (Move.flags m) "c" || JS.includes (Move.flags m) "e"
                      then "capture" else "move"))).
  eexists. reflexivity.
Qed.

Lemma select_writes (sq : string) st :
  exists cl, select E sq st
             = set_classes E cl
                 (set_legalMovesFromSelected E
                    (map Move.to (moves E (game st) (Some sq)))
                    (set_selectedSquare E (Some sq) st)).
Proof.
  destruct (highlightMoves_writes sq (set_selectedSquare E (Some sq) st)) as [cl H].
  exists cl. exact H.
Qed.

Lemma select_game sq st : game (select E sq st) = game st.
Proof. destruct (select_writes sq st) as [cl ->]. reflexivity. Qed.

Lemma select_submitted sq st : submitted (select E sq st) = submitted st.
Proof. destruct (select_writes sq st) as [cl ->]. reflexivity. Qed.

Lemma select_pending sq st : pendingPromotion (select E sq st) = pendingPromotion st.
Proof. destruct (select_writes sq st) as [cl ->]. reflexivity. Qed.

Lemma select_selected sq st : selectedSquare (select E sq st) = Some sq.
Proof. destruct (select_writes sq st) as [cl ->]. reflexivity. Qed.

Lemma updateStatus_game st : game (updateStatus E st) = game st.
Proof.
  unfold updateStatus.
  destruct (manualGameOver st), (game_over E (game st)), (in_checkmate E (game st)),
    (in_stalemate E (game st)), (in_threefold_repetition E (game st)),
    (insufficient_material E (game st)), (in_draw E (game st)),
    (Color_eqb (turn E (game st)) White); reflexivity.
Qed.

Lemma updateStatus_core st :
  let st' := updateStatus E st in
  submitted st' = submitted st /\ selectedSquare st' = selectedSquare st
  /\ pendingPromotion st' = pendingPromotion st
  /\ promotionModal st' = promotionModal st
  /\ manualGameOver st' = manualGameOver st /\ timers st' = timers st.
Proof.
  unfold updateStatus.
  destruct (manualGameOver st) eqn:M, (game_over E (game st)), (in_checkmate E (game st)),
    (in_stalemate E (game st)), (in_threefold_repetition E (game st)),
    (insufficient_material E (game st)), (in_draw E (game st)),
    (Color_eqb (turn E (game st)) White); cbn; rewrite ?M; repeat split; reflexivity.
Qed.

Lemma syncAfterHumanMove_core st :
  let st' := syncAfterHumanMove E st in
  game st' = game st /\ submitted st' = submitted st
  /\ selectedSquare st' = selectedSquare st
  /\ pendingPromotion st' = pendingPromotion st
  /\ promotionModal st' = promotionModal st.
Proof.
  unfold syncAfterHumanMove.
  pose proof (updateStatus_game (renderPieces E st)) as G.
  pose proof (updateStatus_core (renderPieces E st)) as (S & L & P & M & _).
  cbv zeta in *.
  destruct (negb _ && negb _); cbn; rewrite ?G, ?S, ?L, ?P, ?M; repeat split; reflexivity.
Qed.

(** [game.move] logs its argument, and changes the position exactly when
    the engine accepts. *)
Lemma game_move_spec (r : Req.t) st :
  let '(accepted, st') := game_move E r st in
  submitted st' = (submitted st ++ [r])%list
  /\ selectedSquare st' = selectedSquare st
  /\ pendingPromotion st' = pendingPromotion st
  /\ promotionModal st' = promotionModal st
  /\ match move E (game st) r with
     | Some g' => accepted = true /\ game st' = g'
     | None => accepted = false /\ game st' = game st
     end.
Proof.
  unfold game_move. cbn. destruct (move E (game st) r); cbn; repeat split; reflexivity.
Qed.

Lemma game_move_eq (r : Req.t) st :
  game_move E r st
  = match move E (game st) r with
    | Some g' => (true, set_game E g' (set_submitted E (submitted st ++ [r]) st))
    | None => (false, set_submitted E (submitted st ++ [r]) st)
    end.
Proof. reflexivity. Qed.

(** *** The gate reads one piece and one character *)

Lemma shouldPromptPromotion_white (g : game_t E) (from to : string) :
  shouldPromptPromotion E g from to White = true
  <-> (exists p, get E g from = Some p /\ type p = Pawn /\ color p = White)
      /\ JS.at_ 1 to = Some "8".
Proof.
  unfold shouldPromptPromotion. destruct (get E g from) as [[t c]|].
  - destruct t, c; cbn; unfold JS.equals;
      (split; [intros H | intros [[p [Hp [Ht Hc]]] Hr]]);
      try discriminate;
      try (inversion Hp; subst; cbn in *; discriminate).
    + split; [eexists; eauto|].
      destruct (JS.at_ 1 to) as [x|]; [|discriminate].
      rewrite orb_false_r in H. apply StringFacts.eqb_eq in H. now subst.
    + rewrite Hr. reflexivity.
  - split; [discriminate|]. intros [[p [Hp _]] _]. discriminate.
Qed.

(** *** The three branches of a live click on an active selection *)

Lemma truthy_some (s : string) : s <> "" -> JS.truthy (Some s) = true.
Proof.
  intros H. cbn. destruct (StringFacts.eqb_spec s ""); [contradiction|reflexivity].
Qed.

Lemma click_reselect st (sel sq : string) :
  live E st -> selectedSquare st = Some sel -> sel <> "" ->
  reselects E st sel sq = true ->
  onSquareClick E sq st = select E sq st.
Proof.
  intros (M & O & T) S N R. unfold onSquareClick, reselects in *.
  rewrite M, O, T, S, (truthy_some _ N). cbn. now rewrite R.
Qed.

Lemma click_gate st (sel sq : string) :
  live E st -> selectedSquare st = Some sel -> sel <> "" ->
  reselects E st sel sq = false ->
  shouldPromptPromotion E (game st) sel sq White = true ->
  onSquareClick E sq st
  = openPromotionModal E
      (set_pendingPromotion E (Some (Pending.mk sel sq White)) st).
Proof.
  intros (M & O & T) S N R G. unfold onSquareClick, reselects in *.
  rewrite M, O, T, S, (truthy_some _ N). cbn. now rewrite R, G.
Qed.

Lemma click_attempt st (sel sq : string) :
  live E st -> selectedSquare st = Some sel -> sel <> "" ->
  reselects E st sel sq = false ->
  shouldPromptPromotion E (game st) sel sq White = false ->
  onSquareClick E sq st
  = let '(accepted, st1) := game_move E (Req.mk sel sq (Some "q")) st in
    if negb accepted then
      if is_white (get E (game st) sq) then select E sq st1
      else clearHighlights E (set_selectedSquare E None st1)
    else syncAfterHumanMove E (clearHighlights E (set_selectedSquare E None st1)).
Proof.
  intros (M & O & T) S N R G. unfold onSquareClick, reselects in *.
  rewrite M, O, T, S, (truthy_some _ N). cbn. rewrite R, G. reflexivity.
Qed.

(** *** Clicks off turn and after the end of the game *)

Lemma click_guarded st (sq : string) :
  turn E (game st) <> White \/ game_over E (game st) = true ->
  onSquareClick E sq st = st.
Proof.
  intros H. unfold onSquareClick.
  destruct (manualGameOver st); [reflexivity|].
  destruct (game_over E (game st)); [reflexivity|].
  destruct H as [H | H]; [|discriminate].
  destruct (turn E (game st)); [contradiction|reflexivity].
Qed.

(** X20: a cell click that arrives when it is not the human (white) side's
    turn, or when the game is over, leaves the whole state as it was: the
    position is unchanged and nothing is handed to [game.move]; and no
    sequence of cell clicks changes that.  The guard is the cell handler's:
    the handler of the promotion buttons has none. *)
Theorem cell_clicks_blocked_off_turn_or_game_over st :
  turn E (game st) <> White \/ game_over E (game st) = true ->
  (forall sq, let st' := onSquareClick E sq st in
              game st' = game st /\ submitted st' = submitted st)
  /\ (forall sqs, let st' := run E st (map CellClick sqs) in
                  game st' = game st /\ submitted st' = submitted st).
Proof.
  intros H. split.
  - intros sq. cbv zeta. now rewrite click_guarded.
  - intros sqs. cbv zeta.
    assert (run E st (map CellClick sqs) = st) as ->; [|now split].
    induction sqs as [|sq sqs IH]; [reflexivity|].
    cbn. now rewrite click_guarded.
Qed.

(** *** What a cell click can hand to the engine *)

Lemma click_submits st (sq : string) :
  let st' := onSquareClick E sq st in
  (game st' = game st /\ submitted st' = submitted st)
  \/ (exists sel,
        live E st /\ selectedSquare st = Some sel
        /\ shouldPromptPromotion E (game st) sel sq White = false
        /\ submitted st' = (submitted st ++ [Req.mk sel sq (Some "q")])%list
        /\ match move E (game st) (Req.mk sel sq (Some "q")) with
           | Some g' => game st' = g'
           | None => game st' = game st
           end).
Proof.
  cbv zeta. unfold onSquareClick.
  destruct (manualGameOver st) eqn:M; [now left|].
  destruct (game_over E (game st)) eqn:O; [now left|].
  destruct (turn E (game st)) eqn:T; cbn [Color_eqb negb]; [|now left].
  destruct (JS.truthy (selectedSquare st)) eqn:Tr; cbn [negb].
  2:{ left. destruct (is_white _); [|now split].
      now rewrite select_game, select_submitted. }
  destruct (is_white (get E (game st) sq) && negb (JS.equals (selectedSquare st) sq)).
  { left. now rewrite select_game, select_submitted. }
  destruct (selectedSquare st) as [sel|] eqn:S; [|now left].
  destruct (shouldPromptPromotion E (game st) sel sq White) eqn:G; [now left|].
  right. exists sel. repeat split; try assumption.
  - pose proof (game_move_spec (Req.mk sel sq (Some "q")) st) as GM.
    destruct (game_move E (Req.mk sel sq (Some "q")) st) as [acc st1].
    destruct GM as (L & _). destruct acc; cbn [negb].
    + destruct (syncAfterHumanMove_core
                  (clearHighlights E (set_selectedSquare E None st1))) as (_ & L' & _).
      rewrite L'. exact L.
    + destruct (is_white _); [rewrite select_submitted|]; exact L.
  - pose proof (game_move_spec (Req.mk sel sq (Some "q")) st) as GM.
    destruct (game_move E (Req.mk sel sq (Some "q")) st) as [acc st1].
    destruct GM as (_ & _ & _ & _ & GM).
    destruct (move E (game st) (Req.mk sel sq (Some "q"))) as [g'|];
      destruct GM as [-> GM]; cbn [negb].
    + destruct (syncAfterHumanMove_core
                  (clearHighlights E (set_selectedSquare E None st1))) as (G' & _).
      rewrite G'. exact GM.
    + destruct (is_white _); [rewrite select_game|]; exact GM.
Qed.

(** *** The promotion buttons *)

Lemma promotion_choice st (pending : Pending.t) (piece : option string) :
  pendingPromotion st = Some pending ->
  let r := Req.mk (Pending.from pending) (Pending.to pending) piece in
  let st' := onPromotionClick E (Some piece) st in
  submitted st' = (submitted st ++ [r])%list
  /\ pendingPromotion st' = None /\ promotionModal st' = false
  /\ match move E (game st) r with
     | Some g' => game st' = g'
     | None => game st' = game st
     end.
Proof.
  intros P. cbv zeta. unfold onPromotionClick. rewrite P.
  set (r := Req.mk _ _ _).
  pose proof (game_move_spec r st) as GM.
  destruct (game_move E r st) as [acc st1].
  destruct GM as (L & _ & _ & _ & GM).
  set (st2 := closePromotionModal E (set_pendingPromotion E None st1)).
  assert (submitted st2 = submitted st1 /\ pendingPromotion st2 = None
          /\ promotionModal st2 = false /\ game st2 = game st1)
    as (L2 & P2 & M2 & G2) by (repeat split; reflexivity).
  destruct (move E (game st) r) as [g'|]; destruct GM as [-> GM].
  - destruct (syncAfterHumanMove_core st2) as (G' & L' & _ & P' & M').
    rewrite G', L', P', M'. repeat split; congruence.
  - destruct (updateStatus_core (renderPieces E st2)) as (L' & _ & P' & M' & _).
    rewrite updateStatus_game, L', P', M'. repeat split; try congruence.
    + transitivity (submitted st2); [reflexivity | congruence].
    + transitivity (game st2); [reflexivity | congruence].
Qed.

(** C4, amended: a cell click never hands a white pawn's move to rank 8 to
    the rules engine: whatever it submits did not pass the promotion test,
    and a move attempt that passes the test records the pending promotion
    and opens the modal, and that click leaves the position untouched and
    submits nothing.  The choice of a piece then submits the recorded move
    with that piece, discards the pending record and closes the modal; an
    accepted move becomes the position, a rejected one leaves it as it
    was. *)
Theorem promotion_routed_through_modal st :
  (forall sq,
      let st' := onSquareClick E sq st in
      (game st' = game st /\ submitted st' = submitted st)
      \/ (exists sel,
            selectedSquare st = Some sel
            /\ shouldPromptPromotion E (game st) sel sq White = false
            /\ submitted st' = (submitted st ++ [Req.mk sel sq (Some "q")])%list))
  /\ (forall sel sq,
        live E st -> selectedSquare st = Some sel -> sel <> "" ->
        reselects E st sel sq = false ->
        shouldPromptPromotion E (game st) sel sq White = true ->
        let st' := onSquareClick E sq st in
        pendingPromotion st' = Some (Pending.mk sel sq White)
        /\ promotionModal st' = true
        /\ game st' = game st /\ submitted st' = submitted st)
  /\ (forall pending piece,
        pendingPromotion st = Some pending ->
        let r := Req.mk (Pending.from pending) (Pending.to pending) piece in
        let st' := onPromotionClick E (Some piece) st in
        submitted st' = (submitted st ++ [r])%list
        /\ pendingPromotion st' = None /\ promotionModal st' = false
        /\ match move E (game st) r with
           | Some g' => game st' = g'
           | None => game st' = game st
           end).
Proof.
  split; [|split].
  - intros sq. cbv zeta. destruct (click_submits st sq) as [H | [sel H]].
    + now left.
    + right. exists sel. tauto.
  - intros sel sq L S N R G. cbv zeta.
    rewrite (click_gate st sel sq L S N R G). repeat split; reflexivity.
  - intros pending piece P. now apply promotion_choice.
Qed.

(** *** Clicks on and off the legal-destination set *)

Lemma destination_not_reselect st (sel sq : string) :
  Laws.no_self_capture E -> turn E (game st) = White ->
  In sq (destinations E (game st) sel) -> reselects E st sel sq = false.
Proof.
  intros NS T H. unfold destinations in H. apply in_map_iff in H.
  destruct H as [m [<- Hm]]. unfold reselects, is_white.
  destruct (get E (game st) (Move.to m)) as [p|] eqn:G; [|reflexivity].
  rewrite (NS _ _ _ _ Hm G), T. reflexivity.
Qed.

(** C3, amended: with a human-side piece selected on the human's turn, a
    click on a cell of its legal-destination set applies the move and hands
    the turn over, unless the promotion test holds (a pawn and a cell of
    rank 8): then that click records the move as pending and leaves the
    position as it is.  A click on a cell outside the set never changes
    the position. *)
Theorem legal_click_moves_unless_promotion st (sel sq : string) :
  Laws.move_flips_turn E -> Laws.move_is_legal E ->
  Laws.legal_with_queen_accepted E -> Laws.no_self_capture E ->
  live E st -> selected E st sel ->
  let st' := onSquareClick E sq st in
  (In sq (destinations E (game st) sel) ->
   if shouldPromptPromotion E (game st) sel sq White
   then game st' = game st
        /\ pendingPromotion st' = Some (Pending.mk sel sq White)
   else exists g',
          move E (game st) (Req.mk sel sq (Some "q")) = Some g'
          /\ game st' = g' /\ turn E g' = opposite (turn E (game st)))
  /\ (~ In sq (destinations E (game st) sel) -> game st' = game st).
Proof.
  intros FT ML QA NS L (S & N & W). cbv zeta. split.
  - intros D.
    assert (reselects E st sel sq = false) as R
      by (apply destination_not_reselect; [assumption | apply L | assumption]).
    destruct (shouldPromptPromotion E (game st) sel sq White) eqn:G.
    + rewrite (click_gate st sel sq L S N R G). split; reflexivity.
    + rewrite (click_attempt st sel sq L S N R G).
      unfold destinations in D. apply in_map_iff in D. destruct D as [m [Hto Hm]].
      destruct (QA _ _ _ Hm) as [g' Hg']. rewrite Hto in Hg'.
      pose proof (game_move_spec (Req.mk sel sq (Some "q")) st) as GM.
      destruct (game_move E (Req.mk sel sq (Some "q")) st) as [acc st1].
      destruct GM as (_ & _ & _ & _ & GM). rewrite Hg' in GM.
      destruct GM as [-> GM]. cbn [negb].
      exists g'. split; [exact Hg'|]. split.
      * destruct (syncAfterHumanMove_core
                    (clearHighlights E (set_selectedSquare E None st1))) as (G' & _).
        rewrite G'. exact GM.
      * eapply FT. eassumption.
  - intros D. destruct (click_submits st sq) as [[G _] | [sel' H]]; [exact G|].
    destruct H as (_ & S' & _ & _ & H).
    assert (sel' = sel) by congruence. subst sel'.
    destruct (move E (game st) (Req.mk sel sq (Some "q"))) as [g'|] eqn:M;
      [|exact H].
    exfalso. apply D. exact (ML _ _ _ M).
Qed.

(** *** The status line *)

(** C5: when the game is over, the status line and the banner show the
    first condition that applies in the order checkmate, stalemate,
    threefold repetition, insufficient material, other draw, unspecified
    game over; otherwise the status line tells whose turn it is and whether
    that side is in check. *)
Theorem status_follows_precedence st :
  manualGameOver st = false ->
  let g := game st in
  let st' := updateStatus E st in
  if game_over E g
  then exists t, spec_terminal E g = Some t
                 /\ statusEl st' = terminal_status t (turn E g)
                 /\ whoIsWinningEl st' = terminal_banner t (turn E g)
  else statusEl st' = turn_status E g.
Proof.
  intros M. cbv zeta. unfold updateStatus, spec_terminal, turn_status. rewrite M.
  destruct (game_over E (game st)) eqn:O; cbn [negb andb find precedence applies].
  - destruct (in_checkmate E (game st));
      [exists Checkmate; repeat split; destruct (turn E (game st)); reflexivity|].
    destruct (in_stalemate E (game st));
      [exists Stalemate; repeat split; reflexivity|].
    destruct (in_threefold_repetition E (game st));
      [exists ThreefoldRepetition; repeat split; reflexivity|].
    destruct (insufficient_material E (game st));
      [exists InsufficientMaterial; repeat split; reflexivity|].
    destruct (in_draw E (game st));
      [exists OtherDraw; repeat split; reflexivity|].
    exists Unspecified; repeat split; reflexivity.
  - destruct (turn E (game st)), (in_check E (game st)); reflexivity.
Qed.


End Facts.
(* ================================================================= *)
(** ** The percentages *)

Section Percentages.
Variable E : Chess.
Context {host : JS.Casing}.
Implicit Types st : State E.

(** The recommended move: what is handed to the engine, and what is left
    alone.  The evaluation writes the two displays and the leader label
    before it turns to the move, and the move leaves them alone. *)
Lemma applyBestMove_spec (best_move : JS.value) st :
  let '(moved, st') := applyBestMove E best_move st in
  whiteProbabilityEl st' = whiteProbabilityEl st
  /\ blackProbabilityEl st' = blackProbabilityEl st
  /\ whoIsWinningEl st' = whoIsWinningEl st
  /\ manualGameOver st' = manualGameOver st
  /\ (moved = false -> game st' = game st)
  /\ (Color_eqb (turn E (game st)) Black && negb (game_over E (game st)) = false
      \/ uciToMove best_move = None ->
      moved = false /\ submitted st' = submitted st)
  /\ (forall mv,
        Color_eqb (turn E (game st)) Black && negb (game_over E (game st)) = true ->
        uciToMove best_move = Some mv ->
        let alt := Req.mk (Req.from mv) (Req.to mv) (Some "q") in
        match move E (game st) mv with
        | Some g' => moved = true /\ game st' = g'
                     /\ submitted st' = (submitted st ++ [mv])%list
        | None =>
            if JS.truthy (Req.promotion mv) then
              submitted st' = (submitted st ++ [mv; alt])%list
              /\ match move E (game st) alt with
                 | Some g' => moved = true /\ game st' = g'
                 | None => moved = false
                 end
            else moved = false /\ submitted st' = (submitted st ++ [mv])%list
        end).
Proof.
  unfold applyBestMove.
  destruct (Color_eqb (turn E (game st)) Black && negb (game_over E (game st))) eqn:B.
  2:{ do 6 (split; [reflexivity || (intros; split; reflexivity)|]).
      intros mv H. discriminate. }
  destruct (uciToMove best_move) as [mv|] eqn:U.
  2:{ do 6 (split; [reflexivity || (intros; split; reflexivity)|]).
      intros mv _ H. discriminate. }
  rewrite game_move_eq.
  destruct (move E (game st) mv) as [g1|] eqn:M1.
  { do 4 (split; [reflexivity|]).
    split; [discriminate|]. split; [intros [H | H]; discriminate|].
    intros mv' _ [= <-]. rewrite M1. repeat split; reflexivity. }
  destruct (JS.truthy (Req.promotion mv)) eqn:T.
  2:{ do 5 (split; [reflexivity|]).
      split; [intros [H | H]; discriminate|].
      intros mv' _ [= <-]. rewrite M1, T. split; reflexivity. }
  rewrite game_move_eq.
  change (game (set_submitted E (submitted st ++ [mv]) st)) with (game st).
  destruct (move E (game st) (Req.mk (Req.from mv) (Req.to mv) (Some "q")))
    as [g2|] eqn:M2.
  - do 4 (split; [reflexivity|]).
    split; [discriminate|]. split; [intros [H | H]; discriminate|].
    intros mv' _ [= <-]. rewrite M1, T, M2.
    cbn [submitted set_lastAIMoveUCI set_game set_submitted game].
    rewrite <- app_assoc. repeat split; reflexivity.
  - do 5 (split; [reflexivity|]).
    split; [intros [H | H]; discriminate|].
    intros mv' _ [= <-]. rewrite M1, T, M2.
    cbn [submitted set_submitted].
    rewrite <- app_assoc. repeat split; reflexivity.
Qed.

Lemma showProbabilities_spec (prob : JS.value) st :
  match JS.times prob (JS.Fin 100) with
  | None => showProbabilities E prob st = None
  | Some product =>
      let wPct := JS.Math_round product in
      exists st',
        showProbabilities E prob st = Some st'
        /\ whiteProbabilityEl st' = percent wPct
        /\ blackProbabilityEl st' = percent (JS.sub (JS.Fin 100) wPct)
        /\ whoIsWinningEl st'
           = (if JS.strict_eq wPct (JS.Fin 50) then "Balanced"
              else if JS.gt wPct (JS.Fin 50) then "You" else "Mahmoud")
        /\ game st' = game st /\ submitted st' = submitted st
        /\ manualGameOver st' = manualGameOver st
        /\ lastAIMoveUCI st' = lastAIMoveUCI st
  end.
Proof.
  unfold showProbabilities. destruct (JS.times prob (JS.Fin 100)); [|reflexivity].
  cbv zeta. eexists. split; [reflexivity|]. repeat split; reflexivity.
Qed.

(** The [try] block shows the percentages of a [prob] that converts to a
    number, whatever becomes of the move. *)
Lemma applyEvaluation_displays (prob best_move : JS.value) (product : JS.number) st :
  JS.times prob (JS.Fin 100) = Some product ->
  let wPct := JS.Math_round product in
  let st' := snd (applyEvaluation E prob best_move st) in
  whiteProbabilityEl st' = percent wPct
  /\ blackProbabilityEl st' = percent (JS.sub (JS.Fin 100) wPct)
  /\ whoIsWinningEl st'
     = (if JS.strict_eq wPct (JS.Fin 50) then "Balanced"
        else if JS.gt wPct (JS.Fin 50) then "You" else "Mahmoud").
Proof.
  intros T. cbv zeta. unfold applyEvaluation.
  pose proof (showProbabilities_spec prob st) as S. rewrite T in S.
  destruct S as (st0 & -> & W0 & B0 & L0 & _).
  pose proof (applyBestMove_spec best_move st0) as H.
  destruct (applyBestMove E best_move st0) as [moved st'].
  destruct H as (W & B & L & _). cbn [snd]. rewrite W, B, L. auto.
Qed.

Lemma percent_table (w : Z) :
  (0 <= w <= 100)%Z ->
  let n := JS.Fin (inject_Z w) in
  percent n = numeral (Z.to_nat w) ++ "%"
  /\ percent (JS.sub (JS.Fin 100) n) = numeral (Z.to_nat (100 - w)) ++ "%"
  /\ JS.strict_eq n (JS.Fin 50) = (w =? 50)%Z
  /\ JS.gt n (JS.Fin 50) = (50 <? w)%Z.
Proof.
  intros H. cbv zeta.
  assert (forallb percent_row (seq 0 101) = true) as T by (vm_compute; reflexivity).
  rewrite forallb_forall in T.
  specialize (T (Z.to_nat w)). rewrite in_seq in T. specialize (T ltac:(lia)).
  unfold percent_row in T. rewrite Z2Nat.id in T by lia.
  repeat (apply andb_prop in T; destruct T as [T ?]).
  apply StringFacts.eqb_eq in T.
  match goal with K : (_ =? _) = true |- _ => apply StringFacts.eqb_eq in K end.
  repeat match goal with K : Bool.eqb _ _ = true |- _ => apply Bool.eqb_prop in K end.
  replace (Z.to_nat (100 - w)) with (100 - Z.to_nat w)%nat by lia.
  repeat split; try assumption.
  - destruct (Z.eqb_spec w 50), (Nat.eqb_spec (Z.to_nat w) 50); try lia; assumption.
  - destruct (Z.ltb_spec 50 w), (Nat.ltb_spec 50 (Z.to_nat w)); try lia; assumption.
Qed.

(** C6: for a win probability [p] between 0 and 1, the two displays show
    [w%] and [b%] in decimal, where [w] is what [Math.round] makes of the
    product of [p] and 100 as the script computes it, a double nearest to
    the exact product, and [w + b = 100]; the leader label reads "Balanced"
    exactly when [w] is 50; and a [p] of one half shows 50% and 50% and
    "Balanced". *)
Theorem percentages_sum_to_100 st (p : Q) (best_move : JS.value) :
  (0 <= p)%Q -> (p <= 1)%Q ->
  let st' := snd (applyEvaluation E (JS.VNumber (JS.Fin p)) best_move st) in
  exists (x : Q) (w b : Z),
    nearest_double (p * 100) x
    /\ w = Qfloor (x + (1 # 2))
    /\ (0 <= w <= 100)%Z /\ (w + b = 100)%Z
    /\ whiteProbabilityEl st' = numeral (Z.to_nat w) ++ "%"
    /\ blackProbabilityEl st' = numeral (Z.to_nat b) ++ "%"
    /\ (whoIsWinningEl st' = "Balanced" <-> w = 50%Z)
    /\ (p == 1 # 2 ->
        whiteProbabilityEl st' = "50%" /\ blackProbabilityEl st' = "50%"
        /\ whoIsWinningEl st' = "Balanced")%Q.
Proof.
  intros P0 P1. cbv zeta.
  destruct (FloatFacts.round_between (p * 100) 0 100) as (x & R & N & X0 & X1).
  { apply (FloatFacts.double_integer 0). reflexivity. }
  { apply (FloatFacts.double_integer 100). reflexivity. }
  { lra. }
  { lra. }
  destruct (applyEvaluation_displays (JS.VNumber (JS.Fin p)) best_move
              (JS.Fin x) st (f_equal Some R)) as (Hw & Hb & Hl).
  cbv zeta in Hw, Hb, Hl. cbn [JS.Math_round] in Hw, Hb, Hl.
  set (w := Qfloor (x + (1 # 2))) in *.
  assert (0 <= w <= 100)%Z as W.
  { split.
    - unfold w. rewrite <- (Qfloor_Z 0). apply Qfloor_resp_le.
      change (inject_Z 0) with 0%Q. lra.
    - assert (w < 101)%Z; [|lia]. rewrite Zlt_Qlt.
      eapply Qle_lt_trans; [apply Qfloor_le|]. change (inject_Z 101) with 101%Q. lra. }
  destruct (percent_table w W) as (Tw & Tb & Te & Tg). cbv zeta in Tw, Tb, Te, Tg.
  exists x, w, (100 - w)%Z.
  split; [exact N|]. split; [reflexivity|]. split; [exact W|]. split; [lia|].
  split; [now rewrite Hw|]. split; [now rewrite Hb|].
  assert (whoIsWinningEl
            (snd (applyEvaluation E (JS.VNumber (JS.Fin p)) best_move st))
          = "Balanced" <-> w = 50%Z) as Bal.
  { rewrite Hl, Te, Tg. destruct (Z.eqb_spec w 50); [tauto|].
    destruct (50 <? w)%Z; split; intros; try discriminate; contradiction. }
  split; [exact Bal|].
  intros Hp.
  assert (x == 50)%Q as X50.
  { destruct N as [_ N].
    specialize (N 50%Q (FloatFacts.double_integer 50 eq_refl)).
    assert (Qabs (p * 100 - 50) == 0)%Q as Z0
        by (assert (p * 100 - 50 == 0)%Q as -> by (rewrite Hp; reflexivity);
            reflexivity).
    rewrite Z0 in N.
    assert (p * 100 == 50)%Q as P50 by (rewrite Hp; reflexivity).
    destruct (Qlt_le_dec (p * 100) x).
    - rewrite (Qabs_neg (p * 100 - x)) in N by lra. lra.
    - rewrite (Qabs_pos (p * 100 - x)) in N by lra. lra. }
  assert (w = 50%Z) as W50.
  { unfold w. rewrite (Qfloor_comp _ (101 # 2)); [reflexivity|].
    rewrite X50. reflexivity. }
  rewrite Hw, Hb, Tw, Tb, (proj2 Bal W50), W50. repeat split; reflexivity.
Qed.

End Percentages.
(* ================================================================= *)
(** ** Coordinate notation *)

(** *** The trimmed form of a string *)

Lemma trimStart_spec (u : string) :
  exists l, u = l ++ JS.trimStart u /\ blank l /\ starts_clean (JS.trimStart u).
Proof.
  induction u as [|c u IH]; cbn.
  - exists "". repeat split.
  - destruct (JS.isWhiteSpace c) eqn:W.
    + destruct IH as (l & E & B & S). exists (String c l). cbn.
      split; [congruence|]. repeat split; assumption.
    + exists "". cbn. repeat split; assumption.
Qed.

Lemma ends_clean_tail (c : N) (s : string) :
  ends_clean (String c s) -> s <> "" -> ends_clean s.
Proof.
  intros H _ t d ->. apply (H (String c t) d). reflexivity.
Qed.

Lemma trimEnd_spec (s : string) :
  exists r, s = JS.trimEnd s ++ r /\ blank r /\ ends_clean (JS.trimEnd s).
Proof.
  induction s as [|c s (r & E & B & C)]; cbn.
  - exists "". repeat split. intros [|d t] e H; discriminate.
  - destruct (JS.trimEnd s) as [|d t] eqn:T.
    + cbn in E. subst r. destruct (JS.isWhiteSpace c) eqn:W.
      * exists (String c s). cbn. repeat split; assumption.
      * exists s. cbn. repeat split; try assumption.
        intros [|x t'] e H; cbn in H; [congruence|].
        injection H as _ H. destruct t'; discriminate.
    + exists r. cbn. split; [cbn in E; congruence|]. split; [assumption|].
      intros [|x t'] e H; cbn in H; [discriminate|].
      injection H as _ H. exact (C t' e H).
Qed.

Lemma trimEnd_starts (s : string) : starts_clean s -> starts_clean (JS.trimEnd s).
Proof.
  destruct s as [|c s]; cbn; [trivial|]. intros W.
  destruct (JS.trimEnd s); [rewrite W|]; exact W.
Qed.

Lemma trim_spec (u : string) : trimmed_form u (JS.trim u).
Proof.
  unfold JS.trim.
  destruct (trimStart_spec u) as (l & El & Bl & Sl).
  destruct (trimEnd_spec (JS.trimStart u)) as (r & Er & Br & Cr).
  exists l, r. split; [|repeat split; try assumption; now apply trimEnd_starts].
  rewrite <- Er. exact El.
Qed.

Lemma trimStart_blank (l s : string) :
  blank l -> JS.trimStart (l ++ s) = JS.trimStart s.
Proof.
  induction l as [|c l IH]; cbn; [reflexivity|]. intros [W B]. now rewrite W, IH.
Qed.

Lemma trimEnd_blank (s r : string) : blank r -> JS.trimEnd (s ++ r) = JS.trimEnd s.
Proof.
  intros B. induction s as [|c s IH]; cbn.
  - induction r as [|d r IHr]; cbn; [reflexivity|].
    destruct B as [W B]. now rewrite (IHr B), W.
  - now rewrite IH.
Qed.

Lemma trimEnd_clean (s : string) : ends_clean s -> JS.trimEnd s = s.
Proof.
  induction s as [|c s IH]; cbn; [reflexivity|]. intros C.
  destruct s as [|d s].
  - cbn. now rewrite (C "" c eq_refl).
  - rewrite IH by (eapply ends_clean_tail; [eassumption | discriminate]).
    reflexivity.
Qed.

Lemma blank_trimStart (r : string) : blank r -> JS.trimStart r = "".
Proof. induction r as [|c r IH]; cbn; [reflexivity|]. intros [W B]. now rewrite W, IH. Qed.

(** The trimmed form of a string is what [trim] returns, and nothing
    else. *)
Lemma trimmed_form_unique (u t : string) : trimmed_form u t -> t = JS.trim u.
Proof.
  intros (l & r & -> & Bl & Br & S & C). unfold JS.trim.
  rewrite (trimStart_blank l _ Bl). destruct t as [|c t].
  - cbn. now rewrite (blank_trimStart r Br).
  - cbn in S. cbn [String.append JS.trimStart]. rewrite S.
    change (String c (t ++ r)) with (String c t ++ r).
    now rewrite (trimEnd_blank _ r Br), (trimEnd_clean _ C).
Qed.

Section Parsing.
Context {host : JS.Casing}.

Lemma uciToMove_shape (u : string) :
  u <> "" ->
  let s := JS.toLowerCase (JS.trim u) in
  (4 <= String.length s)%nat ->
  exists from to rest,
    s = from ++ to ++ rest
    /\ String.length from = 2%nat /\ String.length to = 2%nat
    /\ uciToMove (JS.VString u) = Some (Req.mk from to (promotion_of rest)).
Proof.
  intros Hu. cbv zeta. intros H. unfold uciToMove.
  destruct (StringFacts.eqb_spec u ""); [contradiction|]. cbv zeta.
  set (s := JS.toLowerCase (JS.trim u)) in *.
  destruct (Nat.ltb_spec (String.length s) 4); [lia|].
  destruct s as [|a [|b [|c [|d rest]]]]; try (cbn in H; lia).
  exists (String a (String b "")), (String c (String d "")), rest.
  split; [reflexivity|]. split; [reflexivity|]. split; [reflexivity|].
  destruct rest as [|x rest]; cbn; [reflexivity|].
  destruct (JS.toLowerCase (String x "") =? ""); reflexivity.
Qed.

End Parsing.
(* ================================================================= *)
(** ** The evaluation cycle *)

Section Cycle.
Variable E : Chess.
Context {host : JS.Casing}.
Implicit Types st : State E.

Lemma applyEvaluation_converts (prob best_move : JS.value) (product : JS.number) st :
  JS.times prob (JS.Fin 100) = Some product ->
  exists st0,
    showProbabilities E prob st = Some st0
    /\ applyEvaluation E prob best_move st = applyBestMove E best_move st0
    /\ game st0 = game st /\ submitted st0 = submitted st
    /\ manualGameOver st0 = manualGameOver st
    /\ lastAIMoveUCI st0 = lastAIMoveUCI st.
Proof.
  intros T. pose proof (showProbabilities_spec E prob st) as S. rewrite T in S.
  destruct S as (st0 & S & _ & _ & _ & G & L & M & A).
  exists st0. unfold applyEvaluation. rewrite S. auto 10.
Qed.

Lemma applyEvaluation_raises (prob best_move : JS.value) st :
  JS.times prob (JS.Fin 100) = None ->
  applyEvaluation E prob best_move st = (false, st).
Proof.
  intros T. pose proof (showProbabilities_spec E prob st) as S. rewrite T in S.
  unfold applyEvaluation. now rewrite S.
Qed.

Lemma finish_fallback (rnd : Q) st :
  turn E (game st) = Black -> game_over E (game st) = false ->
  finish E false rnd st = redraw E (fallback E rnd st) st.
Proof. intros T O. unfold finish. now rewrite T, O. Qed.

Lemma finish_redraws (moved : bool) (rnd : Q) st :
  moved = true \/ turn E (game st) = White \/ game_over E (game st) = true ->
  finish E moved rnd st = updateStatus E (renderPieces E st).
Proof.
  intros H. unfold finish.
  destruct H as [-> | [-> | ->]]; cbn [negb andb Color_eqb]; try reflexivity.
  - destruct (negb moved); reflexivity.
  - now rewrite !andb_false_r.
Qed.

(** C7, amended: [uciToMove] answers null for whatever is not a string,
    for the empty string, and for a string whose trimmed form, lowercased,
    has fewer than 4 code units; otherwise it reads the source from the code
    units 0-1 of the trimmed, lowercased string, the destination from the
    code units 2-3, and the promotion from the fifth code unit when there is
    one.  When the answer arrives on the opponent's turn with a [prob] that
    converts to a number, a parsed move with a promotion letter that the
    engine rejects is submitted again with the queen as promotion piece;
    when that is rejected too, when the parse gave null, or when a move
    without promotion letter is rejected, nothing was moved and the function
    goes on with the random-move fallback. *)
Theorem uciToMove_parses_and_engine_retries_queen :
  (forall v, (forall u, v <> JS.VString u) -> uciToMove v = None)
  /\ uciToMove (JS.VString "") = None
  /\ (forall u t, trimmed_form u t ->
                  (String.length (JS.toLowerCase t) < 4)%nat ->
                  uciToMove (JS.VString u) = None)
  /\ (forall u t, u <> "" -> trimmed_form u t ->
                  (4 <= String.length (JS.toLowerCase t))%nat ->
                  exists from to rest,
                    JS.toLowerCase t = from ++ to ++ rest
                    /\ String.length from = 2%nat /\ String.length to = 2%nat
                    /\ uciToMove (JS.VString u)
                       = Some (Req.mk from to (promotion_of rest)))
  /\ (forall st prob best_move product mv rnd,
        JS.times prob (JS.Fin 100) = Some product ->
        game_over E (game st) = false -> turn E (game st) = Black ->
        uciToMove best_move = Some mv ->
        move E (game st) mv = None -> JS.truthy (Req.promotion mv) = true ->
        let alt := Req.mk (Req.from mv) (Req.to mv) (Some "q") in
        let '(moved, st1) := applyEvaluation E prob best_move st in
        submitted st1 = (submitted st ++ [mv; alt])%list
        /\ match move E (game st) alt with
           | Some g' => moved = true /\ game st1 = g'
           | None =>
               moved = false /\ game st1 = game st
               /\ resume E (Binds prob best_move) rnd st
                  = redraw E (fallback E rnd st1) st1
           end)
  /\ (forall st prob best_move product rnd,
        JS.times prob (JS.Fin 100) = Some product ->
        game_over E (game st) = false -> turn E (game st) = Black ->
        uciToMove best_move = None ->
        let '(moved, st1) := applyEvaluation E prob best_move st in
        moved = false /\ game st1 = game st /\ submitted st1 = submitted st
        /\ resume E (Binds prob best_move) rnd st
           = redraw E (fallback E rnd st1) st1)
  /\ (forall st prob best_move product mv rnd,
        JS.times prob (JS.Fin 100) = Some product ->
        game_over E (game st) = false -> turn E (game st) = Black ->
        uciToMove best_move = Some mv ->
        move E (game st) mv = None -> JS.truthy (Req.promotion mv) = false ->
        let '(moved, st1) := applyEvaluation E prob best_move st in
        moved = false /\ game st1 = game st
        /\ submitted st1 = (submitted st ++ [mv])%list
        /\ resume E (Binds prob best_move) rnd st
           = redraw E (fallback E rnd st1) st1).
Proof.
  split; [|split; [|split; [|split; [|split; [|split]]]]].
  - intros v H. destruct v; try reflexivity. now destruct (H s).
  - reflexivity.
  - intros u t F H. apply trimmed_form_unique in F. subst t.
    unfold uciToMove. destruct (u =? ""); [reflexivity|]. cbv zeta.
    destruct (Nat.ltb_spec (String.length (JS.toLowerCase (JS.trim u))) 4);
      [reflexivity | lia].
  - intros u t N F H. apply trimmed_form_unique in F. subst t.
    now apply uciToMove_shape.
  - intros st prob best_move product mv rnd Tm O T Um R P. cbv zeta.
    assert (resume E (Binds prob best_move) rnd st
            = let '(moved, st1) := applyEvaluation E prob best_move st in
              finish E moved rnd st1) as C by reflexivity.
    destruct (applyEvaluation_converts prob best_move product st Tm)
      as (st0 & _ & Ev & G0 & L0 & _).
    rewrite Ev in *.
    pose proof (applyBestMove_spec E best_move st0) as H.
    destruct (applyBestMove E best_move st0) as [moved st1].
    destruct H as (_ & _ & _ & _ & G & _ & H).
    rewrite G0 in G, H. rewrite T, O in H. specialize (H mv eq_refl Um).
    cbv zeta in H. rewrite R, P, L0 in H. destruct H as [L H].
    split; [exact L|]. clear R.
    destruct (move E (game st) (Req.mk (Req.from mv) (Req.to mv) (Some "q")))
      as [g'|]; [exact H|].
    subst moved. specialize (G eq_refl). repeat split; [exact G|].
    rewrite C. apply finish_fallback; now rewrite G.
  - intros st prob best_move product rnd Tm O T Um.
    assert (resume E (Binds prob best_move) rnd st
            = let '(moved, st1) := applyEvaluation E prob best_move st in
              finish E moved rnd st1) as C by reflexivity.
    destruct (applyEvaluation_converts prob best_move product st Tm)
      as (st0 & _ & Ev & G0 & L0 & _).
    rewrite Ev in *.
    pose proof (applyBestMove_spec E best_move st0) as H.
    destruct (applyBestMove E best_move st0) as [moved st1].
    destruct H as (_ & _ & _ & _ & G & N & _).
    rewrite G0 in G. destruct (N (or_intror Um)) as [-> L].
    specialize (G eq_refl). repeat split; [exact G | congruence|].
    rewrite C. apply finish_fallback; now rewrite G.
  - intros st prob best_move product mv rnd Tm O T Um R P.
    assert (resume E (Binds prob best_move) rnd st
            = let '(moved, st1) := applyEvaluation E prob best_move st in
              finish E moved rnd st1) as C by reflexivity.
    destruct (applyEvaluation_converts prob best_move product st Tm)
      as (st0 & _ & Ev & G0 & L0 & _).
    rewrite Ev in *.
    pose proof (applyBestMove_spec E best_move st0) as H.
    destruct (applyBestMove E best_move st0) as [moved st1].
    destruct H as (_ & _ & _ & _ & G & _ & H).
    rewrite G0 in G, H. rewrite T, O in H. specialize (H mv eq_refl Um).
    cbv zeta in H. rewrite R, P, L0 in H. destruct H as [-> L].
    specialize (G eq_refl). repeat split; [exact G | exact L|].
    rewrite C. apply finish_fallback; now rewrite G.
Qed.

End Cycle.
(* ================================================================= *)
(** ** The random draw *)

Lemma prefix_spec (p s : string) :
  String.prefix p s = true <-> exists b, s = p ++ b.
Proof.
  revert s. induction p as [|c p IH]; intros s; cbn.
  - split; [intros _; now exists s | reflexivity].
  - destruct s as [|d s].
    + split; [discriminate | intros (b & H); discriminate].
    + rewrite andb_true_iff, N.eqb_eq, IH. split.
      * intros (-> & b & ->). now exists b.
      * intros (b & H). injection H as -> ->. split; [reflexivity | now exists b].
Qed.

Lemma includes_carries (s f : string) :
  JS.includes s f = true <-> carries s f.
Proof.
  unfold carries. induction s as [|c s IH].
  - cbn [JS.includes]. rewrite orb_false_r, prefix_spec. split.
    + intros (b & H). now exists "", b.
    + intros (a & b & H). destruct a; [now exists b | discriminate].
  - cbn [JS.includes]. rewrite orb_true_iff, prefix_spec, IH. split.
    + intros [(b & H) | (a & b & H)].
      * now exists "", b.
      * exists (String c a), b. cbn. now rewrite H.
    + intros (a & b & H). destruct a as [|d a].
      * left. now exists b.
      * right. cbn in H. injection H as _ H. now exists a, b.
Qed.

Lemma inject_Z_minus (a b : Z) : (inject_Z (a - b) == inject_Z a - inject_Z b)%Q.
Proof. unfold Z.sub. rewrite inject_Z_plus, inject_Z_opp. reflexivity. Qed.

Section Draw.
Import JS FloatFacts.
Open Scope Q_scope.

Variable rnd : Q.
Variable n : nat.
Hypothesis rnd_double : is_double rnd.
Hypothesis rnd_nonneg : 0 <= rnd.
Hypothesis rnd_below_1 : rnd < 1.
Hypothesis n_positive : (0 < n)%nat.
Hypothesis n_array : (Z.of_nat n < 2 ^ 32)%Z.

Local Abbreviation len := (inject_Z (Z.of_nat n)) (only parsing).

Lemma len_ge_1 : 1 <= len.
Proof. change 1 with (inject_Z 1). rewrite <- Zle_Qle. lia. Qed.

Lemma len_double : is_double len.
Proof. apply double_integer. lia. Qed.

Lemma index_double (i : nat) : (i <= n)%nat -> is_double (inject_Z (Z.of_nat i)).
Proof. intros H. apply double_integer. lia. Qed.

Lemma product_bounds : 0 <= rnd * len /\ rnd * len < len.
Proof. pose proof len_ge_1. split; nra. Qed.

(** The double below [len]: no double lies strictly between the two. *)
Lemma below_len :
  exists y, is_double y /\ y < len
            /\ forall x, 0 <= x -> x <= len * (1 - pow2 (-53)) ->
                         x <= y \/ x - y < len - x.
Proof.
  destruct (Nat.eq_dec n 1) as [N1 | N1].
  - exists (1 - pow2 (-53)). rewrite N1.
    change (inject_Z (Z.of_nat 1)) with 1. split; [|split].
    + apply (double_compat (inject_Z (2 ^ 53 - 1) * pow2 (-53))).
      * rewrite inject_Z_minus.
        assert (inject_Z (2 ^ 53) == pow2 53) as -> by reflexivity.
        assert (1 == pow2 53 * pow2 (-53)) as One
            by (rewrite <- pow2_add; reflexivity).
        change (inject_Z 1) with 1.
        transitivity (pow2 53 * pow2 (-53) - pow2 (-53)); [ring|].
        now rewrite <- One.
      * apply double_intro; [reflexivity | lia].
    + pose proof (pow2_pos (-53)). lra.
    + intros x _ H. left. lra.
  - pose (K := Z.log2_up (Z.of_nat n)).
    assert (1 < Z.of_nat n)%Z as G by lia.
    pose proof (Z.log2_up_spec (Z.of_nat n) G) as [Lo Hi]. fold K in Lo, Hi.
    assert (1 <= K <= 32)%Z as HK.
    { split.
      - apply Z.log2_up_pos in G. fold K in G. lia.
      - unfold K. apply Z.log2_up_le_pow2; lia. }
    assert (pow2 (K - 53) == (2 # 1) * pow2 (K - 54)) as Two.
    { replace (K - 53)%Z with (1 + (K - 54))%Z by lia. rewrite pow2_add.
      reflexivity. }
    assert (pow2 (K - 54) < len * pow2 (-53)) as Gap.
    { replace (K - 54)%Z with (Z.pred K + -53)%Z by lia. rewrite pow2_add.
      pose proof (pow2_pos (-53)).
      assert (pow2 (Z.pred K) < len).
      { rewrite pow2_nonneg by lia. now rewrite <- Zlt_Qlt. }
      nra. }
    pose proof (pow2_pos (K - 54)) as Pos.
    exists (len - pow2 (K - 53)). split; [|split].
    + apply (double_compat
               (inject_Z (Z.of_nat n * 2 ^ (53 - K) - 1) * pow2 (K - 53))).
      * rewrite inject_Z_minus, inject_Z_mult.
        assert (inject_Z (2 ^ (53 - K)) == pow2 (53 - K)) as ->
            by (now rewrite pow2_nonneg by lia).
        change (inject_Z 1) with 1.
        assert (pow2 (53 - K) * pow2 (K - 53) == 1) as One.
        { rewrite <- pow2_add. replace (53 - K + (K - 53))%Z with 0%Z by lia.
          reflexivity. }
        assert ((len * pow2 (53 - K) - 1) * pow2 (K - 53)
                == len * (pow2 (53 - K) * pow2 (K - 53)) - pow2 (K - 53)) as ->
            by ring.
        rewrite One. ring.
      * apply double_intro; [|lia].
        assert (Z.of_nat n * 2 ^ (53 - K) <= 2 ^ 53)%Z.
        { replace (2 ^ 53)%Z with (2 ^ K * 2 ^ (53 - K))%Z
            by (rewrite <- Z.pow_add_r by lia; f_equal; lia).
          apply Z.mul_le_mono_nonneg_r; [|exact Hi].
          apply Z.pow_nonneg. lia. }
        assert (0 < Z.of_nat n * 2 ^ (53 - K))%Z.
        { apply Z.mul_pos_pos; [lia|]. apply Z.pow_pos_nonneg; lia. }
        lia.
    + lra.
    + intros x _ H.
      destruct (Qlt_le_dec (len - pow2 (K - 53)) x) as [C | C];
        [right | now left].
      lra.
Qed.

(** The rounded product is a double from 0 to below the length. *)
Lemma product_rounds :
  exists r, round (rnd * len) = Fin r /\ nearest_double (rnd * len) r
            /\ 0 <= r /\ r < len.
Proof.
  pose proof product_bounds as [P0 P1].
  destruct (round_between (rnd * len) 0 len) as (r & R & N & Lo & Hi);
    [apply (double_integer 0); reflexivity | apply len_double | lra | lra |].
  exists r. split; [exact R|]. split; [exact N|]. split; [exact Lo|].
  destruct (Qlt_le_dec r len) as [C | C]; [assumption | exfalso].
  destruct below_len as (y & Dy & Hy & Near).
  pose proof (double_below_one rnd rnd_double rnd_below_1) as B.
  pose proof len_ge_1 as L1.
  assert (rnd * len <= len * (1 - pow2 (-53))) as B' by nra.
  destruct (Near _ P0 B') as [Q | Q].
  - pose proof (nearest_le _ _ _ N Dy Q). lra.
  - destruct N as [_ N]. specialize (N y Dy).
    destruct (Qlt_le_dec (rnd * len) y) as [Z | Z].
    + rewrite (Qabs_neg (rnd * len - r)), (Qabs_neg (rnd * len - y)) in N by lra.
      lra.
    + rewrite (Qabs_neg (rnd * len - r)), (Qabs_pos (rnd * len - y)) in N by lra.
      lra.
Qed.

Lemma pick_index (ms : list Move.t) :
  length ms = n ->
  exists r, nearest_double (rnd * len) r /\ 0 <= r /\ r < len
            /\ (Z.to_nat (Qfloor r) < n)%nat
            /\ pick rnd ms = nth_error ms (Z.to_nat (Qfloor r)).
Proof.
  intros L. destruct product_rounds as (r & R & N & Lo & Hi).
  exists r. split; [exact N|]. split; [exact Lo|]. split; [exact Hi|]. split.
  - pose proof (floor_bounds r) as [F1 F2].
    assert (0 <= Qfloor r)%Z as F0.
    { change 0%Z with (Qfloor 0). now apply Qfloor_resp_le. }
    assert (inject_Z (Qfloor r) < len) as F by lra.
    rewrite <- Zlt_Qlt in F. lia.
  - unfold pick, mul. rewrite L, R. cbn [Math_floor].
    rewrite Qfloor_Z.
    assert (0 <= Qfloor r)%Z as F0.
    { change 0%Z with (Qfloor 0). now apply Qfloor_resp_le. }
    destruct (Z.leb_spec 0 (Qfloor r)); [|lia].
    assert (Qeq_bool (inject_Z (Qfloor r)) (inject_Z (Qfloor r)) = true) as ->
        by (apply Qeq_bool_iff; reflexivity).
    reflexivity.
Qed.

(** The index drawn is the integer part of the exact product, unless the
    product lies within 2^-20 below an integer. *)
Lemma drawn_index (r : Q) :
  nearest_double (rnd * len) r -> 0 <= r -> r < len ->
  let i := inject_Z (Qfloor r) in
  i - (1 # 1048576) < rnd * len /\ rnd * len < i + 1.
Proof.
  intros N Lo Hi i. pose proof (floor_bounds r) as [F1 F2].
  assert (0 <= Qfloor r)%Z as F0.
  { change 0%Z with (Qfloor 0). now apply Qfloor_resp_le. }
  assert (inject_Z (Qfloor r) < len) as F by lra.
  rewrite <- Zlt_Qlt in F. fold i in F1, F2.
  split.
  - destruct (Qlt_le_dec (i - (1 # 1048576)) (rnd * len)) as [C | C];
      [assumption | exfalso].
    destruct (Z.eq_dec (Qfloor r) 0) as [Z0 | Z0].
    + unfold i in C. rewrite Z0 in C. change (inject_Z 0) with 0 in C.
      pose proof product_bounds. lra.
    + assert (is_double (i - (1 # 1048576))) as D.
      { apply (double_compat (inject_Z (Qfloor r * 2 ^ 20 - 1) * pow2 (-20))).
        - rewrite inject_Z_minus, inject_Z_mult. fold i.
          change (pow2 (-20)) with (1 # 1048576).
          change (inject_Z (2 ^ 20)) with (1048576 # 1).
          change (inject_Z 1) with 1. field.
        - apply double_intro; lia. }
      pose proof (nearest_le _ _ _ N D C). lra.
  - destruct (Qlt_le_dec (rnd * len) (i + 1)) as [C | C];
      [assumption | exfalso].
    assert (is_double (i + 1)) as D.
    { apply (double_compat (inject_Z (Qfloor r + 1))).
      - now rewrite inject_Z_plus.
      - apply double_integer. lia. }
    pose proof (nearest_ge _ _ _ N D C). lra.
Qed.

Lemma index_drawn (r : Q) (i : nat) :
  nearest_double (rnd * len) r ->
  inject_Z (Z.of_nat i) <= rnd * len ->
  rnd * len <= inject_Z (Z.of_nat i) + 1 - (1 # 1048576) ->
  Z.to_nat (Qfloor r) = i.
Proof.
  intros N Lo Hi. pose proof product_bounds as [P0 P1].
  assert (Z.of_nat i < Z.of_nat n)%Z as I.
  { rewrite Zlt_Qlt. lra. }
  assert (is_double (inject_Z (Z.of_nat i))) as D1
      by (apply double_integer; lia).
  assert (is_double (inject_Z (Z.of_nat i) + 1 - (1 # 1048576))) as D2.
  { apply (double_compat
             (inject_Z ((Z.of_nat i + 1) * 2 ^ 20 - 1) * pow2 (-20))).
    - rewrite inject_Z_minus, inject_Z_mult, inject_Z_plus.
      change (pow2 (-20)) with (1 # 1048576).
      change (inject_Z (2 ^ 20)) with (1048576 # 1).
      change (inject_Z 1) with 1. field.
    - apply double_intro; lia. }
  pose proof (nearest_ge _ _ _ N D1 Lo) as G.
  pose proof (nearest_le _ _ _ N D2 Hi) as L.
  assert (Qfloor r = Z.of_nat i) as ->; [|lia].
  apply Z.le_antisymm.
  - assert (Qfloor r < Z.of_nat i + 1)%Z; [|lia].
    rewrite Zlt_Qlt, inject_Z_plus. change (inject_Z 1) with 1.
    pose proof (floor_bounds r). lra.
  - rewrite <- (Qfloor_Z (Z.of_nat i)). now apply Qfloor_resp_le.
Qed.

End Draw.
(** *** The fallback *)

Section Fallback.
Variable E : Chess.
Context {host : JS.Casing}.
Implicit Types st : State E.

(** C8: the fallback draws from the whole list [ms] of the [n] legal moves
    of the side to move, with [Math.random()] a double [rnd] in [[0, 1)] and
    the product [rnd * n] rounded to a double before its integer part is
    taken: the move of index [i] is drawn whenever the exact product lies
    from [i] to [i + 1 - 2^-20], and the index drawn is never off the exact
    product's own by more than that margin, so that each move is drawn on
    an interval of [rnd] of length [1/n] up to [2^-20/n].  The request
    submitted for the drawn move names the queen when the move carries the
    promotion flag, and is the move itself otherwise, which for the rules
    engine is a request without promotion piece. *)
Theorem fallback_draws_uniformly_and_promotes_to_queen st (rnd : Q) :
  let ms := moves E (game st) None in
  let n := inject_Z (Z.of_nat (length ms)) in
  ms <> [] -> (Z.of_nat (length ms) < 2 ^ 32)%Z ->
  is_double rnd -> (0 <= rnd)%Q -> (rnd < 1)%Q ->
  (forall i, (inject_Z (Z.of_nat i) <= rnd * n)%Q ->
             (rnd * n <= inject_Z (Z.of_nat i) + 1 - (1 # 1048576))%Q ->
             pick rnd ms = nth_error ms i)
  /\ exists i m,
       (i < length ms)%nat /\ nth_error ms i = Some m
       /\ (inject_Z (Z.of_nat i) - (1 # 1048576) < rnd * n)%Q
       /\ (rnd * n < inject_Z (Z.of_nat i) + 1)%Q
       /\ pick rnd ms = Some m
       /\ exists r st',
            fallback E rnd st = Some st'
            /\ submitted st' = (submitted st ++ [r])%list
            /\ Req.from r = Move.from m /\ Req.to r = Move.to m
            /\ (carries (Move.flags m) "p" -> Req.promotion r = Some "q")
            /\ (~ carries (Move.flags m) "p" ->
                Req.promotion r = Move.promotion m)
            /\ (Laws.promotion_flagged E ->
                (Req.promotion r = Some "q" <-> carries (Move.flags m) "p")).
Proof.
  cbv zeta. intros Hne Harr D H0 H1.
  assert (0 < length (moves E (game st) None))%nat as Hlen
      by (destruct (moves E (game st) None); [contradiction | cbn; lia]).
  destruct (pick_index rnd _ D H0 H1 Hlen Harr _ eq_refl)
    as (r & N & Lo & Hi & Hi' & Hp).
  split.
  - intros i A B. rewrite Hp. f_equal.
    exact (index_drawn rnd _ H0 H1 Hlen Harr r i N A B).
  - assert ((inject_Z (Qfloor r) - (1 # 1048576)
              < rnd * inject_Z (Z.of_nat (length (moves E (game st) None))))%Q
            /\ (rnd * inject_Z (Z.of_nat (length (moves E (game st) None)))
                < inject_Z (Qfloor r) + 1)%Q) as [A B]
        by exact (drawn_index rnd _ H0 H1 Hlen Harr r N Lo Hi).
    assert (0 <= Qfloor r)%Z as F0.
    { change 0%Z with (Qfloor 0). now apply Qfloor_resp_le. }
    rewrite <- (Z2Nat.id (Qfloor r)) in A, B by exact F0.
    set (i := Z.to_nat (Qfloor r)) in *.
    destruct (nth_error (moves E (game st) None) i) as [m|] eqn:Hm.
    2:{ apply nth_error_None in Hm. lia. }
    exists i, m. do 5 (split; [assumption|]).
    unfold fallback. cbv zeta.
    destruct (Nat.ltb_spec 0 (length (moves E (game st) None))); [|lia].
    rewrite Hp, !game_move_eq.
    destruct (JS.includes (Move.flags m) "p") eqn:F.
    + assert (carries (Move.flags m) "p") as C by now apply includes_carries.
      exists (Req.mk (Move.from m) (Move.to m) (Some "q")).
      destruct (move E (game st) _); eexists; (split; [reflexivity|]);
        repeat split; try reflexivity; try contradiction; auto.
    + assert (~ carries (Move.flags m) "p") as C
          by (rewrite <- includes_carries, F; discriminate).
      exists (Move.as_req m).
      assert (Laws.promotion_flagged E ->
              (Req.promotion (Move.as_req m) = Some "q"
               <-> carries (Move.flags m) "p")) as PF.
      { intros PF. specialize (PF (game st) m (nth_error_In _ _ Hm)).
        rewrite F in PF. cbn. split; [|contradiction].
        intros Hq. exfalso. assert (false = true); [|discriminate].
        apply PF. rewrite Hq. discriminate. }
      destruct (move E (game st) _); eexists; (split; [reflexivity|]);
        repeat split; try reflexivity; try contradiction; try apply PF;
        assumption.
Qed.

(** *** Failures of the evaluation request *)

Lemma updateStatus_probabilities st :
  manualGameOver st = false ->
  let st' := updateStatus E st in
  whiteProbabilityEl st'
  = (if game_over E (game st) then "N/A" else whiteProbabilityEl st)
  /\ blackProbabilityEl st'
     = (if game_over E (game st) then "N/A" else blackProbabilityEl st).
Proof.
  intros M. cbv zeta. unfold updateStatus. rewrite M.
  destruct (game_over E (game st)), (in_checkmate E (game st)),
    (in_stalemate E (game st)), (in_threefold_repetition E (game st)),
    (insufficient_material E (game st)), (in_draw E (game st)),
    (Color_eqb (turn E (game st)) White); split; reflexivity.
Qed.

(** The fallback touches the position, the log and [lastAIMoveUCI] only. *)
Lemma fallback_displays (rnd : Q) st st2 :
  fallback E rnd st = Some st2 ->
  whiteProbabilityEl st2 = whiteProbabilityEl st
  /\ blackProbabilityEl st2 = blackProbabilityEl st
  /\ manualGameOver st2 = manualGameOver st.
Proof.
  unfold fallback. cbv zeta.
  destruct (0 <? length (moves E (game st) None))%nat.
  2:{ intros [= <-]. repeat split; reflexivity. }
  destruct (pick rnd (moves E (game st) None)) as [m|]; [|discriminate].
  rewrite !game_move_eq.
  destruct (JS.includes (Move.flags m) "p");
    destruct (move E (game st) _); intros [= <-]; repeat split; reflexivity.
Qed.

(** After the fallback and the redraw the displays are what they were,
    unless the game is over. *)
Lemma redraw_displays (rnd : Q) st st2 :
  manualGameOver st = false -> fallback E rnd st = Some st2 ->
  let st3 := redraw E (Some st2) st in
  whiteProbabilityEl st3
  = (if game_over E (game st2) then "N/A" else whiteProbabilityEl st)
  /\ blackProbabilityEl st3
     = (if game_over E (game st2) then "N/A" else blackProbabilityEl st).
Proof.
  intros M F. destruct (fallback_displays _ _ _ F) as (W & B & M2).
  cbv zeta. unfold redraw.
  assert (manualGameOver (renderPieces E st2) = false) as M3
      by (transitivity (manualGameOver st2); [reflexivity | now rewrite M2]).
  destruct (updateStatus_probabilities _ M3) as [W3 B3].
  rewrite W3, B3.
  change (game (renderPieces E st2)) with (game st2).
  change (whiteProbabilityEl (renderPieces E st2)) with (whiteProbabilityEl st2).
  change (blackProbabilityEl (renderPieces E st2)) with (blackProbabilityEl st2).
  rewrite W, B. split; reflexivity.
Qed.

(** C9, amended: a call of [engineEvaluateAndAct] on a game that is not
    over writes the placeholder to both displays.  When the collaborator
    function is absent or the call itself throws, the function goes on at
    once with nothing moved, and on the opponent's turn runs the random-move
    fallback; otherwise it waits.  When the awaited answer is a rejection,
    cannot be destructured, or carries a [prob] that does not convert to a
    number, the exception is caught with nothing written and nothing moved,
    whatever happened since the call, and on the opponent's turn the
    fallback runs.  The fallback leaves the displays alone and the final
    status update keeps them unless the game is over: they read the
    placeholder when nothing else wrote to them since the call.  Any other
    answer is not caught: its percentages are displayed whatever they are,
    "NaN%" twice when [prob] is missing and "0%" and "100%" when it is
    null, and on the opponent's turn a [best_move] that does not parse
    moves nothing and leads to the same fallback. *)
Theorem request_failure_falls_back st (rnd : Q) :
  (manualGameOver st = false -> game_over E (game st) = false ->
   let st1 := placeholders E st in
   whiteProbabilityEl st1 = "Calculating…"
   /\ blackProbabilityEl st1 = "Calculating…"
   /\ game st1 = game st /\ submitted st1 = submitted st
   /\ engineEvaluateAndAct E Awaits st = st1
   /\ (forall r, r = NoClient rnd \/ r = RaisesAtOnce rnd ->
         engineEvaluateAndAct E r st = finish E false rnd st1
         /\ (turn E (game st) = Black ->
             engineEvaluateAndAct E r st = redraw E (fallback E rnd st1) st1
             /\ forall st2,
                  fallback E rnd st1 = Some st2 ->
                  whiteProbabilityEl st2 = "Calculating…"
                  /\ blackProbabilityEl st2 = "Calculating…"
                  /\ let st3 := redraw E (Some st2) st1 in
                     whiteProbabilityEl st3
                     = (if game_over E (game st2) then "N/A" else "Calculating…")
                     /\ blackProbabilityEl st3
                        = (if game_over E (game st2) then "N/A"
                           else "Calculating…"))))
  /\ (forall a,
        a = Raises
        \/ (exists prob best_move,
              a = Binds prob best_move /\ JS.times prob (JS.Fin 100) = None) ->
        resume E a rnd st = finish E false rnd st
        /\ (turn E (game st) = Black -> game_over E (game st) = false ->
            resume E a rnd st = redraw E (fallback E rnd st) st
            /\ forall st2,
                 manualGameOver st = false -> fallback E rnd st = Some st2 ->
                 whiteProbabilityEl st2 = whiteProbabilityEl st
                 /\ blackProbabilityEl st2 = blackProbabilityEl st
                 /\ let st3 := redraw E (Some st2) st in
                    whiteProbabilityEl st3
                    = (if game_over E (game st2) then "N/A"
                       else whiteProbabilityEl st)
                    /\ blackProbabilityEl st3
                       = (if game_over E (game st2) then "N/A"
                          else blackProbabilityEl st)))
  /\ (forall prob best_move product,
        JS.times prob (JS.Fin 100) = Some product ->
        let '(moved, st1) := applyEvaluation E prob best_move st in
        let wPct := JS.Math_round product in
        whiteProbabilityEl st1 = percent wPct
        /\ blackProbabilityEl st1 = percent (JS.sub (JS.Fin 100) wPct)
        /\ (turn E (game st) = Black -> game_over E (game st) = false ->
            uciToMove best_move = None ->
            moved = false
            /\ resume E (Binds prob best_move) rnd st
               = redraw E (fallback E rnd st1) st1))
  /\ (forall best_move,
        let st1 := snd (applyEvaluation E JS.VUndefined best_move st) in
        whiteProbabilityEl st1 = "NaN%" /\ blackProbabilityEl st1 = "NaN%")
  /\ (forall best_move,
        let st1 := snd (applyEvaluation E JS.VNull best_move st) in
        whiteProbabilityEl st1 = "0%" /\ blackProbabilityEl st1 = "100%").
Proof.
  split; [|split; [|split; [|split]]].
  4:{ intros best_move.
      destruct (applyEvaluation_displays E JS.VUndefined best_move JS.NaN st
                  eq_refl) as (W & B & _).
      split; [exact W | exact B]. }
  4:{ intros best_move.
      destruct (applyEvaluation_displays E JS.VNull best_move (JS.Fin 0) st
                  eq_refl) as (W & B & _).
      split; [exact W | exact B]. }
  - intros M O. cbv zeta. do 4 (split; [reflexivity|]).
    assert (forall r, engineEvaluateAndAct E r st
                      = match r with
                        | NoClient rnd' | RaisesAtOnce rnd' =>
                            finish E false rnd' (placeholders E st)
                        | Awaits => placeholders E st
                        end) as C
        by (intros r; unfold engineEvaluateAndAct; now rewrite M, O).
    split; [apply (C Awaits)|].
    intros r F.
    assert (engineEvaluateAndAct E r st = finish E false rnd (placeholders E st))
      as C' by (rewrite C; destruct F as [-> | ->]; reflexivity).
    split; [exact C'|]. intros T. split.
    + rewrite C'. now apply finish_fallback.
    + intros st2 F2. destruct (fallback_displays _ _ _ F2) as (W & B & _).
      split; [exact W|]. split; [exact B|].
      exact (redraw_displays rnd (placeholders E st) st2 M F2).
  - intros a F.
    assert (resume E a rnd st = finish E false rnd st) as C.
    { destruct F as [-> | (prob & best_move & -> & T)]; [reflexivity|].
      unfold resume. now rewrite (applyEvaluation_raises E prob best_move st T). }
    split; [exact C|]. intros T O. split.
    + rewrite C. now apply finish_fallback.
    + intros st2 M F2. destruct (fallback_displays _ _ _ F2) as (W & B & _).
      split; [exact W|]. split; [exact B|].
      exact (redraw_displays rnd st st2 M F2).
  - intros prob best_move product Tm.
    assert (resume E (Binds prob best_move) rnd st
            = let '(moved, st1) := applyEvaluation E prob best_move st in
              finish E moved rnd st1) as C by reflexivity.
    pose proof (showProbabilities_spec E prob st) as S. rewrite Tm in S.
    destruct S as (st0 & S & W & B & _ & G0 & _).
    unfold applyEvaluation in *. rewrite S in *.
    pose proof (applyBestMove_spec E best_move st0) as H.
    destruct (applyBestMove E best_move st0) as [moved st1].
    destruct H as (W1 & B1 & _ & _ & G & N & _).
    cbv zeta. split; [now rewrite W1|]. split; [now rewrite B1|].
    intros T O U. destruct (N (or_intror U)) as [-> _]. split; [reflexivity|].
    rewrite C. rewrite G0 in G. apply finish_fallback; now rewrite (G eq_refl).
Qed.

End Fallback.
(* ================================================================= *)
(** ** The gate and the legality of the pending move *)

Section Gate.
Variable E : Chess.
Implicit Types st : State E.

Lemma gate_opens (sel sq : string) st :
  live E st -> selectedSquare st = Some sel -> sel <> "" ->
  reselects E st sel sq = false ->
  (exists p, get E (game st) sel = Some p /\ type p = Pawn /\ color p = White) ->
  JS.at_ 1 sq = Some "8" ->
  let st' := onSquareClick E sq st in
  promotionModal st' = true
  /\ pendingPromotion st' = Some (Pending.mk sel sq White)
  /\ game st' = game st /\ submitted st' = submitted st.
Proof.
  intros L S N R P K. cbv zeta.
  rewrite (click_gate E st sel sq L S N R); [repeat split; reflexivity|].
  apply shouldPromptPromotion_white. now split.
Qed.

Lemma illegal_choice_rejected (pending : Pending.t) (piece : option string) st :
  Laws.move_is_legal E ->
  pendingPromotion st = Some pending ->
  ~ In (Pending.to pending) (destinations E (game st) (Pending.from pending)) ->
  let st' := onPromotionClick E (Some piece) st in
  game st' = game st /\ pendingPromotion st' = None
  /\ promotionModal st' = false
  /\ submitted st'
     = (submitted st
        ++ [Req.mk (Pending.from pending) (Pending.to pending) piece])%list.
Proof.
  intros ML P D. cbv zeta.
  destruct (promotion_choice E st pending piece P) as (L & P' & M' & G).
  destruct (move E (game st) _) as [g'|] eqn:Mv.
  - exfalso. apply D. exact (ML _ _ _ Mv).
  - repeat split; assumption.
Qed.

End Gate.

(* ================================================================= *)
(** ** The handlers on the reference engine *)

(** C1 fails on the code.  After 1. a4 b5 2. axb5 a6 3. bxa6 Bb7 4. axb7
    Nc6, the human picks up the pawn on b7 and clicks a8: the handler
    records the pending promotion and returns while the selection is still
    active, so both are non-empty at once. *)
Theorem selection_and_pending_promotion_coexist :
  let st := run Ref.engine (loaded Ref.engine)
                (Demo.pawn_to_b7 ++ [CellClick "b7"; CellClick "a8"]) in
  selectedSquare st = Some "b7"
  /\ pendingPromotion st = Some (Pending.mk "b7" "a8" White)
  /\ promotionModal st = true.
Proof. vm_compute. repeat split; reflexivity. Qed.

(** The selection outlives the promotion itself: the choice of a piece
    clears the pending record, not the selection. *)
Example selection_outlives_promotion :
  let st := run Ref.engine Demo.promotion_pending [PromotionClick (Some (Some "r"))] in
  selectedSquare st = Some "b7" /\ pendingPromotion st = None
  /\ get Ref.engine (game st) "a8" = Some (mkPiece Rook White)
  /\ get Ref.engine (game st) "b7" = None.
Proof. vm_compute. repeat split; reflexivity. Qed.

(** C2 fails on the code.  With the promotion b7-a8 pending, the knights
    go out and back twice and the game ends by threefold repetition; the
    cells are blocked from then on, but the promotion buttons are not: a
    click on the queen button submits b7-a8 to the rules engine, which plays
    it, and the finished game goes on with the opponent to move. *)
Theorem promotion_button_moves_after_the_game_is_over :
  let st := Demo.drawn_with_promotion_pending in
  let st' := onPromotionClick Ref.engine (Some (Some "q")) st in
  game_over Ref.engine (game st) = true
  /\ in_threefold_repetition Ref.engine (game st) = true
  /\ statusEl st = "Threefold repetition. Draw!"
  /\ turn Ref.engine (game st) = White
  /\ pendingPromotion st = Some (Pending.mk "b7" "a8" White)
  /\ (forall sq, onSquareClick Ref.engine sq st = st)
  /\ submitted st' = (submitted st ++ [Req.mk "b7" "a8" (Some "q")])%list
  /\ get Ref.engine (game st) "a8" = Some (mkPiece Rook Black)
  /\ get Ref.engine (game st') "a8" = Some (mkPiece Queen White)
  /\ get Ref.engine (game st') "b7" = None
  /\ turn Ref.engine (game st') = Black
  /\ game_over Ref.engine (game st') = false
  /\ statusEl st' = "Mahmoud to move."
  /\ timers st' = (timers st ++ [450%nat])%list.
Proof.
  cbv zeta.
  assert (game_over Ref.engine (game Demo.drawn_with_promotion_pending) = true)
    as O by (vm_compute; reflexivity).
  do 5 (split; [vm_compute; reflexivity|]).
  split; [intros sq; apply click_guarded; now right|].
  vm_compute. repeat split; reflexivity.
Qed.

Lemma cell_clicks_blocked_witness :
  game_over Ref.engine (game Demo.mated) = true
  /\ (forall sq, let st' := onSquareClick Ref.engine sq Demo.mated in
                 game st' = game Demo.mated
                 /\ submitted st' = submitted Demo.mated)
  /\ (forall sqs, let st' := run Ref.engine Demo.mated (map CellClick sqs) in
                  game st' = game Demo.mated
                  /\ submitted st' = submitted Demo.mated).
Proof.
  assert (game_over Ref.engine (game Demo.mated) = true) as H
    by (vm_compute; reflexivity).
  split; [exact H|].
  exact (cell_clicks_blocked_off_turn_or_game_over Ref.engine Demo.mated
           (or_intror H)).
Defined.

Lemma live_b7_selected : live Ref.engine Demo.b7_selected.
Proof. vm_compute. repeat split; reflexivity. Qed.

Lemma b7_is_selected : selected Ref.engine Demo.b7_selected "b7".
Proof. split; [|split]; [vm_compute; reflexivity | discriminate | vm_compute; reflexivity]. Qed.

Lemma a8_is_legal_from_b7 :
  In "a8" (destinations Ref.engine (game Demo.b7_selected) "b7").
Proof. vm_compute. tauto. Qed.

(** C3 as worded fails: with the pawn on b7 selected, a8 is in its
    legal-destination set (it takes the rook), and the click on a8 leaves
    the position and the side to move as they were. *)
Lemma legal_click_on_rank_8_does_not_move :
  ~ legal_click_always_moves Ref.engine.
Proof.
  intros H.
  destruct (H Demo.b7_selected "b7" "a8" live_b7_selected b7_is_selected
              a8_is_legal_from_b7) as [_ T].
  revert T. vm_compute. discriminate.
Qed.

Lemma legal_click_witness :
  let st' := onSquareClick Ref.engine "e4" Demo.e2_selected in
  (In "e4" (destinations Ref.engine (game Demo.e2_selected) "e2") ->
   if shouldPromptPromotion Ref.engine (game Demo.e2_selected) "e2" "e4" White
   then game st' = game Demo.e2_selected
        /\ pendingPromotion st' = Some (Pending.mk "e2" "e4" White)
   else exists g',
          move Ref.engine (game Demo.e2_selected) (Req.mk "e2" "e4" (Some "q"))
          = Some g'
          /\ game st' = g'
          /\ turn Ref.engine g' = opposite (turn Ref.engine (game Demo.e2_selected)))
  /\ (~ In "e4" (destinations Ref.engine (game Demo.e2_selected) "e2") ->
      game st' = game Demo.e2_selected).
Proof.
  apply (legal_click_moves_unless_promotion Ref.engine Demo.e2_selected "e2" "e4"
           RefLaws.ref_move_flips_turn RefLaws.ref_move_is_legal
           RefLaws.ref_legal_with_queen_accepted RefLaws.ref_no_self_capture).
  - vm_compute. repeat split; reflexivity.
  - split; [|split]; [vm_compute; reflexivity | discriminate | vm_compute; reflexivity].
Defined.

(** C4 as worded fails: with the promotion b7-a8 pending and the modal
    open, the cells still answer: a click on g1 picks up the knight and a
    click on f3 plays it, so the position changes while the promotion is
    pending. *)
Lemma cells_answer_while_promotion_is_pending :
  ~ unchanged_while_pending Ref.engine.
Proof.
  intros H.
  specialize (H (run Ref.engine Demo.promotion_pending [CellClick "g1"]) "f3").
  assert (get Ref.engine
            (game (onSquareClick Ref.engine "f3"
                     (run Ref.engine Demo.promotion_pending [CellClick "g1"])))
            "f3"
          = get Ref.engine
              (game (run Ref.engine Demo.promotion_pending [CellClick "g1"]))
              "f3") as G.
  { rewrite H; [reflexivity|]. vm_compute. discriminate. }
  revert G. vm_compute. discriminate.
Qed.

Example knight_moves_while_promotion_is_pending :
  let st := run Ref.engine Demo.promotion_pending
                [CellClick "g1"; CellClick "f3"] in
  pendingPromotion st = Some (Pending.mk "b7" "a8" White)
  /\ promotionModal st = true
  /\ get Ref.engine (game st) "f3" = Some (mkPiece Knight White)
  /\ turn Ref.engine (game st) = Black.
Proof. vm_compute. repeat split; reflexivity. Qed.

Lemma promotion_routed_witness :
  (let st' := onSquareClick Ref.engine "a8" Demo.b7_selected in
   pendingPromotion st' = Some (Pending.mk "b7" "a8" White)
   /\ promotionModal st' = true
   /\ game st' = game Demo.b7_selected
   /\ submitted st' = submitted Demo.b7_selected)
  /\ (let r := Req.mk "b7" "a8" (Some "r") in
      let st' := onPromotionClick Ref.engine (Some (Some "r")) Demo.promotion_pending in
      submitted st' = (submitted Demo.promotion_pending ++ [r])%list
      /\ pendingPromotion st' = None /\ promotionModal st' = false
      /\ match move Ref.engine (game Demo.promotion_pending) r with
         | Some g' => game st' = g'
         | None => game st' = game Demo.promotion_pending
         end).
Proof.
  split.
  - apply (proj1 (proj2 (promotion_routed_through_modal Ref.engine Demo.b7_selected))
             "b7" "a8").
    + exact live_b7_selected.
    + vm_compute; reflexivity.
    + discriminate.
    + vm_compute; reflexivity.
    + vm_compute; reflexivity.
  - apply (proj2 (proj2 (promotion_routed_through_modal Ref.engine Demo.promotion_pending))
             (Pending.mk "b7" "a8" White) (Some "r")).
    vm_compute; reflexivity.
Defined.

Lemma status_witness :
  if game_over Ref.engine (game Demo.mated)
  then exists t, spec_terminal Ref.engine (game Demo.mated) = Some t
                 /\ statusEl (updateStatus Ref.engine Demo.mated)
                    = terminal_status t (turn Ref.engine (game Demo.mated))
                 /\ whoIsWinningEl (updateStatus Ref.engine Demo.mated)
                    = terminal_banner t (turn Ref.engine (game Demo.mated))
  else statusEl (updateStatus Ref.engine Demo.mated)
       = turn_status Ref.engine (game Demo.mated).
Proof.
  apply (status_follows_precedence Ref.engine Demo.mated).
  vm_compute; reflexivity.
Defined.

(** The fool's mate of the specification's example. *)
Example checkmate_status :
  statusEl Demo.mated = "Checkmate. Mahmoud won!"
  /\ whoIsWinningEl Demo.mated = "Mahmoud won!"
  /\ whiteProbabilityEl Demo.mated = "N/A"
  /\ blackProbabilityEl Demo.mated = "N/A".
Proof. vm_compute. repeat split; reflexivity. Qed.

Lemma percentages_witness :
  let st' := snd (applyEvaluation Ref.engine Demo.half (JS.VString "e7e5")
                                  Demo.after_e4) in
  whiteProbabilityEl st' = "50%" /\ blackProbabilityEl st' = "50%"
  /\ whoIsWinningEl st' = "Balanced".
Proof.
  destruct (percentages_sum_to_100 Ref.engine Demo.after_e4 (1 # 2)
              (JS.VString "e7e5") ltac:(discriminate) ltac:(discriminate))
    as (x & w & b & _ & _ & _ & _ & _ & _ & _ & H).
  apply H. reflexivity.
Defined.

(** The product is rounded to a double before [Math.round] sees it: 0.495
    times 100 is 49.5 as a double, and is shown as 50; and three quarters
    are shown as 75 and 25. *)
Example percentages_of_doubles :
  let shows p :=
    let st := snd (applyEvaluation Ref.engine (JS.VNumber (JS.Fin p))
                                   JS.VUndefined Demo.after_e4) in
    (whiteProbabilityEl st, blackProbabilityEl st, whoIsWinningEl st) in
  shows (4458563631096791 # 9007199254740992) = ("50%", "50%", "Balanced")
  /\ shows (3 # 4) = ("75%", "25%", "You")
  /\ shows (1 # 4) = ("25%", "75%", "Mahmoud").
Proof. vm_compute. repeat split; reflexivity. Qed.

(** C7 as worded fails on the lowercase form of a capital I with a dot,
    which is two code units long: the string of that letter, "a" and "b"
    is 3 code units long, trimmed or not, and is parsed as a move. *)
Lemma three_characters_are_parsed :
  ~ null_below_four_characters.
Proof.
  intros H. specialize (H (String 304 "ab") ltac:(vm_compute; lia)).
  revert H. vm_compute. discriminate.
Qed.

Example strings_read_as_moves :
  uciToMove (JS.VString " A2A1K ") = Some (Req.mk "a2" "a1" (Some "k"))
  /\ uciToMove (JS.VString "e2e4") = Some (Req.mk "e2" "e4" None)
  /\ uciToMove (JS.VString "abc ") = None
  /\ uciToMove (JS.VString "") = None
  /\ uciToMove JS.VNull = None
  /\ uciToMove (JS.VNumber (JS.Fin 1234)) = None.
Proof. vm_compute. repeat split; reflexivity. Qed.

Example dotted_capital_I :
  String.length (JS.trim (String 304 "ab")) = 3%nat
  /\ JS.toLowerCase (String 304 "ab") = String 105 (String 775 "ab")
  /\ uciToMove (JS.VString (String 304 "ab"))
     = Some (Req.mk (String 105 (String 775 "")) "ab" None).
Proof. vm_compute. repeat split; reflexivity. Qed.

Lemma uciToMove_witness :
  uciToMove (JS.VString "abc ") = None
  /\ (exists from to rest,
        JS.toLowerCase "A2A1K" = from ++ to ++ rest
        /\ String.length from = 2%nat /\ String.length to = 2%nat
        /\ uciToMove (JS.VString " A2A1K ")
           = Some (Req.mk from to (promotion_of rest)))
  /\ (let mv := Req.mk "a2" "a1" (Some "k") in
      let alt := Req.mk (Req.from mv) (Req.to mv) (Some "q") in
      let '(moved, st1) :=
        applyEvaluation Ref.engine Demo.half (JS.VString " A2A1K ")
                        Demo.black_promotes in
      submitted st1 = (submitted Demo.black_promotes ++ [mv; alt])%list
      /\ match move Ref.engine (game Demo.black_promotes) alt with
         | Some g' => moved = true /\ game st1 = g'
         | None =>
             moved = false /\ game st1 = game Demo.black_promotes
             /\ resume Ref.engine (Binds Demo.half (JS.VString " A2A1K ")) 0
                       Demo.black_promotes
                = redraw Ref.engine (fallback Ref.engine 0 st1) st1
         end).
Proof.
  pose proof (uciToMove_parses_and_engine_retries_queen Ref.engine)
    as (_ & _ & S & P & R & _ & _).
  split; [|split].
  - apply (S "abc " "abc"); [exact (trim_spec "abc ") | vm_compute; lia].
  - apply (P " A2A1K " "A2A1K");
      [discriminate | exact (trim_spec " A2A1K ") | vm_compute; lia].
  - apply (R Demo.black_promotes Demo.half (JS.VString " A2A1K ")
             (JS.Fin 50) (Req.mk "a2" "a1" (Some "k")) 0%Q);
      vm_compute; reflexivity.
Defined.

(** The retried move is the one that is played: the pawn arrives on a1 as a
    queen. *)
Example retry_with_queen_is_played :
  let st := resume Ref.engine (Binds Demo.half (JS.VString " A2A1K ")) 0
                   Demo.black_promotes in
  get Ref.engine (game st) "a1" = Some (mkPiece Queen Black)
  /\ lastAIMoveUCI st = Some "a2a1q".
Proof. vm_compute. split; reflexivity. Qed.

Lemma fifteen_sixteenths : is_double (15 # 16).
Proof. exists 15%Z, (-4)%Z. repeat split; try lia. Qed.

Lemma fallback_witness :
  let ms := moves Ref.engine (game Demo.black_promotes) None in
  let n := inject_Z (Z.of_nat (length ms)) in
  exists i m,
    (i < length ms)%nat /\ nth_error ms i = Some m
    /\ (inject_Z (Z.of_nat i) - (1 # 1048576) < (15 # 16) * n)%Q
    /\ ((15 # 16) * n < inject_Z (Z.of_nat i) + 1)%Q
    /\ pick (15 # 16) ms = Some m
    /\ exists r st',
         fallback Ref.engine (15 # 16) Demo.black_promotes = Some st'
         /\ submitted st' = (submitted Demo.black_promotes ++ [r])%list
         /\ Req.from r = Move.from m /\ Req.to r = Move.to m
         /\ (carries (Move.flags m) "p" -> Req.promotion r = Some "q")
         /\ (~ carries (Move.flags m) "p" ->
             Req.promotion r = Move.promotion m)
         /\ (Laws.promotion_flagged Ref.engine ->
             (Req.promotion r = Some "q" <-> carries (Move.flags m) "p")).
Proof.
  apply (fallback_draws_uniformly_and_promotes_to_queen Ref.engine
           Demo.black_promotes (15 # 16)).
  - vm_compute. discriminate.
  - vm_compute. reflexivity.
  - exact fifteen_sixteenths.
  - vm_compute. discriminate.
  - vm_compute. reflexivity.
Defined.

(** The draw at fifteen sixteenths: the last of the nine moves, a promotion
    to knight in the engine's list, is submitted with the queen. *)
Example fallback_promotes_to_queen :
  let ms := moves Ref.engine (game Demo.black_promotes) None in
  length ms = 9%nat
  /\ option_map (fun m => (Move.from m, Move.to m, Move.flags m, Move.promotion m))
                (pick (15 # 16) ms)
     = Some ("a2", "a1", "np", Some "n")
  /\ option_map (fun st => (submitted st, get Ref.engine (game st) "a1"))
                (fallback Ref.engine (15 # 16) Demo.black_promotes)
     = Some ([Req.mk "a2" "a1" (Some "q")], Some (mkPiece Queen Black)).
Proof. vm_compute. repeat split; reflexivity. Qed.

(** The index is the integer part of the rounded product: with twenty
    moves and [Math.random()] at 0.95 as a double the product is 19 as a
    double, and the last move is drawn. *)
Example draw_rounds_the_product :
  JS.Math_floor (JS.mul (JS.Fin (4278419646001971 # 4503599627370496))
                        (JS.Fin 20))
  = JS.Fin 19
  /\ Qfloor ((4278419646001971 # 4503599627370496) * 20) = 18%Z.
Proof. vm_compute. split; reflexivity. Qed.

(** C9 as worded fails: an empty response object is a malformed response,
    it raises nothing, and the displays read "NaN%" when the fallback test
    is reached. *)
Lemma malformed_response_is_displayed :
  ~ failure_keeps_calculating Ref.engine.
Proof.
  intros H.
  assert (malformed (Binds JS.VUndefined JS.VUndefined)) as F
    by (left; intros n; discriminate).
  specialize (H Demo.after_e4 (Binds JS.VUndefined JS.VUndefined)
                ltac:(vm_compute; reflexivity) ltac:(vm_compute; reflexivity)
                (or_intror F)).
  revert H. vm_compute. intros (_ & W & _). discriminate.
Qed.

(** What is displayed for a response without [prob], and for one whose
    [prob] is null. *)
Example malformed_responses_shown :
  let shows a :=
    let st := run Ref.engine Demo.after_e4
                  [EngineCycle Awaits; AnswerArrives a (1 # 4)] in
    (whiteProbabilityEl st, blackProbabilityEl st, whoIsWinningEl st,
     turn Ref.engine (game st)) in
  shows (Binds JS.VUndefined JS.VUndefined) = ("NaN%", "NaN%", "Mahmoud", White)
  /\ shows (Binds JS.VNull JS.VUndefined) = ("0%", "100%", "Mahmoud", White)
  /\ shows (Binds JS.VSymbol JS.VUndefined)
     = ("Calculating…", "Calculating…", "", White)
  /\ shows Raises = ("Calculating…", "Calculating…", "", White).
Proof. vm_compute. repeat split; reflexivity. Qed.

(** A failure leaves the displays as it finds them: when an earlier
    answer was shown while the request was outstanding, its percentages
    stay. *)
Example late_failure_keeps_what_is_shown :
  let st := run Ref.engine Demo.after_e4
                [EngineCycle Awaits; EngineCycle Awaits;
                 AnswerArrives (Binds Demo.half (JS.VString "e7e5")) 0;
                 AnswerArrives Raises (1 # 4)] in
  whiteProbabilityEl st = "50%" /\ blackProbabilityEl st = "50%"
  /\ turn Ref.engine (game st) = White
  /\ submitted st = (submitted Demo.after_e4 ++ [Req.mk "e7" "e5" None])%list.
Proof. vm_compute. repeat split; reflexivity. Qed.

Lemma request_failure_witness :
  (let st1 := placeholders Ref.engine Demo.after_e4 in
   whiteProbabilityEl st1 = "Calculating…"
   /\ blackProbabilityEl st1 = "Calculating…"
   /\ game st1 = game Demo.after_e4 /\ submitted st1 = submitted Demo.after_e4
   /\ engineEvaluateAndAct Ref.engine Awaits Demo.after_e4 = st1
   /\ (forall r, r = NoClient (1 # 4) \/ r = RaisesAtOnce (1 # 4) ->
         engineEvaluateAndAct Ref.engine r Demo.after_e4
         = finish Ref.engine false (1 # 4) st1
         /\ (turn Ref.engine (game Demo.after_e4) = Black ->
             engineEvaluateAndAct Ref.engine r Demo.after_e4
             = redraw Ref.engine (fallback Ref.engine (1 # 4) st1) st1
             /\ forall st2,
                  fallback Ref.engine (1 # 4) st1 = Some st2 ->
                  whiteProbabilityEl st2 = "Calculating…"
                  /\ blackProbabilityEl st2 = "Calculating…"
                  /\ let st3 := redraw Ref.engine (Some st2) st1 in
                     whiteProbabilityEl st3
                     = (if game_over Ref.engine (game st2) then "N/A"
                        else "Calculating…")
                     /\ blackProbabilityEl st3
                        = (if game_over Ref.engine (game st2) then "N/A"
                           else "Calculating…"))))
  /\ (let st := engineEvaluateAndAct Ref.engine Awaits Demo.after_e4 in
      resume Ref.engine Raises (1 # 4) st = finish Ref.engine false (1 # 4) st).
Proof.
  split.
  - apply (proj1 (request_failure_falls_back Ref.engine Demo.after_e4 (1 # 4))).
    + vm_compute; reflexivity.
    + vm_compute; reflexivity.
  - exact (proj1 (proj1 (proj2 (request_failure_falls_back Ref.engine
                                  (engineEvaluateAndAct Ref.engine Awaits
                                                        Demo.after_e4)
                                  (1 # 4)))
                        Raises (or_introl eq_refl))).
Defined.

Lemma h8_is_not_legal_from_a2 :
  ~ In "h8" (destinations Ref.engine (game Demo.a2_selected) "a2").
Proof. vm_compute. intros [H | [H | []]]; discriminate. Qed.

(** C10: the promotion test holds exactly when the piece on the source cell
    is a white pawn and the second character of the target is "8", whatever
    the rules engine says of the move; so every move attempt of a selected
    white pawn towards a cell of rank 8 records the pending promotion and
    opens the modal, with nothing submitted.  The engine sees the move when
    a piece is chosen: a pending move outside the legal-destination set is
    rejected, and the position stays as it was.  From the starting position,
    the pawn on a2 and a click on h8 open the modal for a move that is not
    legal. *)
Theorem promotion_gate_ignores_legality :
  (forall (E : Chess) (g : game_t E) (from to : string),
      shouldPromptPromotion E g from to White = true
      <-> (exists p, get E g from = Some p /\ type p = Pawn /\ color p = White)
          /\ JS.at_ 1 to = Some "8")
  /\ (forall (E : Chess) (st : State E) (sel sq : string),
        live E st -> selectedSquare st = Some sel -> sel <> "" ->
        reselects E st sel sq = false ->
        (exists p, get E (game st) sel = Some p /\ type p = Pawn /\ color p = White) ->
        JS.at_ 1 sq = Some "8" ->
        let st' := onSquareClick E sq st in
        promotionModal st' = true
        /\ pendingPromotion st' = Some (Pending.mk sel sq White)
        /\ game st' = game st /\ submitted st' = submitted st)
  /\ (forall (E : Chess) (st : State E) (pending : Pending.t) (piece : option string),
        Laws.move_is_legal E ->
        pendingPromotion st = Some pending ->
        ~ In (Pending.to pending)
             (destinations E (game st) (Pending.from pending)) ->
        let st' := onPromotionClick E (Some piece) st in
        game st' = game st /\ pendingPromotion st' = None
        /\ promotionModal st' = false
        /\ submitted st'
           = (submitted st
              ++ [Req.mk (Pending.from pending) (Pending.to pending) piece])%list)
  /\ (exists (st : State Ref.engine) (sel sq : string),
        live Ref.engine st /\ selectedSquare st = Some sel
        /\ ~ In sq (destinations Ref.engine (game st) sel)
        /\ promotionModal (onSquareClick Ref.engine sq st) = true
        /\ pendingPromotion (onSquareClick Ref.engine sq st)
           = Some (Pending.mk sel sq White)).
Proof.
  split; [|split; [|split]].
  - intros E g from to. apply shouldPromptPromotion_white.
  - intros E st sel sq. apply gate_opens.
  - intros E st pending piece. apply illegal_choice_rejected.
  - exists Demo.a2_selected, "a2", "h8".
    split; [vm_compute; repeat split; reflexivity|].
    split; [vm_compute; reflexivity|].
    split; [exact h8_is_not_legal_from_a2|].
    vm_compute. split; reflexivity.
Qed.

Lemma promotion_gate_witness :
  (let st' := onSquareClick Ref.engine "h8" Demo.a2_selected in
   promotionModal st' = true
   /\ pendingPromotion st' = Some (Pending.mk "a2" "h8" White)
   /\ game st' = game Demo.a2_selected
   /\ submitted st' = submitted Demo.a2_selected)
  /\ (let st := onSquareClick Ref.engine "h8" Demo.a2_selected in
      let st' := onPromotionClick Ref.engine (Some (Some "q")) st in
      game st' = game st /\ pendingPromotion st' = None
      /\ promotionModal st' = false
      /\ submitted st' = (submitted st ++ [Req.mk "a2" "h8" (Some "q")])%list).
Proof.
  pose proof promotion_gate_ignores_legality as (_ & G & R & _).
  split.
  - apply (G Ref.engine Demo.a2_selected "a2" "h8").
    + vm_compute. repeat split; reflexivity.
    + vm_compute. reflexivity.
    + discriminate.
    + vm_compute. reflexivity.
    + exists (mkPiece Pawn White). vm_compute. repeat split; reflexivity.
    + reflexivity.
  - apply (R Ref.engine (onSquareClick Ref.engine "h8" Demo.a2_selected)
             (Pending.mk "a2" "h8" White) (Some "q") RefLaws.ref_move_is_legal).
    + vm_compute. reflexivity.
    + vm_compute. intros [H | [H | []]]; discriminate.
Defined.
(* ================================================================= *)
(** ** Further properties: the board and its drawing *)

Lemma squares_distinct : NoDup squares.
Proof.
  vm_compute.
  repeat (constructor;
          [intros H; repeat (destruct H as [H|H]; [discriminate H|]); exact H|]).
  constructor.
Qed.

(** X1: the grid has 64 cells whose names are pairwise distinct and are the
    cells the handlers look up, a8 first and h1 last; the cell of row [i]
    and column [j] is light exactly when [i + j] is even, so that
    neighbours in a row or in a column never share a colour. *)
Theorem board_grid_is_a_checkerboard :
  length createBoardGrid = 64%nat
  /\ NoDup (map fst createBoardGrid)
  /\ map fst createBoardGrid = squares
  /\ forall i j, (i < 8)%nat -> (j < 8)%nat ->
       nth_error createBoardGrid (i * 8 + j)
       = Some (cell i j, if Nat.even (i + j) then "sq light" else "sq dark").
Proof.
  assert (map fst createBoardGrid = squares) as E by (vm_compute; reflexivity).
  split; [vm_compute; reflexivity|]. split; [|split; [exact E|]].
  - rewrite E. exact squares_distinct.
  - intros i j Hi Hj.
    do 8 (destruct i as [|i];
          [do 8 (destruct j as [|j]; [vm_compute; reflexivity|]); lia|]).
    lia.
Qed.

Lemma board_grid_witness :
  nth_error createBoardGrid (7 * 8 + 0) = Some ("a1", "sq dark")
  /\ nth_error createBoardGrid (7 * 8 + 7) = Some ("h1", "sq light").
Proof.
  destruct board_grid_is_a_checkerboard as (_ & _ & _ & H). split.
  - apply (H 7%nat 0%nat); lia.
  - apply (H 7%nat 7%nat); lia.
Defined.

(** X2: the twelve piece codes are drawn with twelve different glyphs, none
    of them the question mark; every other string is drawn as "?", unless it
    names a member that every object inherits from [Object.prototype]: the
    lookup then finds that member, which is no string. *)
Theorem glyphs_tell_the_pieces_apart :
  (forall p q : Piece,
      pieceToGlyph (piece_code p) = pieceToGlyph (piece_code q) -> p = q)
  /\ (forall p : Piece,
        exists glyph, pieceToGlyph (piece_code p) = JS.VString glyph
                      /\ glyph <> "?")
  /\ (forall code : string,
        (forall p : Piece, code <> piece_code p) ->
        ~ In code JS.Object_prototype ->
        pieceToGlyph code = JS.VString "?")
  /\ (forall code : string,
        In code JS.Object_prototype ->
        forall s, pieceToGlyph code <> JS.VString s).
Proof.
  split; [|split; [|split]].
  - intros [[] []] [[] []]; vm_compute; intros H; try reflexivity; discriminate H.
  - intros [[] []]; eexists; (split; [vm_compute; reflexivity | discriminate]).
  - intros code H P. unfold pieceToGlyph, JS.member. cbn [find fst snd].
    repeat match goal with
           | |- context [?k =? code] =>
               destruct (StringFacts.eqb_spec k code) as [Heq | _];
               [exfalso; subst code|]
           end.
    13:{ destruct (existsb (String.eqb code) JS.Object_prototype) eqn:X;
           [|reflexivity].
         exfalso. apply P. apply existsb_exists in X. destruct X as (k & K & X).
         apply StringFacts.eqb_eq in X. now subst. }
    all: first
      [ apply (H (mkPiece Pawn White)); reflexivity
      | apply (H (mkPiece Rook White)); reflexivity
      | apply (H (mkPiece Knight White)); reflexivity
      | apply (H (mkPiece Bishop White)); reflexivity
      | apply (H (mkPiece Queen White)); reflexivity
      | apply (H (mkPiece King White)); reflexivity
      | apply (H (mkPiece Pawn Black)); reflexivity
      | apply (H (mkPiece Rook Black)); reflexivity
      | apply (H (mkPiece Knight Black)); reflexivity
      | apply (H (mkPiece Bishop Black)); reflexivity
      | apply (H (mkPiece Queen Black)); reflexivity
      | apply (H (mkPiece King Black)); reflexivity ].
  - intros code H s.
    repeat (destruct H as [<- | H]; [vm_compute; discriminate|]). destruct H.
Qed.

Lemma glyphs_witness :
  pieceToGlyph "xx" = JS.VString "?"
  /\ (forall s, pieceToGlyph "constructor" <> JS.VString s)
  /\ (pieceToGlyph (piece_code (mkPiece King White))
      = pieceToGlyph (piece_code (mkPiece King White)) ->
      mkPiece King White = mkPiece King White).
Proof.
  destruct glyphs_tell_the_pieces_apart as (I & _ & Q & O). split; [|split].
  - apply Q.
    + intros [[] []]; discriminate.
    + vm_compute. intuition discriminate.
  - apply O. vm_compute. tauto.
  - apply I.
Defined.

Example glyphs_of_inherited_names :
  pieceToGlyph "wk" = JS.VString "♔"
  /\ pieceToGlyph "wK" = JS.VString "?"
  /\ pieceToGlyph "toString" = JS.VObject (Some JS.NaN).
Proof. vm_compute. repeat split; reflexivity. Qed.

Lemma in_numbered (l : list string) (p : nat * string) :
  In p (combine (seq 0 (length l)) l)
  <-> (fst p < length l)%nat /\ snd p = nth (fst p) l "".
Proof.
  destruct p as [i x]. cbn [fst snd]. split.
  - intros H. apply (In_nth _ _ (0%nat, "")) in H. destruct H as (n & Hn & Hp).
    rewrite length_combine, length_seq, Nat.min_id in Hn.
    rewrite (combine_nth _ _ _ _ _ (length_seq _ _)), seq_nth in Hp by assumption.
    injection Hp as <- <-. split; [assumption | reflexivity].
  - intros [Hi ->].
    replace (i, nth i l "") with (nth i (combine (seq 0 (length l)) l) (0%nat, "")).
    + apply nth_In. now rewrite length_combine, length_seq, Nat.min_id.
    + now rewrite (combine_nth _ _ _ _ _ (length_seq _ _)), seq_nth.
Qed.

Lemma cell_injective (i j i' j' : nat) :
  (i < 8)%nat -> (j < 8)%nat -> (i' < 8)%nat -> (j' < 8)%nat ->
  cell i j = cell i' j' -> i = i' /\ j = j'.
Proof.
  intros Hi Hj Hi' Hj'. unfold cell.
  assert (forall a b, (a < 8)%nat -> (b < 8)%nat ->
                      nth a files "" = nth b files "" -> a = b) as F.
  { intros a b Ha Hb.
    do 8 (destruct a as [|a]; [do 8 (destruct b as [|b];
            [intros H; try reflexivity; discriminate H|]); lia|]). lia. }
  assert (forall a b, (a < 8)%nat -> (b < 8)%nat ->
                      nth a ranks_down "" = nth b ranks_down "" -> a = b) as R.
  { intros a b Ha Hb.
    do 8 (destruct a as [|a]; [do 8 (destruct b as [|b];
            [intros H; try reflexivity; discriminate H|]); lia|]). lia. }
  assert (forall a, (a < 8)%nat -> exists c, nth a files "" = String c "") as F1.
  { intros a Ha. do 8 (destruct a as [|a]; [eexists; reflexivity|]). lia. }
  destruct (F1 j Hj) as [c Hc]. destruct (F1 j' Hj') as [c' Hc'].
  rewrite Hc, Hc'. cbn. intros [= E1 E2]. split.
  - now apply R.
  - apply F; try assumption. congruence.
Qed.

Section Drawing.
Variable E : Chess.
Implicit Types st : State E.

Lemma tokens_rendered st (sq : string) (t : string * JS.value) :
  In (sq, t) (tokens (renderPieces E st))
  <-> exists i j piece,
        (i < 8)%nat /\ (j < 8)%nat /\ sq = cell i j
        /\ board E (game st) i j = Some piece
        /\ t = ("pc " ++ piece_code piece, pieceToGlyph (piece_code piece)).
Proof.
  unfold renderPieces. cbn [tokens set_tokens game set_classes].
  rewrite in_flat_map. split.
  - intros (ir & Hir & H). rewrite in_flat_map in H. destruct H as (jf & Hjf & H).
    apply (in_numbered ranks_down) in Hir. apply (in_numbered files) in Hjf.
    destruct Hir as [Hi Hr], Hjf as [Hj Hf].
    destruct (board E (game st) (fst ir) (fst jf)) as [piece|] eqn:B; [|destruct H].
    destruct H as [[= <- <-] | []].
    exists (fst ir), (fst jf), piece. unfold cell, piece_code. rewrite Hr, Hf.
    repeat split; assumption.
  - intros (i & j & piece & Hi & Hj & -> & B & ->).
    exists (i, nth i ranks_down ""). split.
    + apply (in_numbered ranks_down). split; [exact Hi | reflexivity].
    + rewrite in_flat_map. exists (j, nth j files ""). split.
      * apply (in_numbered files). split; [exact Hj | reflexivity].
      * cbn [fst snd]. rewrite B. left. reflexivity.
Qed.

(** X3: after [renderPieces], a cell of the grid carries a token exactly
    when the engine's board has a piece there, and the token then shows
    that piece (its class and its glyph); no token lies outside the grid,
    and the position, the selection and the pending promotion are as
    before. *)
Theorem tokens_show_the_position st :
  let st' := renderPieces E st in
  (forall i j t, (i < 8)%nat -> (j < 8)%nat ->
      (In (cell i j, t) (tokens st')
       <-> exists piece,
             board E (game st) i j = Some piece
             /\ t = ("pc " ++ piece_code piece, pieceToGlyph (piece_code piece))))
  /\ (forall sq t, In (sq, t) (tokens st') ->
                   exists i j, (i < 8)%nat /\ (j < 8)%nat /\ sq = cell i j)
  /\ game st' = game st /\ selectedSquare st' = selectedSquare st
  /\ pendingPromotion st' = pendingPromotion st
  /\ submitted st' = submitted st.
Proof.
  cbv zeta. split; [|split; [|repeat split; reflexivity]].
  - intros i j t Hi Hj. rewrite tokens_rendered. split.
    + intros (i' & j' & piece & Hi' & Hj' & Hc & B & ->).
      destruct (cell_injective i j i' j' Hi Hj Hi' Hj' Hc) as [-> ->].
      exists piece. split; [assumption | reflexivity].
    + intros (piece & B & ->). exists i, j, piece. repeat split; assumption.
  - intros sq t H. apply tokens_rendered in H.
    destruct H as (i & j & _ & Hi & Hj & Hc & _). eauto.
Qed.

End Drawing.

Lemma tokens_witness :
  In (cell 7 4, ("pc wk", pieceToGlyph "wk"))
     (tokens (renderPieces Ref.engine (declared Ref.engine Ref.initial)))
  <-> exists piece,
        board Ref.engine Ref.initial 7 4 = Some piece
        /\ ("pc wk", pieceToGlyph "wk")
           = ("pc " ++ piece_code piece, pieceToGlyph (piece_code piece)).
Proof.
  apply (proj1 (tokens_show_the_position Ref.engine (declared Ref.engine Ref.initial))
           7%nat 4%nat ("pc wk", pieceToGlyph "wk")); lia.
Defined.

Example white_king_is_drawn_on_e1 :
  In ("e1", ("pc wk", JS.VString "♔"))
     (tokens (renderPieces Ref.engine (declared Ref.engine Ref.initial))).
Proof. vm_compute. tauto. Qed.

(* ================================================================= *)
(** ** Further properties: highlights and selection *)

Lemma pair_eqb_spec (a b : string * string) : pair_eqb a b = true <-> a = b.
Proof.
  destruct a as [a1 a2], b as [b1 b2]. unfold pair_eqb. cbn [fst snd].
  rewrite andb_true_iff, !StringFacts.eqb_eq. split; [intros [-> ->] | intros [= -> ->]]; auto.
Qed.

Lemma listed_spec (x : string * string) (cl : list (string * string)) :
  existsb (pair_eqb x) cl = true <-> In x cl.
Proof.
  rewrite existsb_exists. split.
  - intros (y & Hy & H). apply pair_eqb_spec in H. now subst.
  - intros H. exists x. split; [assumption | now apply pair_eqb_spec].
Qed.

Lemma classList_add_In (sq c : string) (cl : list (string * string)) (x : string * string) :
  In x (classList_add sq c cl) <-> In x cl \/ (has_cell sq = true /\ x = (sq, c)).
Proof.
  unfold classList_add. destruct (has_cell sq).
  - destruct (existsb (pair_eqb (sq, c)) cl) eqn:L.
    + apply listed_spec in L. split; [tauto|]. intros [H | [_ ->]]; assumption.
    + rewrite in_app_iff. cbn. split.
      * intros [H | [<- | []]]; auto.
      * intros [H | [_ ->]]; auto.
  - split; [tauto|]. intros [H | [H _]]; [assumption | discriminate].
Qed.

Lemma classList_add_NoDup (sq c : string) (cl : list (string * string)) :
  NoDup cl -> NoDup (classList_add sq c cl).
Proof.
  intros N. unfold classList_add. destruct (has_cell sq); [|assumption].
  destruct (existsb (pair_eqb (sq, c)) cl) eqn:L; [assumption|].
  apply NoDup_app; [assumption | repeat constructor; intros [] |].
  intros x Hx [<- | []].
  apply listed_spec in Hx. congruence.
Qed.

Lemma fold_classList (ms : list Move.t) (cl : list (string * string)) :
  let cl' := fold_left (fun cl m => classList_add (Move.to m) (highlight_class m) cl)
                       ms cl in
  (forall x, In x cl'
             <-> In x cl
                 \/ exists m, In m ms /\ has_cell (Move.to m) = true
                              /\ x = (Move.to m, highlight_class m))
  /\ (NoDup cl -> NoDup cl').
Proof.
  cbv zeta. revert cl. induction ms as [|m ms IH]; intros cl; cbn [fold_left].
  - split; [|auto]. intros x. split; [auto|]. intros [H | (m & [] & _)]. exact H.
  - destruct (IH (classList_add (Move.to m) (highlight_class m) cl)) as [I N].
    split.
    + intros x. rewrite I, classList_add_In. split.
      * intros [[H | [H ->]] | (m' & Hm & H)]; eauto.
        -- right. exists m. cbn. auto.
        -- right. exists m'. cbn. tauto.
      * intros [H | (m' & [<- | Hm] & Hc & ->)]; eauto 6.
    + intros H. apply N. now apply classList_add_NoDup.
Qed.

Section Selection.
Variable E : Chess.
Implicit Types st : State E.

Lemma highlightMoves_eq (from : string) st :
  highlightMoves E from st
  = set_classes E
      (fold_left (fun cl m => classList_add (Move.to m) (highlight_class m) cl)
                 (moves E (game st) (Some from))
                 (classList_add from "sel" []))
      (set_legalMovesFromSelected E
         (map Move.to (moves E (game st) (Some from))) st).
Proof.
  unfold highlightMoves, clearHighlights. cbn.
  rewrite (fold_classes E (fun m => classList_add (Move.to m) (highlight_class m))).
  reflexivity.
Qed.

(** X4: [highlightMoves] replaces whatever was highlighted: afterwards the
    classes are "sel" on the source cell and, on every cell of the grid that
    is the destination of a legal move from it, the class of that move
    (castle, capture or move), and nothing else; no class is set twice on a
    cell; the script's destination list is the engine's; the position and
    the selection are untouched. *)
Theorem highlights_are_the_legal_destinations (from : string) st :
  let ms := moves E (game st) (Some from) in
  let st' := highlightMoves E from st in
  legalMovesFromSelected st' = map Move.to ms
  /\ (forall sq c,
        In (sq, c) (classes st')
        <-> has_cell sq = true
            /\ ((sq = from /\ c = "sel")
                \/ exists m, In m ms /\ Move.to m = sq /\ c = highlight_class m))
  /\ NoDup (classes st')
  /\ game st' = game st /\ selectedSquare st' = selectedSquare st
  /\ submitted st' = submitted st.
Proof.
  cbv zeta. rewrite highlightMoves_eq.
  cbn [legalMovesFromSelected classes game selectedSquare submitted
       set_classes set_legalMovesFromSelected].
  destruct (fold_classList (moves E (game st) (Some from))
              (classList_add from "sel" [])) as [I N]. cbv zeta in I, N.
  split; [reflexivity|]. split; [|split; [|repeat split; reflexivity]].
  - intros sq c. rewrite I, classList_add_In. cbn [In]. split.
    + intros [[[] | [H [= -> ->]]] | (m & Hm & Hc & [= -> ->])].
      * split; [assumption | left; split; reflexivity].
      * split; [assumption | right; exists m; repeat split; assumption].
    + intros [Hc [[-> ->] | (m & Hm & <- & ->)]].
      * left. right. split; [assumption | reflexivity].
      * right. exists m. repeat split; assumption.
  - apply N. apply classList_add_NoDup. constructor.
Qed.

End Selection.

Lemma highlights_witness :
  In ("e4", "move")
     (classes (highlightMoves Ref.engine "e2" (declared Ref.engine Ref.initial)))
  <-> has_cell "e4" = true
      /\ (("e4" = "e2" /\ "move" = "sel")
          \/ exists m, In m (moves Ref.engine Ref.initial (Some "e2"))
                       /\ Move.to m = "e4" /\ "move" = highlight_class m).
Proof.
  exact (proj1 (proj2 (highlights_are_the_legal_destinations Ref.engine "e2"
                         (declared Ref.engine Ref.initial))) "e4" "move").
Defined.

Example e2_highlights :
  classes (highlightMoves Ref.engine "e2" (declared Ref.engine Ref.initial))
  = [("e2", "sel"); ("e3", "move"); ("e4", "move")].
Proof. vm_compute. reflexivity. Qed.

Section Clicks.
Variable E : Chess.
Implicit Types st : State E.

(** [updateStatus] writes the status line, the banner, the two probability
    displays and the two active indicators, and nothing else. *)
Lemma updateStatus_writes st :
  exists s w wp bp l r,
    updateStatus E st
    = set_rightPlayerInfo E r
        (set_leftPlayerInfo E l
           (set_blackProbabilityEl E bp
              (set_whiteProbabilityEl E wp
                 (set_statusEl E s (set_whoIsWinningEl E w st))))).
Proof.
  destruct st as [g sel lm pp mgo last modal s w wp bp l r cl tk sub tm].
  unfold updateStatus.
  cbn [manualGameOver game].
  destruct mgo; [exists s, w, wp, bp, l, r; reflexivity|].
  destruct (game_over E g), (in_checkmate E g), (in_stalemate E g),
    (in_threefold_repetition E g), (insufficient_material E g), (in_draw E g),
    (Color_eqb (turn E g) White), (in_check E g);
    do 6 eexists;
    cbv [set_rightPlayerInfo set_leftPlayerInfo set_blackProbabilityEl
         set_whiteProbabilityEl set_statusEl set_whoIsWinningEl
         game selectedSquare legalMovesFromSelected pendingPromotion
         manualGameOver lastAIMoveUCI promotionModal statusEl whoIsWinningEl
         whiteProbabilityEl blackProbabilityEl leftPlayerInfo rightPlayerInfo
         classes tokens submitted timers];
    reflexivity.
Qed.

Lemma syncAfterHumanMove_eq st :
  syncAfterHumanMove E st
  = let st1 := updateStatus E (renderPieces E st) in
    if negb (manualGameOver st) && negb (game_over E (game st))
    then set_timers E (timers st ++ [450%nat]) st1 else st1.
Proof.
  unfold syncAfterHumanMove. cbv zeta.
  destruct (updateStatus_writes (renderPieces E st)) as (s & w & wp & bp & l & r & ->).
  reflexivity.
Qed.

Lemma select_eq (sq : string) st :
  select E sq st
  = highlightMoves E sq (set_selectedSquare E (Some sq) st).
Proof. reflexivity. Qed.

Lemma select_legal (sq : string) st :
  legalMovesFromSelected (select E sq st) = destinations E (game st) sq.
Proof. destruct (select_writes E sq st) as [cl ->]. reflexivity. Qed.

(** X5: on the human's turn, a click on a human-side piece that is not the
    one already selected selects it: it becomes the selection, the script's
    destination list is its legal-destination set, and nothing is handed to
    the engine.  Without a selection, a click on any other cell changes
    nothing at all. *)
Theorem click_on_own_piece_selects_it st (sq : string) :
  live E st ->
  (is_white (get E (game st) sq) = true ->
   JS.truthy (selectedSquare st) = false
   \/ (exists sel, selectedSquare st = Some sel /\ sel <> "" /\ sel <> sq) ->
   let st' := onSquareClick E sq st in
   selectedSquare st' = Some sq
   /\ legalMovesFromSelected st' = destinations E (game st) sq
   /\ game st' = game st /\ submitted st' = submitted st
   /\ pendingPromotion st' = pendingPromotion st)
  /\ (is_white (get E (game st) sq) = false ->
      JS.truthy (selectedSquare st) = false ->
      onSquareClick E sq st = st).
Proof.
  intros L. split.
  - intros W H. cbv zeta.
    assert (onSquareClick E sq st = select E sq st) as ->.
    { destruct H as [Tr | (sel & S & N & D)].
      - destruct L as (M & O & T). unfold onSquareClick.
        rewrite M, O, T, Tr, W. reflexivity.
      - apply (click_reselect E st sel sq L S N). unfold reselects. rewrite W.
        cbn. destruct (StringFacts.eqb_spec sel sq); [contradiction | reflexivity]. }
    rewrite select_selected, select_legal, select_game, select_submitted,
      select_pending. repeat split; reflexivity.
  - intros W Tr. destruct L as (M & O & T). unfold onSquareClick.
    rewrite M, O, T, Tr, W. reflexivity.
Qed.

(** X6: with a selection, a click on a cell that holds no human-side piece
    and is no legal destination submits the move, which the engine rejects,
    and drops the selection and every highlight; the position is
    unchanged. *)
Theorem click_elsewhere_drops_the_selection st (sel sq : string) :
  Laws.move_is_legal E ->
  live E st -> selectedSquare st = Some sel -> sel <> "" ->
  is_white (get E (game st) sq) = false ->
  shouldPromptPromotion E (game st) sel sq White = false ->
  ~ In sq (destinations E (game st) sel) ->
  let st' := onSquareClick E sq st in
  selectedSquare st' = None /\ classes st' = []
  /\ game st' = game st
  /\ submitted st' = (submitted st ++ [Req.mk sel sq (Some "q")])%list
  /\ pendingPromotion st' = pendingPromotion st.
Proof.
  intros ML L S N W G D. cbv zeta.
  assert (reselects E st sel sq = false) as R by (unfold reselects; now rewrite W).
  rewrite (click_attempt E st sel sq L S N R G), game_move_eq.
  destruct (move E (game st) (Req.mk sel sq (Some "q"))) as [g'|] eqn:Mv.
  - exfalso. apply D. exact (ML _ _ _ Mv).
  - cbn [negb]. rewrite W. repeat split; reflexivity.
Qed.

(** X7: a second click on the selected piece does not deselect it: the
    handler submits the move from the cell to itself, the engine rejects
    it, and the piece is selected again, with the position unchanged. *)
Theorem click_on_the_selected_piece_keeps_it st (sel : string) :
  Laws.move_is_legal E -> Laws.no_self_capture E ->
  live E st -> selected E st sel ->
  shouldPromptPromotion E (game st) sel sel White = false ->
  let st' := onSquareClick E sel st in
  selectedSquare st' = Some sel
  /\ legalMovesFromSelected st' = destinations E (game st) sel
  /\ game st' = game st
  /\ submitted st' = (submitted st ++ [Req.mk sel sel (Some "q")])%list.
Proof.
  intros ML NS L (S & N & W) G. cbv zeta.
  assert (reselects E st sel sel = false) as R
    by (unfold reselects; rewrite StringFacts.eqb_refl; apply andb_false_r).
  rewrite (click_attempt E st sel sel L S N R G), game_move_eq.
  destruct (move E (game st) (Req.mk sel sel (Some "q"))) as [g'|] eqn:Mv.
  - exfalso. apply ML in Mv. cbn [Req.from Req.to] in Mv.
    apply in_map_iff in Mv. destruct Mv as (m & Hto & Hm).
    unfold is_white in W.
    destruct (get E (game st) sel) as [p|] eqn:P; [|discriminate].
    rewrite <- Hto in P. rewrite (NS _ _ _ _ Hm P) in W.
    destruct L as (_ & _ & T). rewrite T in W. discriminate.
  - cbn [negb]. rewrite W.
    rewrite select_selected, select_legal, select_game, select_submitted.
    repeat split; reflexivity.
Qed.

(** X8: a move the engine accepts becomes the position, ends the selection
    and clears the highlights; one opponent cycle is scheduled, 450 ms
    later, unless the move ended the game, in which case none is. *)
Theorem accepted_move_ends_the_selection_and_schedules_the_opponent
  st (sel sq : string) (g' : game_t E) :
  live E st -> selectedSquare st = Some sel -> sel <> "" ->
  reselects E st sel sq = false ->
  shouldPromptPromotion E (game st) sel sq White = false ->
  move E (game st) (Req.mk sel sq (Some "q")) = Some g' ->
  let st' := onSquareClick E sq st in
  game st' = g' /\ selectedSquare st' = None /\ classes st' = []
  /\ pendingPromotion st' = pendingPromotion st
  /\ submitted st' = (submitted st ++ [Req.mk sel sq (Some "q")])%list
  /\ timers st' = (if game_over E g' then timers st
                   else (timers st ++ [450%nat])%list).
Proof.
  intros L S N R G Mv. cbv zeta.
  rewrite (click_attempt E st sel sq L S N R G), game_move_eq, Mv. cbn [negb].
  set (st1 := clearHighlights E (set_selectedSquare E None _)).
  rewrite syncAfterHumanMove_eq. cbv zeta.
  change (manualGameOver st1) with (manualGameOver st).
  change (game st1) with g'.
  destruct L as (M & _). rewrite M. cbn [negb andb].
  destruct (updateStatus_writes (renderPieces E st1)) as (s & w & wp & bp & l & r & ->).
  destruct (game_over E g'); repeat split; reflexivity.
Qed.

End Clicks.

Lemma click_selects_witness :
  let st := run Ref.engine (loaded Ref.engine) [EngineCycle (NoClient 0)] in
  let st' := onSquareClick Ref.engine "e2" st in
  selectedSquare st' = Some "e2"
  /\ legalMovesFromSelected st' = destinations Ref.engine (game st) "e2"
  /\ game st' = game st /\ submitted st' = submitted st
  /\ pendingPromotion st' = pendingPromotion st.
Proof.
  apply (proj1 (click_on_own_piece_selects_it Ref.engine
                  (run Ref.engine (loaded Ref.engine) [EngineCycle (NoClient 0)]) "e2"
                  ltac:(vm_compute; repeat split; reflexivity))).
  - vm_compute. reflexivity.
  - left. vm_compute. reflexivity.
Defined.

Lemma click_elsewhere_witness :
  let st' := onSquareClick Ref.engine "e5" Demo.e2_selected in
  selectedSquare st' = None /\ classes st' = []
  /\ game st' = game Demo.e2_selected
  /\ submitted st' = (submitted Demo.e2_selected ++ [Req.mk "e2" "e5" (Some "q")])%list
  /\ pendingPromotion st' = pendingPromotion Demo.e2_selected.
Proof.
  apply (click_elsewhere_drops_the_selection Ref.engine Demo.e2_selected "e2" "e5"
           RefLaws.ref_move_is_legal).
  - vm_compute. repeat split; reflexivity.
  - vm_compute. reflexivity.
  - discriminate.
  - vm_compute. reflexivity.
  - vm_compute. reflexivity.
  - vm_compute. intros [H | [H | []]]; discriminate.
Defined.

Lemma click_again_witness :
  let st' := onSquareClick Ref.engine "e2" Demo.e2_selected in
  selectedSquare st' = Some "e2"
  /\ legalMovesFromSelected st' = destinations Ref.engine (game Demo.e2_selected) "e2"
  /\ game st' = game Demo.e2_selected
  /\ submitted st' = (submitted Demo.e2_selected ++ [Req.mk "e2" "e2" (Some "q")])%list.
Proof.
  apply (click_on_the_selected_piece_keeps_it Ref.engine Demo.e2_selected "e2"
           RefLaws.ref_move_is_legal RefLaws.ref_no_self_capture).
  - vm_compute. repeat split; reflexivity.
  - split; [|split]; [vm_compute; reflexivity | discriminate | vm_compute; reflexivity].
  - vm_compute. reflexivity.
Defined.

Lemma accepted_move_witness :
  exists g',
    move Ref.engine (game Demo.e2_selected) (Req.mk "e2" "e4" (Some "q")) = Some g'
    /\ let st' := onSquareClick Ref.engine "e4" Demo.e2_selected in
       game st' = g' /\ selectedSquare st' = None /\ classes st' = []
       /\ pendingPromotion st' = pendingPromotion Demo.e2_selected
       /\ submitted st'
          = (submitted Demo.e2_selected ++ [Req.mk "e2" "e4" (Some "q")])%list
       /\ timers st' = (if game_over Ref.engine g' then timers Demo.e2_selected
                        else (timers Demo.e2_selected ++ [450%nat])%list).
Proof.
  destruct (move Ref.engine (game Demo.e2_selected) (Req.mk "e2" "e4" (Some "q")))
    as [g'|] eqn:Mv; [|vm_compute in Mv; discriminate Mv].
  exists g'. split; [reflexivity|].
  apply (accepted_move_ends_the_selection_and_schedules_the_opponent
           Ref.engine Demo.e2_selected "e2" "e4" g').
  - vm_compute. repeat split; reflexivity.
  - vm_compute. reflexivity.
  - discriminate.
  - vm_compute. reflexivity.
  - vm_compute. reflexivity.
  - exact Mv.
Defined.

(* ================================================================= *)
(** ** Further properties: the promotion buttons *)

Section Buttons.
Variable E : Chess.
Implicit Types st : State E.

(** X9: the promotion buttons act at most once per pending promotion: a
    click outside a button, or with no promotion pending, changes nothing,
    and after a choice any further click on the buttons changes nothing,
    whatever the engine said of the move. *)
Theorem promotion_is_submitted_at_most_once st :
  onPromotionClick E None st = st
  /\ (pendingPromotion st = None -> forall btn, onPromotionClick E btn st = st)
  /\ (forall piece btn,
        onPromotionClick E btn (onPromotionClick E (Some piece) st)
        = onPromotionClick E (Some piece) st).
Proof.
  assert (forall s, pendingPromotion s = None ->
                    forall btn, onPromotionClick E btn s = s) as Idle.
  { intros s P btn. unfold onPromotionClick. rewrite P. now destruct btn. }
  split; [reflexivity|]. split; [apply Idle|].
  intros piece btn. apply Idle.
  destruct (pendingPromotion st) as [pending|] eqn:P.
  - now destruct (promotion_choice E st pending piece P) as (_ & P' & _).
  - now rewrite (Idle st P).
Qed.

End Buttons.

Lemma promotion_once_witness :
  onPromotionClick Ref.engine (Some (Some "q")) (declared Ref.engine Ref.initial)
  = declared Ref.engine Ref.initial.
Proof.
  apply (proj1 (proj2 (promotion_is_submitted_at_most_once Ref.engine
                         (declared Ref.engine Ref.initial)))).
  reflexivity.
Defined.

(* ================================================================= *)
(** ** Further properties: the evaluation cycle *)

Module RefMoreLaws.
Import Ref.

Lemma flagged (k : Kind) : JS.includes (kind_flag k ++ "p") "p" = true.
Proof. now destruct k. Qed.

Lemma unflagged (k : Kind) : JS.includes (kind_flag k) "p" = false.
Proof. now destruct k. Qed.

Lemma ref_generated_move_accepted : MoreLaws.generated_move_accepted engine.
Proof.
  intros g m. cbn. unfold moves. rewrite in_map_iff.
  intros [[raw promo] [Hp Hin]].
  assert (exists x, In x (generate_moves g) /\ requested (fallback_request m) x = true)
    as (x & Hx & Hr).
  { destruct promo as [t|].
    - exists (raw, Some Queen). split; [eapply RefLaws.queen_sibling; eassumption|].
      subst m. unfold fallback_request, requested, pretty.
      cbn [Move.flags Move.from Move.to Move.promotion]. rewrite flagged.
      cbn [Req.from Req.to Req.promotion]. now rewrite !StringFacts.eqb_refl.
    - exists (raw, None). split; [assumption|].
      subst m. unfold fallback_request, requested, pretty, Move.as_req.
      cbn [Move.flags Move.from Move.to Move.promotion]. rewrite unflagged.
      cbn [Req.from Req.to Req.promotion]. now rewrite !StringFacts.eqb_refl. }
  destruct (RefLaws.find_finds _ _ _ Hx Hr) as [[m' promo'] F].
  unfold move. rewrite F. eauto.
Qed.

Lemma ref_moves_unless_over : MoreLaws.moves_unless_over engine.
Proof.
  intros g. change (game_over g = false -> moves g None <> []).
  unfold game_over, in_checkmate, in_stalemate, no_moves, moves.
  intros H N. apply map_eq_nil in N. rewrite N in H.
  destruct (100 <=? half_moves g)%nat, (in_check g); cbn in H; discriminate.
Qed.

End RefMoreLaws.

Section Halves.
Variable E : Chess.
Context {host : JS.Casing}.
Implicit Types st : State E.

Lemma updateStatus_controls st : controls E (updateStatus E st) = controls E st.
Proof.
  destruct (updateStatus_writes E st) as (s & w & wp & bp & l & r & ->). reflexivity.
Qed.

Lemma updateStatus_moves_made st : moves_made E (updateStatus E st) = moves_made E st.
Proof.
  destruct (updateStatus_writes E st) as (s & w & wp & bp & l & r & ->). reflexivity.
Qed.

Lemma applyBestMove_controls (best_move : JS.value) st :
  controls E (snd (applyBestMove E best_move st)) = controls E st.
Proof.
  unfold applyBestMove.
  destruct (Color_eqb (turn E (game st)) Black && negb (game_over E (game st)));
    [|reflexivity].
  destruct (uciToMove best_move) as [mv|]; [|reflexivity].
  rewrite game_move_eq. destruct (move E (game st) mv); [reflexivity|].
  destruct (JS.truthy (Req.promotion mv)); [|reflexivity].
  rewrite game_move_eq.
  change (game (set_submitted E (submitted st ++ [mv]) st)) with (game st).
  destruct (move E (game st) _); reflexivity.
Qed.

Lemma applyBestMove_idle (best_move : JS.value) st :
  Color_eqb (turn E (game st)) Black && negb (game_over E (game st)) = false ->
  applyBestMove E best_move st = (false, st).
Proof. intros H. unfold applyBestMove. now rewrite H. Qed.

Lemma showProbabilities_controls (prob : JS.value) st st0 :
  showProbabilities E prob st = Some st0 ->
  controls E st0 = controls E st /\ moves_made E st0 = moves_made E st.
Proof.
  unfold showProbabilities. destruct (JS.times prob (JS.Fin 100)); [|discriminate].
  intros [= <-]. split; reflexivity.
Qed.

Lemma applyEvaluation_controls (prob best_move : JS.value) st :
  controls E (snd (applyEvaluation E prob best_move st)) = controls E st.
Proof.
  unfold applyEvaluation.
  destruct (showProbabilities E prob st) as [st0|] eqn:S; [|reflexivity].
  rewrite applyBestMove_controls. exact (proj1 (showProbabilities_controls _ _ _ S)).
Qed.

Lemma fallback_controls (rnd : Q) st st2 :
  fallback E rnd st = Some st2 -> controls E st2 = controls E st.
Proof.
  unfold fallback. cbv zeta.
  destruct (0 <? length (moves E (game st) None))%nat.
  2:{ now intros [= <-]. }
  destruct (pick rnd (moves E (game st) None)) as [m|]; [|discriminate].
  rewrite !game_move_eq.
  destruct (JS.includes (Move.flags m) "p");
    destruct (move E (game st) _); intros [= <-]; reflexivity.
Qed.

Lemma redraw_some st2 st1 :
  controls E (redraw E (Some st2) st1) = controls E st2
  /\ moves_made E (redraw E (Some st2) st1) = moves_made E st2.
Proof.
  unfold redraw. now rewrite updateStatus_controls, updateStatus_moves_made.
Qed.

Lemma redraw_moves st2 st1 :
  game (redraw E (Some st2) st1) = game st2
  /\ submitted (redraw E (Some st2) st1) = submitted st2
  /\ lastAIMoveUCI (redraw E (Some st2) st1) = lastAIMoveUCI st2.
Proof.
  pose proof (proj2 (redraw_some st2 st1)) as R. unfold moves_made in R.
  injection R as R1 R2 R3. auto.
Qed.

Lemma finish_controls (moved : bool) (rnd : Q) st :
  controls E (finish E moved rnd st) = controls E st.
Proof.
  unfold finish. destruct (negb moved && _ && _).
  - destruct (fallback E rnd st) as [st2|] eqn:F; [|reflexivity].
    rewrite (proj1 (redraw_some st2 st)). exact (fallback_controls _ _ _ F).
  - exact (proj1 (redraw_some st st)).
Qed.

Lemma finish_idle (moved : bool) (rnd : Q) st :
  turn E (game st) = White ->
  moves_made E (finish E moved rnd st) = moves_made E st.
Proof.
  intros T. rewrite finish_redraws by auto.
  exact (proj2 (redraw_some st st)).
Qed.

Lemma call_controls (r : Request) st :
  controls E (engineEvaluateAndAct E r st) = controls E st.
Proof.
  unfold engineEvaluateAndAct.
  destruct (manualGameOver st || game_over E (game st)); [reflexivity|].
  destruct r; try rewrite finish_controls; reflexivity.
Qed.

Lemma resume_controls (a : Answer) (rnd : Q) st :
  controls E (resume E a rnd st) = controls E st.
Proof.
  unfold resume. destruct a as [|prob best_move].
  - apply finish_controls.
  - pose proof (applyEvaluation_controls prob best_move st) as C.
    destruct (applyEvaluation E prob best_move st) as [moved st1]. cbn [snd] in C.
    now rewrite finish_controls.
Qed.

Lemma applyEvaluation_idle (prob best_move : JS.value) st :
  turn E (game st) = White ->
  exists st1, applyEvaluation E prob best_move st = (false, st1)
              /\ moves_made E st1 = moves_made E st.
Proof.
  intros T. unfold applyEvaluation.
  destruct (showProbabilities E prob st) as [st0|] eqn:S.
  - destruct (showProbabilities_controls _ _ _ S) as [_ Mm].
    exists st0. split; [|exact Mm]. apply applyBestMove_idle.
    assert (game st0 = game st) as -> by (unfold moves_made in Mm; congruence).
    now rewrite T.
  - now exists st.
Qed.

(** X10: neither half of an evaluation cycle, the call up to its [await]
    and the rest when the answer arrives, ever touches the selection, the
    pending promotion, the modal or the timers; and a half that runs while
    it is the human's turn leaves the position alone, hands nothing to the
    engine and keeps [lastAIMoveUCI], whatever the answer and the random
    number.  The turn is the one at the moment the half runs. *)
Theorem cycle_on_the_human_turn_moves_nothing
        (r : Request) (a : Answer) (rnd : Q) st :
  let called := engineEvaluateAndAct E r st in
  let resumed := resume E a rnd st in
  (selectedSquare called = selectedSquare st
   /\ pendingPromotion called = pendingPromotion st
   /\ promotionModal called = promotionModal st
   /\ timers called = timers st)
  /\ (selectedSquare resumed = selectedSquare st
      /\ pendingPromotion resumed = pendingPromotion st
      /\ promotionModal resumed = promotionModal st
      /\ timers resumed = timers st)
  /\ (turn E (game st) = White ->
      (game called = game st /\ submitted called = submitted st
       /\ lastAIMoveUCI called = lastAIMoveUCI st)
      /\ (game resumed = game st /\ submitted resumed = submitted st
          /\ lastAIMoveUCI resumed = lastAIMoveUCI st)).
Proof.
  cbv zeta. split; [|split].
  - pose proof (call_controls r st) as C. unfold controls in C.
    injection C as -> _ -> -> _ ->. repeat split; reflexivity.
  - pose proof (resume_controls a rnd st) as C. unfold controls in C.
    injection C as -> _ -> -> _ ->. repeat split; reflexivity.
  - intros T. split.
    + assert (moves_made E (engineEvaluateAndAct E r st) = moves_made E st) as Mm.
      { unfold engineEvaluateAndAct.
        destruct (manualGameOver st || game_over E (game st)); [reflexivity|].
        destruct r; try reflexivity;
          exact (finish_idle false _ (placeholders E st) T). }
      unfold moves_made in Mm. injection Mm as -> -> ->. repeat split; reflexivity.
    + assert (moves_made E (resume E a rnd st) = moves_made E st) as Mm.
      { unfold resume. destruct a as [|prob best_move].
        - now apply finish_idle.
        - destruct (applyEvaluation_idle prob best_move st T) as (st1 & -> & Mm).
          rewrite finish_idle; [exact Mm|].
          assert (game st1 = game st) as -> by (unfold moves_made in Mm; congruence).
          exact T. }
      unfold moves_made in Mm. injection Mm as -> -> ->. repeat split; reflexivity.
Qed.

Lemma fallback_moves (rnd : Q) st :
  MoreLaws.generated_move_accepted E ->
  moves E (game st) None <> [] ->
  (Z.of_nat (length (moves E (game st) None)) < 2 ^ 32)%Z ->
  is_double rnd -> (0 <= rnd)%Q -> (rnd < 1)%Q ->
  exists m g',
    In m (moves E (game st) None)
    /\ move E (game st) (fallback_request m) = Some g'
    /\ fallback E rnd st
       = Some (set_lastAIMoveUCI E
                 (Some (uci_of (Move.from m) (Move.to m) (Move.promotion m)))
                 (set_game E g'
                    (set_submitted E (submitted st ++ [fallback_request m]) st))).
Proof.
  intros GA Hne Harr D H0 H1.
  assert (0 < length (moves E (game st) None))%nat as Hlen
    by (destruct (moves E (game st) None); [contradiction | cbn; lia]).
  destruct (pick_index rnd _ D H0 H1 Hlen Harr _ eq_refl)
    as (r & _ & _ & _ & Hi & Hp).
  destruct (nth_error (moves E (game st) None) (Z.to_nat (Qfloor r)))
    as [m|] eqn:Hm.
  2:{ apply nth_error_None in Hm. lia. }
  apply nth_error_In in Hm. destruct (GA _ _ Hm) as [g' Hg'].
  exists m, g'. split; [assumption|]. split; [assumption|].
  unfold fallback. cbv zeta.
  destruct (Nat.ltb_spec 0 (length (moves E (game st) None))); [|lia].
  rewrite Hp, !game_move_eq. unfold fallback_request in *.
  destruct (JS.includes (Move.flags m) "p"); now rewrite Hg'.
Qed.

Lemma fallback_branch (rnd : Q) st st1 :
  MoreLaws.generated_move_accepted E -> MoreLaws.moves_unless_over E ->
  (Z.of_nat (length (moves E (game st) None)) < 2 ^ 32)%Z ->
  game_over E (game st) = false -> turn E (game st) = Black ->
  is_double rnd -> (0 <= rnd)%Q -> (rnd < 1)%Q -> game st1 = game st ->
  let st' := finish E false rnd st1 in
  exists m g',
    move E (game st) (fallback_request m) = Some g'
    /\ game st' = g'
    /\ submitted st' = (submitted st1 ++ [fallback_request m])%list
    /\ lastAIMoveUCI st' <> None.
Proof.
  intros GA MO Harr O T D H0 H1 G. cbv zeta.
  rewrite finish_fallback by (rewrite G; assumption).
  destruct (fallback_moves rnd st1 GA) as (m & g' & _ & Mv & ->);
    try assumption; try (rewrite G; auto).
  rewrite G in Mv. exists m, g'. split; [assumption|].
  match goal with
  | |- context [redraw E (Some ?s2) st1] =>
      destruct (redraw_moves s2 st1) as (-> & -> & ->)
  end.
  repeat split; try reflexivity. discriminate.
Qed.

(** X11: on the opponent's turn of a game that is not over, the rest of a
    cycle, run when its answer arrives, and a call that has no answer to
    wait for always end with exactly one move played and the turn back with
    the human, whatever the answer: every request that came before the one
    played was rejected by the engine, there are at most two of them, and
    [lastAIMoveUCI] is set.  [Math.random()] is a double in [[0, 1)] and
    the list of legal moves an array. *)
Theorem opponent_cycle_always_moves (rnd : Q) st st' :
  Laws.move_flips_turn E ->
  MoreLaws.generated_move_accepted E -> MoreLaws.moves_unless_over E ->
  (Z.of_nat (length (moves E (game st) None)) < 2 ^ 32)%Z ->
  game_over E (game st) = false -> turn E (game st) = Black ->
  is_double rnd -> (0 <= rnd)%Q -> (rnd < 1)%Q ->
  (exists a, st' = resume E a rnd st)
  \/ (manualGameOver st = false
      /\ (st' = engineEvaluateAndAct E (NoClient rnd) st
          \/ st' = engineEvaluateAndAct E (RaisesAtOnce rnd) st)) ->
  exists r g' rejected,
    move E (game st) r = Some g'
    /\ game st' = g' /\ turn E g' = White
    /\ submitted st' = (submitted st ++ rejected ++ [r])%list
    /\ (forall x, In x rejected -> move E (game st) x = None)
    /\ (length rejected <= 2)%nat
    /\ lastAIMoveUCI st' <> None.
Proof.
  intros FT GA MO Harr O T D H0 H1 Which.
  assert (forall r g', move E (game st) r = Some g' -> turn E g' = White) as Flip.
  { intros r g' Mv. rewrite (FT _ _ _ Mv), T. reflexivity. }
  assert (forall st1 rejected,
             game st1 = game st ->
             submitted st1 = (submitted st ++ rejected)%list ->
             (forall x, In x rejected -> move E (game st) x = None) ->
             (length rejected <= 2)%nat ->
             let st' := finish E false rnd st1 in
             exists r g' rejected,
               move E (game st) r = Some g'
               /\ game st' = g' /\ turn E g' = White
               /\ submitted st' = (submitted st ++ rejected ++ [r])%list
               /\ (forall x, In x rejected -> move E (game st) x = None)
               /\ (length rejected <= 2)%nat
               /\ lastAIMoveUCI st' <> None) as Fb.
  { intros st1 rejected G S Rj Len.
    destruct (fallback_branch rnd st st1 GA MO Harr O T D H0 H1 G)
      as (m & g' & Mv & G' & S' & L').
    exists (fallback_request m), g', rejected.
    split; [assumption|]. split; [assumption|]. split; [eapply Flip; eassumption|].
    split; [now rewrite S', S, app_assoc|]. repeat split; assumption. }
  assert (forall st1 r g' rejected,
             move E (game st) r = Some g' -> game st1 = g' ->
             lastAIMoveUCI st1 <> None ->
             submitted st1 = (submitted st ++ rejected ++ [r])%list ->
             (forall x, In x rejected -> move E (game st) x = None) ->
             (length rejected <= 2)%nat ->
             let st' := finish E true rnd st1 in
             exists r g' rejected,
               move E (game st) r = Some g'
               /\ game st' = g' /\ turn E g' = White
               /\ submitted st' = (submitted st ++ rejected ++ [r])%list
               /\ (forall x, In x rejected -> move E (game st) x = None)
               /\ (length rejected <= 2)%nat
               /\ lastAIMoveUCI st' <> None) as Mvd.
  { intros st1 r g' rejected Mv G L S Rj Len. cbv zeta.
    rewrite finish_redraws by auto.
    change (updateStatus E (renderPieces E st1)) with (redraw E (Some st1) st1).
    destruct (redraw_moves st1 st1) as (-> & -> & ->).
    exists r, g', rejected. repeat split; try assumption. eapply Flip; eassumption. }
  assert (forall st1, game st1 = game st -> submitted st1 = submitted st ->
                      exists r g' rejected,
                        move E (game st) r = Some g'
                        /\ game (finish E false rnd st1) = g' /\ turn E g' = White
                        /\ submitted (finish E false rnd st1)
                           = (submitted st ++ rejected ++ [r])%list
                        /\ (forall x, In x rejected -> move E (game st) x = None)
                        /\ (length rejected <= 2)%nat
                        /\ lastAIMoveUCI (finish E false rnd st1) <> None) as Fb0.
  { intros st1 G S.
    apply (Fb st1 []); [assumption | now rewrite S, app_nil_r | intros x [] | cbn; lia]. }
  destruct Which as [[a ->] | [M Call]].
  2:{ assert (st' = finish E false rnd (placeholders E st)) as ->.
      { destruct Call as [-> | ->]; unfold engineEvaluateAndAct; now rewrite M, O. }
      apply Fb0; reflexivity. }
  unfold resume. destruct a as [|prob best_move]; [apply Fb0; reflexivity|].
  unfold applyEvaluation.
  destruct (showProbabilities E prob st) as [st0|] eqn:Sh; [|apply Fb0; reflexivity].
  destruct (showProbabilities_controls _ _ _ Sh) as [_ Mm].
  assert (game st0 = game st) as G0 by (unfold moves_made in Mm; congruence).
  assert (submitted st0 = submitted st) as S0 by (unfold moves_made in Mm; congruence).
  unfold applyBestMove. rewrite G0, T, O. cbn [Color_eqb negb andb].
  destruct (uciToMove best_move) as [mv|] eqn:U; [|now apply Fb0].
  rewrite game_move_eq, G0, S0.
  destruct (move E (game st) mv) as [g1|] eqn:M1.
  { apply (Mvd _ mv g1 [] M1);
      [reflexivity | discriminate | reflexivity | intros x [] | cbn; lia]. }
  destruct (JS.truthy (Req.promotion mv)).
  2:{ apply (Fb _ [mv]); [exact G0 | reflexivity | | cbn; lia].
      intros x [<- | []]. assumption. }
  rewrite game_move_eq.
  change (game (set_submitted E (submitted st ++ [mv]) st0)) with (game st0).
  rewrite G0.
  destruct (move E (game st) (Req.mk (Req.from mv) (Req.to mv) (Some "q")))
    as [g2|] eqn:M2.
  + apply (Mvd _ _ g2 [mv] M2); [reflexivity | discriminate | | | cbn; lia].
    * cbn [submitted set_submitted set_game set_lastAIMoveUCI].
      now rewrite <- app_assoc.
    * intros x [<- | []]. assumption.
  + apply (Fb _ [mv; Req.mk (Req.from mv) (Req.to mv) (Some "q")]).
    * exact G0.
    * cbn [submitted set_submitted]. now rewrite <- app_assoc.
    * intros x [<- | [<- | []]]; assumption.
    * cbn; lia.
Qed.

End Halves.

Lemma cycle_human_turn_witness :
  let st := Demo.e2_selected in
  let called := engineEvaluateAndAct Ref.engine (NoClient (1 # 4)) st in
  let resumed := resume Ref.engine (Binds Demo.half (JS.VString "e7e5")) (1 # 4) st in
  (game called = game st /\ submitted called = submitted st
   /\ lastAIMoveUCI called = lastAIMoveUCI st)
  /\ (game resumed = game st /\ submitted resumed = submitted st
      /\ lastAIMoveUCI resumed = lastAIMoveUCI st).
Proof.
  apply (proj2 (proj2 (cycle_on_the_human_turn_moves_nothing Ref.engine
                         (NoClient (1 # 4))
                         (Binds Demo.half (JS.VString "e7e5")) (1 # 4)
                         Demo.e2_selected))).
  vm_compute. reflexivity.
Defined.

(** The call made when the script is loaded runs on the human's turn; its
    answer moves a piece when it arrives after the human's first move. *)
Example late_answer_moves :
  let st := run Ref.engine (loaded Ref.engine)
                [EngineCycle Awaits; CellClick "e2"; CellClick "e4";
                 AnswerArrives (Binds Demo.half (JS.VString "e7e5")) 0] in
  get Ref.engine (game st) "e5" = Some (mkPiece Pawn Black)
  /\ turn Ref.engine (game st) = White
  /\ lastAIMoveUCI st = Some "e7e5"
  /\ whiteProbabilityEl st = "50%".
Proof. vm_compute. repeat split; reflexivity. Qed.

Lemma one_quarter : is_double (1 # 4).
Proof. exists 1%Z, (-2)%Z. repeat split; try lia. Qed.

Lemma opponent_cycle_witness :
  let st' := resume Ref.engine (Binds JS.VUndefined (JS.VString "e2e4q"))
                    (1 # 4) Demo.after_e4 in
  exists r g' rejected,
    move Ref.engine (game Demo.after_e4) r = Some g'
    /\ game st' = g' /\ turn Ref.engine g' = White
    /\ submitted st' = (submitted Demo.after_e4 ++ rejected ++ [r])%list
    /\ (forall x, In x rejected -> move Ref.engine (game Demo.after_e4) x = None)
    /\ (length rejected <= 2)%nat
    /\ lastAIMoveUCI st' <> None.
Proof.
  apply (opponent_cycle_always_moves Ref.engine (1 # 4) Demo.after_e4 _
           RefLaws.ref_move_flips_turn
           RefMoreLaws.ref_generated_move_accepted RefMoreLaws.ref_moves_unless_over).
  - vm_compute. reflexivity.
  - vm_compute. reflexivity.
  - vm_compute. reflexivity.
  - exact one_quarter.
  - vm_compute. discriminate.
  - vm_compute. reflexivity.
  - left. eexists. reflexivity.
Defined.

Example two_rejections_then_the_fallback :
  let st' := resume Ref.engine (Binds JS.VUndefined (JS.VString "e2e4q"))
                    (1 # 4) Demo.after_e4 in
  submitted st'
  = (submitted Demo.after_e4
     ++ [Req.mk "e2" "e4" (Some "q"); Req.mk "e2" "e4" (Some "q");
         Req.mk "a7" "a5" None])%list
  /\ whiteProbabilityEl st' = "NaN%".
Proof. vm_compute. split; reflexivity. Qed.
(* ================================================================= *)
(** ** Further properties: coordinate notation and percentages *)

Lemma trim_idempotent (s : string) : JS.trim (JS.trim s) = JS.trim s.
Proof.
  symmetry. apply trimmed_form_unique.
  destruct (trim_spec s) as (l & r & _ & _ & _ & S & C).
  exists "", "". rewrite StringFacts.append_nil_r. repeat split; assumption.
Qed.

Lemma trim_fixed (s : string) :
  JS.trim s = s <-> starts_clean s /\ ends_clean s.
Proof.
  split.
  - intros H. destruct (trim_spec s) as (l & r & _ & _ & _ & S & C).
    rewrite H in S, C. now split.
  - intros [S C]. symmetry. apply trimmed_form_unique.
    exists "", "". rewrite StringFacts.append_nil_r. repeat split; assumption.
Qed.

Lemma units_append (a b : string) :
  String.units (a ++ b) = (String.units a ++ String.units b)%list.
Proof. induction a as [|c a IH]; cbn; [reflexivity | now rewrite IH]. Qed.

Lemma get_in_units (i : nat) (s : string) (c : N) :
  String.get i s = Some c -> In c (String.units s).
Proof.
  revert i. induction s as [|d s IH]; intros i; [destruct i; discriminate|].
  destruct i as [|i]; cbn.
  - intros [= ->]. now left.
  - intros H. right. eapply IH. eassumption.
Qed.

(** *** The casing of the examples *)

Ltac decide_tests :=
  repeat match goal with
         | |- context [(?a <=? ?b)%N] => destruct (N.leb_spec a b); try lia
         | |- context [(?a =? ?b)%N] => destruct (N.eqb_spec a b); try lia
         end;
  cbn [andb orb negb].

Lemma lowerUnit_units (c d : N) :
  In d (String.units (JS.lowerUnit c)) -> JS.lowerUnit d = String d "".
Proof.
  unfold JS.lowerUnit at 1. decide_tests; cbn [String.units In];
    intros Hin; repeat (destruct Hin as [<- | Hin]); try contradiction;
    unfold JS.lowerUnit; decide_tests; reflexivity.
Qed.

Lemma lowerUnit_white (c d : N) :
  JS.isWhiteSpace c = false -> In d (String.units (JS.lowerUnit c)) ->
  JS.isWhiteSpace d = false.
Proof.
  unfold JS.lowerUnit. decide_tests; cbn [String.units In];
    intros W Hin; repeat (destruct Hin as [<- | Hin]); try contradiction;
    try exact W; unfold JS.isWhiteSpace; decide_tests; reflexivity.
Qed.

Lemma lowerUnit_first (c : N) :
  exists d t, JS.lowerUnit c = String d t.
Proof. unfold JS.lowerUnit. decide_tests; eauto. Qed.

Lemma lowerUnits_append (a b : string) :
  JS.lowerUnits (a ++ b) = JS.lowerUnits a ++ JS.lowerUnits b.
Proof.
  induction a as [|c a IH]; cbn; [reflexivity|].
  now rewrite IH, StringFacts.append_assoc.
Qed.

Lemma lowerUnits_fixed (s : string) :
  (forall d, In d (String.units s) -> JS.lowerUnit d = String d "") ->
  JS.lowerUnits s = s.
Proof.
  induction s as [|c s IH]; cbn; [reflexivity|]. intros H.
  rewrite (H c) by now left. cbn. f_equal. apply IH. intros d Hd. apply H.
  now right.
Qed.

Lemma lowerUnits_units (s : string) (d : N) :
  In d (String.units (JS.lowerUnits s)) -> JS.lowerUnit d = String d "".
Proof.
  induction s as [|c s IH]; cbn; [contradiction|].
  rewrite units_append, in_app_iff. intros [H | H]; [|now apply IH].
  eapply lowerUnit_units. eassumption.
Qed.

Lemma ends_clean_units (s : string) :
  ends_clean s
  <-> forall t c, s = t ++ String c "" -> JS.isWhiteSpace c = false.
Proof. reflexivity. Qed.

Lemma last_unit (s : string) :
  s = "" \/ exists t c, s = t ++ String c "".
Proof.
  induction s as [|c s [-> | (t & d & ->)]]; [now left | right | right].
  - now exists "", c.
  - now exists (String c t), d.
Qed.

Lemma append_last (a b : string) (c d : N) :
  a ++ String c "" = b ++ String d "" -> a = b /\ c = d.
Proof.
  revert b. induction a as [|x a IH]; intros [|y b]; cbn.
  - intros [= ->]. now split.
  - intros [= -> H]. destruct b; discriminate.
  - intros [= -> H]. destruct a; discriminate.
  - intros [= -> H]. destruct (IH _ H) as [-> ->]. now split.
Qed.

Lemma lowerUnits_trimmed (s : string) :
  JS.trim s = s -> JS.trim (JS.lowerUnits s) = JS.lowerUnits s.
Proof.
  rewrite !trim_fixed. intros [S C]. split.
  - destruct s as [|c s]; [exact I|]. cbn in *.
    destruct (lowerUnit_first c) as (d & t & L). rewrite L. cbn.
    apply (lowerUnit_white c d S). rewrite L. now left.
  - destruct (last_unit s) as [-> | (t & c & ->)]; [intros t c; now destruct t|].
    rewrite lowerUnits_append. cbn. rewrite StringFacts.append_nil_r.
    intros u d H.
    assert (JS.isWhiteSpace c = false) as W by now apply (C t c).
    destruct (last_unit (JS.lowerUnit c)) as [L | (v & e & L)].
    + destruct (lowerUnit_first c) as (? & ? & L'). congruence.
    + rewrite L, <- StringFacts.append_assoc in H.
      apply append_last in H. destruct H as [_ <-].
      apply (lowerUnit_white c e W). rewrite L, units_append, in_app_iff.
      right. now left.
Qed.

Lemma latin_laws : JS.CasingLaws JS.latin.
Proof.
  split.
  - intros s. apply lowerUnits_fixed. apply lowerUnits_units.
  - exact lowerUnits_trimmed.
  - intros s. induction s as [|c s IH]; cbn; [reflexivity|].
    intros [[_ L] A]. change (JS.lowerUnit c ++ "" = String c "") in L.
    rewrite StringFacts.append_nil_r in L. rewrite L. cbn. f_equal. now apply IH.
  - intros s c H. change (JS.lowerUnit c ++ "" = String c "").
    rewrite StringFacts.append_nil_r. eapply lowerUnits_units. eassumption.
Qed.

#[global] Existing Instance latin_laws.

Section Notation.
Context {host : JS.Casing} {laws : JS.CasingLaws host}.

Lemma lowercase_empty : JS.toLowerCase "" = "".
Proof. apply JS.lowercase_settled. exact I. Qed.

(** X12: [uciToMove] reads a string as it reads the same string trimmed and
    lowercased, so padding and letter case never matter; and whatever it
    returns has a two-character source, a two-character destination and a
    promotion of one character when it has one.  This holds for every host
    whose [toLowerCase] obeys the laws of [JS.CasingLaws]. *)
Theorem uciToMove_ignores_case_and_padding :
  (forall u, uciToMove (JS.VString u)
             = uciToMove (JS.VString (JS.toLowerCase (JS.trim u))))
  /\ (forall v mv, uciToMove v = Some mv ->
        String.length (Req.from mv) = 2%nat
        /\ String.length (Req.to mv) = 2%nat
        /\ match Req.promotion mv with
           | Some p => String.length p = 1%nat
           | None => True
           end).
Proof.
  split.
  - intros u. unfold uciToMove.
    rewrite (JS.lowercase_trimmed (JS.trim u) (trim_idempotent u)).
    rewrite JS.lowercase_idempotent.
    destruct (StringFacts.eqb_spec u "") as [-> | _].
    + change (JS.trim "") with "". now rewrite lowercase_empty.
    + destruct (StringFacts.eqb_spec (JS.toLowerCase (JS.trim u)) "") as [-> | _];
        reflexivity.
  - intros v mv. destruct v as [| | | |u| | |]; try discriminate.
    destruct (StringFacts.eqb_spec u "") as [-> | N]; [discriminate|].
    destruct (Nat.ltb_spec (String.length (JS.toLowerCase (JS.trim u))) 4) as [L|L].
    { unfold uciToMove. destruct (u =? ""); [discriminate|]. cbv zeta.
      destruct (Nat.ltb_spec (String.length (JS.toLowerCase (JS.trim u))) 4);
        [discriminate | lia]. }
    destruct (uciToMove_shape u N L) as (from & to & rest & S & F & T & ->).
    intros [= <-]. cbn [Req.from Req.to Req.promotion].
    split; [exact F|]. split; [exact T|].
    destruct rest as [|c rest]; [exact I|]. unfold promotion_of.
    rewrite (JS.lowercase_units (JS.trim u) c); [reflexivity|].
    rewrite S, !units_append, !in_app_iff. right. right. now left.
Qed.

(** X13: the coordinate notation the script writes into [lastAIMoveUCI]
    (source, destination, promotion letter if any) is read back by
    [uciToMove] as the same move, whenever the source and the destination
    have two characters, the promotion one, and all are lowercase and free
    of white space, as the names of cells and pieces are; for every host
    whose [toLowerCase] obeys the laws of [JS.CasingLaws]. *)
Theorem written_moves_read_back (from to : string) (promotion : option string) :
  String.length from = 2%nat -> String.length to = 2%nat ->
  match promotion with
  | Some p => String.length p = 1%nat
  | None => True
  end ->
  plain (uci_of from to promotion) ->
  uciToMove (JS.VString (uci_of from to promotion))
  = Some (Req.mk from to promotion).
Proof.
  intros Hf Ht Hp P.
  assert (forall s, plain s -> JS.all_units JS.settled s
                               /\ JS.all_units (fun c => JS.isWhiteSpace c = false) s)
    as Pl.
  { induction s as [|c s IH]; cbn; [auto|]. intros (W & L & R).
    destruct (IH R). auto. }
  assert (forall s, JS.all_units (fun c => JS.isWhiteSpace c = false) s ->
                    JS.trim s = s) as Tr.
  { intros s A. apply trim_fixed. split.
    - destruct s; [exact I | apply A].
    - intros t c ->. clear - A. induction t as [|d t IH]; cbn in A; [apply A|].
      apply IH, A. }
  destruct (Pl _ P) as [Se Wh].
  assert (JS.toLowerCase (JS.trim (uci_of from to promotion))
          = uci_of from to promotion) as Low
      by (rewrite (Tr _ Wh); now apply JS.lowercase_settled).
  destruct from as [|a [|b [|]]]; try discriminate Hf.
  destruct to as [|c [|d [|]]]; try discriminate Ht.
  destruct promotion as [[|p [|]]|]; try discriminate Hp; clear Hf Ht Hp.
  - unfold uciToMove. rewrite Low. cbn.
    cbn in Se. destruct Se as (_ & _ & _ & _ & [_ Lp] & _).
    rewrite Lp. reflexivity.
  - unfold uciToMove. rewrite Low. reflexivity.
Qed.

End Notation.

Lemma uciToMove_shape_witness :
  String.length (Req.from (Req.mk "e7" "e8" (Some "q"))) = 2%nat
  /\ String.length (Req.to (Req.mk "e7" "e8" (Some "q"))) = 2%nat
  /\ match Req.promotion (Req.mk "e7" "e8" (Some "q")) with
     | Some p => String.length p = 1%nat
     | None => True
     end.
Proof.
  apply (proj2 uciToMove_ignores_case_and_padding (JS.VString "  E7e8Q ")).
  reflexivity.
Defined.

Lemma written_moves_witness :
  uciToMove (JS.VString (uci_of "e7" "e8" (Some "q")))
  = Some (Req.mk "e7" "e8" (Some "q")).
Proof.
  apply written_moves_read_back; try reflexivity.
  vm_compute. tauto.
Defined.
(** *** The range of the percentages *)

Section Range.
Variable E : Chess.
Implicit Types st : State E.

(** X14: a probability between 0 and 1 is displayed as two percentages
    between 0 and 100, in decimal, and the label names the human exactly
    when the human's percentage is above 50 and the opponent exactly when
    it is below; a missing probability is displayed as "NaN%" twice and a
    null one as "0%" and "100%", both with the opponent named as
    leading. *)
Theorem percentages_stay_in_range st (p : Q) :
  (0 <= p)%Q -> (p <= 1)%Q ->
  (exists st' (w b : Z),
     showProbabilities E (JS.VNumber (JS.Fin p)) st = Some st'
     /\ whiteProbabilityEl st' = numeral (Z.to_nat w) ++ "%"
     /\ blackProbabilityEl st' = numeral (Z.to_nat b) ++ "%"
     /\ (0 <= w <= 100)%Z /\ (0 <= b <= 100)%Z
     /\ (whoIsWinningEl st' = "You" <-> (50 < w)%Z)
     /\ (whoIsWinningEl st' = "Mahmoud" <-> (w < 50)%Z))
  /\ (exists st',
        showProbabilities E JS.VUndefined st = Some st'
        /\ whiteProbabilityEl st' = "NaN%" /\ blackProbabilityEl st' = "NaN%"
        /\ whoIsWinningEl st' = "Mahmoud")
  /\ (exists st',
        showProbabilities E JS.VNull st = Some st'
        /\ whiteProbabilityEl st' = "0%" /\ blackProbabilityEl st' = "100%"
        /\ whoIsWinningEl st' = "Mahmoud").
Proof.
  intros P0 P1. split; [|split].
  2:{ eexists. split; [reflexivity|]. repeat split; reflexivity. }
  2:{ eexists. split; [reflexivity|]. repeat split; reflexivity. }
  destruct (FloatFacts.round_between (p * 100) 0 100) as (x & R & N & X0 & X1).
  { apply (FloatFacts.double_integer 0). reflexivity. }
  { apply (FloatFacts.double_integer 100). reflexivity. }
  { lra. }
  { lra. }
  pose proof (showProbabilities_spec E (JS.VNumber (JS.Fin p)) st) as S.
  change (JS.times (JS.VNumber (JS.Fin p)) (JS.Fin 100))
    with (Some (JS.round (p * 100))) in S.
  rewrite R in S. cbv zeta in S. cbn [JS.Math_round] in S.
  destruct S as (st' & S & Hw & Hb & Hl & _).
  set (w := Qfloor (x + (1 # 2))) in *.
  assert (0 <= w <= 100)%Z as W.
  { split.
    - unfold w. rewrite <- (Qfloor_Z 0). apply Qfloor_resp_le.
      change (inject_Z 0) with 0%Q. lra.
    - assert (w < 101)%Z; [|lia]. rewrite Zlt_Qlt.
      eapply Qle_lt_trans; [apply Qfloor_le|]. change (inject_Z 101) with 101%Q. lra. }
  destruct (percent_table w W) as (Tw & Tb & Te & Tg). cbv zeta in Tw, Tb, Te, Tg.
  exists st', w, (100 - w)%Z.
  split; [exact S|]. split; [now rewrite Hw|]. split; [now rewrite Hb|].
  split; [exact W|]. split; [lia|].
  rewrite Hl, Te, Tg.
  destruct (Z.eqb_spec w 50), (Z.ltb_spec 50 w);
    split; split; intros; try discriminate; try reflexivity; lia.
Qed.

End Range.

Lemma percentages_range_witness :
  exists st' (w b : Z),
    showProbabilities Ref.engine (JS.VNumber (JS.Fin (3 # 4)))
                      (declared Ref.engine Ref.initial) = Some st'
    /\ whiteProbabilityEl st' = numeral (Z.to_nat w) ++ "%"
    /\ blackProbabilityEl st' = numeral (Z.to_nat b) ++ "%"
    /\ (0 <= w <= 100)%Z /\ (0 <= b <= 100)%Z
    /\ (whoIsWinningEl st' = "You" <-> (50 < w)%Z)
    /\ (whoIsWinningEl st' = "Mahmoud" <-> (w < 50)%Z).
Proof.
  apply (proj1 (percentages_stay_in_range Ref.engine (declared Ref.engine Ref.initial)
                  (3 # 4) ltac:(discriminate) ltac:(discriminate))).
Defined.

(** Outside the range nothing keeps the displays in shape: ten to the
    nineteenth is shown in exponent notation on both sides. *)
Example percentages_out_of_range :
  option_map (fun st => (whiteProbabilityEl st, blackProbabilityEl st,
                         whoIsWinningEl st))
             (showProbabilities Ref.engine
                (JS.VNumber (JS.Fin (10000000000000000000 # 1)))
                (declared Ref.engine Ref.initial))
  = Some ("1e+21%", "-1e+21%", "You").
Proof. vm_compute. reflexivity. Qed.
(* ================================================================= *)
(** ** Further properties: the status panels and the new game *)

Section Session.
Variable E : Chess.
Implicit Types st : State E.

Lemma eta st :
  mkState E (game st) (selectedSquare st) (legalMovesFromSelected st)
    (pendingPromotion st) (manualGameOver st) (lastAIMoveUCI st)
    (promotionModal st) (statusEl st) (whoIsWinningEl st)
    (whiteProbabilityEl st) (blackProbabilityEl st) (leftPlayerInfo st)
    (rightPlayerInfo st) (classes st) (tokens st) (submitted st) (timers st)
  = st.
Proof. now destruct st. Qed.

Lemma updateStatus_shown st :
  manualGameOver st = false -> updateStatus E st = shown E st.
Proof.
  intros M.
  destruct st as [g sel lm pp mgo last modal s w wp bp l r cl tk sub tm].
  cbn [manualGameOver] in M. subst mgo.
  unfold updateStatus, shown, status_line, spec_terminal, turn_status.
  cbn [manualGameOver game find precedence applies].
  destruct (game_over E g), (in_checkmate E g), (in_stalemate E g),
    (in_threefold_repetition E g), (insufficient_material E g), (in_draw E g),
    (turn E g), (in_check E g); reflexivity.
Qed.

Lemma shown_idempotent st : shown E (shown E st) = shown E st.
Proof.
  assert (game (shown E st) = game st) as G
    by (unfold shown; cbv zeta; destruct (game_over E (game st)); reflexivity).
  unfold shown at 1. cbv zeta. rewrite G.
  unfold shown. cbv zeta. destruct (game_over E (game st)); reflexivity.
Qed.

(** X15: after [updateStatus], a game that is over shows "N/A" in both
    probability displays and no active panel; a game that goes on has
    exactly one active panel, the human's on the human's turn and the
    opponent's otherwise, and keeps its probability displays and its
    banner; and a second [updateStatus] changes nothing. *)
Theorem status_panels_follow_the_turn st :
  manualGameOver st = false ->
  let st' := updateStatus E st in
  (game_over E (game st) = true ->
   whiteProbabilityEl st' = "N/A" /\ blackProbabilityEl st' = "N/A"
   /\ leftPlayerInfo st' = false /\ rightPlayerInfo st' = false)
  /\ (game_over E (game st) = false ->
      leftPlayerInfo st' = Color_eqb (turn E (game st)) White
      /\ rightPlayerInfo st' = negb (leftPlayerInfo st')
      /\ whiteProbabilityEl st' = whiteProbabilityEl st
      /\ blackProbabilityEl st' = blackProbabilityEl st
      /\ whoIsWinningEl st' = whoIsWinningEl st)
  /\ updateStatus E st' = st'.
Proof.
  intros M. cbv zeta. rewrite (updateStatus_shown st M).
  assert (manualGameOver (shown E st) = false) as M'
    by (unfold shown; cbv zeta; destruct (game_over E (game st)); exact M).
  rewrite (updateStatus_shown _ M'), shown_idempotent.
  unfold shown. cbv zeta.
  destruct (game_over E (game st));
    repeat split; intros; try discriminate; reflexivity.
Qed.

End Session.

Lemma status_panels_witness :
  let st' := updateStatus Ref.engine Demo.after_e4 in
  leftPlayerInfo st' = Color_eqb (turn Ref.engine (game Demo.after_e4)) White
  /\ rightPlayerInfo st' = negb (leftPlayerInfo st')
  /\ whiteProbabilityEl st' = whiteProbabilityEl Demo.after_e4
  /\ blackProbabilityEl st' = blackProbabilityEl Demo.after_e4
  /\ whoIsWinningEl st' = whoIsWinningEl Demo.after_e4.
Proof.
  apply (proj1 (proj2 (status_panels_follow_the_turn Ref.engine Demo.after_e4
                         ltac:(vm_compute; reflexivity)))).
  vm_compute. reflexivity.
Defined.

(* ================================================================= *)
(** ** Further properties: what every run of the page keeps *)

Section Runs.
Variable E : Chess.
Context {host : JS.Casing}.
Implicit Types st : State E.

Lemma tokens_render_game st st' :
  game st' = game st ->
  tokens (renderPieces E st') = tokens (renderPieces E st).
Proof.
  intros G. unfold renderPieces. cbn [tokens set_tokens game set_classes].
  now rewrite G.
Qed.

Lemma state_ext (a b : State E) :
  game a = game b -> selectedSquare a = selectedSquare b ->
  legalMovesFromSelected a = legalMovesFromSelected b ->
  pendingPromotion a = pendingPromotion b ->
  manualGameOver a = manualGameOver b -> lastAIMoveUCI a = lastAIMoveUCI b ->
  promotionModal a = promotionModal b -> statusEl a = statusEl b ->
  whoIsWinningEl a = whoIsWinningEl b ->
  whiteProbabilityEl a = whiteProbabilityEl b ->
  blackProbabilityEl a = blackProbabilityEl b ->
  leftPlayerInfo a = leftPlayerInfo b -> rightPlayerInfo a = rightPlayerInfo b ->
  classes a = classes b -> tokens a = tokens b -> submitted a = submitted b ->
  timers a = timers b -> a = b.
Proof. destruct a, b. cbn. intros. subst. reflexivity. Qed.

Lemma shown_fields st :
  let st' := shown E st in
  game st' = game st /\ manualGameOver st' = manualGameOver st
  /\ tokens st' = tokens st
  /\ statusEl st' = status_line E (game st)
  /\ leftPlayerInfo st'
     = (if game_over E (game st) then false else Color_eqb (turn E (game st)) White)
  /\ rightPlayerInfo st'
     = (if game_over E (game st) then false
        else negb (Color_eqb (turn E (game st)) White))
  /\ whiteProbabilityEl st'
     = (if game_over E (game st) then "N/A" else whiteProbabilityEl st)
  /\ blackProbabilityEl st'
     = (if game_over E (game st) then "N/A" else blackProbabilityEl st)
  /\ whoIsWinningEl st'
     = (if game_over E (game st)
        then match spec_terminal E (game st) with
             | Some t => terminal_banner t (turn E (game st))
             | None => "Game Over"
             end
        else whoIsWinningEl st).
Proof.
  cbv zeta. unfold shown. cbv zeta.
  destruct (game_over E (game st)); repeat split; reflexivity.
Qed.

Lemma shown_controls st :
  let st' := shown E st in
  selectedSquare st' = selectedSquare st
  /\ legalMovesFromSelected st' = legalMovesFromSelected st
  /\ pendingPromotion st' = pendingPromotion st
  /\ lastAIMoveUCI st' = lastAIMoveUCI st
  /\ promotionModal st' = promotionModal st
  /\ classes st' = classes st /\ submitted st' = submitted st
  /\ timers st' = timers st.
Proof.
  cbv zeta. unfold shown. cbv zeta.
  destruct (game_over E (game st)); repeat split; reflexivity.
Qed.

(** A state in sync stays so when the position, the flag, the tokens, the
    status line and the panels are kept, and so are the displays and the
    banner if the game is over. *)
Lemma in_sync_transfer st st' :
  in_sync E st ->
  game st' = game st -> manualGameOver st' = false -> tokens st' = tokens st ->
  statusEl st' = statusEl st -> leftPlayerInfo st' = leftPlayerInfo st ->
  rightPlayerInfo st' = rightPlayerInfo st ->
  (game_over E (game st) = true ->
   whiteProbabilityEl st' = whiteProbabilityEl st
   /\ blackProbabilityEl st' = blackProbabilityEl st
   /\ whoIsWinningEl st' = whoIsWinningEl st) ->
  in_sync E st'.
Proof.
  intros (M & U & Tk) G M' T S L R D.
  rewrite (updateStatus_shown E st M) in U.
  destruct (shown_fields st) as (_ & _ & _ & Fs & Fl & Fr & Fw & Fb & Fh).
  cbv zeta in *. rewrite U in Fs, Fl, Fr, Fw, Fb, Fh.
  split; [exact M'|]. split.
  - rewrite (updateStatus_shown E st' M').
    destruct (shown_fields st') as (G' & M2 & T' & Fs' & Fl' & Fr' & Fw' & Fb' & Fh').
    destruct (shown_controls st') as (C1 & C2 & C3 & C4 & C5 & C6 & C7 & C8).
    cbv zeta in *. rewrite G in Fs', Fl', Fr', Fw', Fb', Fh'.
    apply state_ext; try assumption.
    + congruence.
    + rewrite Fh'. destruct (game_over E (game st)); [|reflexivity].
      destruct (D eq_refl) as (_ & _ & ->). now symmetry.
    + rewrite Fw'. destruct (game_over E (game st)); [|reflexivity].
      destruct (D eq_refl) as (-> & _ & _). now symmetry.
    + rewrite Fb'. destruct (game_over E (game st)); [|reflexivity].
      destruct (D eq_refl) as (_ & -> & _). now symmetry.
    + congruence.
    + congruence.
  - rewrite (tokens_render_game st st' G), Tk. now symmetry.
Qed.

Lemma in_sync_redrawn st :
  manualGameOver st = false -> in_sync E (updateStatus E (renderPieces E st)).
Proof.
  intros M.
  assert (manualGameOver (renderPieces E st) = false) as M1 by exact M.
  rewrite (updateStatus_shown E _ M1).
  destruct (shown_fields (renderPieces E st)) as (G & M2 & T & _). cbv zeta in *.
  split; [now rewrite M2|]. split.
  - rewrite (updateStatus_shown E); [apply shown_idempotent | now rewrite M2].
  - rewrite T. now apply tokens_render_game.
Qed.

Lemma syncAfterHumanMove_in_sync st :
  manualGameOver st = false -> in_sync E (syncAfterHumanMove E st).
Proof.
  intros M. rewrite syncAfterHumanMove_eq. cbv zeta.
  pose proof (in_sync_redrawn st M) as I.
  destruct (negb (manualGameOver st) && negb (game_over E (game st))); [|exact I].
  generalize dependent (updateStatus E (renderPieces E st)). intros Y I.
  apply (in_sync_transfer _ _ I); try reflexivity.
  - apply I.
  - intros _. repeat split; reflexivity.
Qed.

Lemma select_in_sync (sq : string) st : in_sync E st -> in_sync E (select E sq st).
Proof.
  intros I. destruct (select_writes E sq st) as [cl ->].
  apply (in_sync_transfer _ _ I); try reflexivity; [apply I|].
  intros _. repeat split; reflexivity.
Qed.

Lemma click_in_sync (sq : string) st :
  in_sync E st -> in_sync E (onSquareClick E sq st).
Proof.
  intros I. pose proof I as (M & _). unfold onSquareClick. rewrite M.
  destruct (game_over E (game st)); [exact I|].
  destruct (negb (Color_eqb (turn E (game st)) White)); [exact I|].
  destruct (negb (JS.truthy (selectedSquare st))).
  { destruct (is_white _); [now apply select_in_sync | exact I]. }
  destruct (is_white (get E (game st) sq) && negb (JS.equals (selectedSquare st) sq)).
  { now apply select_in_sync. }
  destruct (selectedSquare st) as [sel|]; [|exact I].
  destruct (JS.truthy (Some sel)); [|exact I].
  destruct (shouldPromptPromotion E (game st) sel sq White).
  { apply (in_sync_transfer _ _ I); try reflexivity; [exact M|].
    intros _. repeat split; reflexivity. }
  rewrite game_move_eq.
  destruct (move E (game st) (Req.mk sel sq (Some "q"))) as [g'|]; cbn [negb].
  - apply syncAfterHumanMove_in_sync. exact M.
  - assert (in_sync E (set_submitted E
                         (submitted st ++ [Req.mk sel sq (Some "q")]) st)) as I1.
    { apply (in_sync_transfer _ _ I); try reflexivity; [exact M|].
      intros _. repeat split; reflexivity. }
    destruct (is_white _); [now apply select_in_sync|].
    apply (in_sync_transfer _ _ I1); try reflexivity; [exact M|].
    intros _. repeat split; reflexivity.
Qed.

Lemma promotion_in_sync (btn : option (option string)) st :
  in_sync E st -> in_sync E (onPromotionClick E btn st).
Proof.
  intros I. pose proof I as (M & _). unfold onPromotionClick.
  destruct btn as [piece|]; [|exact I].
  destruct (pendingPromotion st) as [pending|]; [|exact I].
  rewrite game_move_eq.
  destruct (move E (game st) _) as [g'|].
  - apply syncAfterHumanMove_in_sync. exact M.
  - apply in_sync_redrawn. exact M.
Qed.

Lemma startNewGame_in_sync st : in_sync E (startNewGame E st).
Proof.
  unfold startNewGame. cbv zeta.
  match goal with
  | |- context [updateStatus E (renderPieces E ?x)] =>
      pose proof (in_sync_redrawn x eq_refl) as I;
      generalize dependent (updateStatus E (renderPieces E x))
  end.
  intros Y I.
  apply (in_sync_transfer _ _ I); try reflexivity; [apply I|].
  intros _. repeat split; reflexivity.
Qed.

Lemma applyEvaluation_unmoved (prob best_move : JS.value) st st1 :
  applyEvaluation E prob best_move st = (false, st1) ->
  game st1 = game st /\ tokens st1 = tokens st /\ statusEl st1 = statusEl st
  /\ leftPlayerInfo st1 = leftPlayerInfo st
  /\ rightPlayerInfo st1 = rightPlayerInfo st.
Proof.
  unfold applyEvaluation, showProbabilities.
  destruct (JS.times prob (JS.Fin 100)) as [product|];
    [|intros [= <-]; repeat split; reflexivity].
  cbv zeta.
  match goal with
  | |- applyBestMove E best_move ?x = _ -> _ => set (st0 := x)
  end.
  unfold applyBestMove.
  destruct (Color_eqb (turn E (game st0)) Black && negb (game_over E (game st0)));
    [|intros [= <-]; repeat split; reflexivity].
  destruct (uciToMove best_move) as [mv|];
    [|intros [= <-]; repeat split; reflexivity].
  rewrite game_move_eq. destruct (move E (game st0) mv); [discriminate|].
  destruct (JS.truthy (Req.promotion mv));
    [|intros [= <-]; repeat split; reflexivity].
  rewrite game_move_eq.
  change (game (set_submitted E (submitted st0 ++ [mv]) st0)) with (game st0).
  destruct (move E (game st0) _); [discriminate|].
  intros [= <-]. repeat split; reflexivity.
Qed.

(** The end of a cycle keeps the page in sync: it redraws, unless the
    fallback threw, and then nothing was moved on a game that goes on. *)
Lemma finish_in_sync (moved : bool) (rnd : Q) st0 st :
  in_sync E st0 -> manualGameOver st = false ->
  (moved = false ->
   game st = game st0 /\ tokens st = tokens st0 /\ statusEl st = statusEl st0
   /\ leftPlayerInfo st = leftPlayerInfo st0
   /\ rightPlayerInfo st = rightPlayerInfo st0) ->
  in_sync E (finish E moved rnd st).
Proof.
  intros I M U. unfold finish. destruct moved; cbn [negb andb].
  { apply in_sync_redrawn. exact M. }
  destruct (U eq_refl) as (G & T & S & L & R).
  destruct (Color_eqb (turn E (game st)) Black); cbn [andb].
  2:{ apply in_sync_redrawn. exact M. }
  destruct (game_over E (game st)) eqn:O; cbn [negb].
  { apply in_sync_redrawn. exact M. }
  destruct (fallback E rnd st) as [st2|] eqn:F.
  - apply in_sync_redrawn.
    pose proof (fallback_controls E _ _ _ F) as C2.
    unfold controls in C2. injection C2 as _ _ _ _ -> _. exact M.
  - unfold redraw. apply (in_sync_transfer _ _ I); try assumption.
    rewrite <- G, O. discriminate.
Qed.

Lemma call_in_sync (r : Request) st :
  in_sync E st -> in_sync E (engineEvaluateAndAct E r st).
Proof.
  intros I. pose proof I as (M & _). unfold engineEvaluateAndAct. rewrite M.
  cbn [orb]. destruct (game_over E (game st)) eqn:O; [exact I|].
  destruct r as [rnd|rnd|].
  - apply (finish_in_sync false rnd st); [exact I | exact M|].
    intros _. repeat split; reflexivity.
  - apply (finish_in_sync false rnd st); [exact I | exact M|].
    intros _. repeat split; reflexivity.
  - apply (in_sync_transfer _ _ I); try reflexivity; [exact M|].
    rewrite O. discriminate.
Qed.

Lemma resume_in_sync (a : Answer) (rnd : Q) st :
  in_sync E st -> in_sync E (resume E a rnd st).
Proof.
  intros I. pose proof I as (M & _). unfold resume.
  destruct a as [|prob best_move].
  - apply (finish_in_sync false rnd st); [exact I | exact M|].
    intros _. repeat split; reflexivity.
  - pose proof (applyEvaluation_controls E prob best_move st) as C1.
    destruct (applyEvaluation E prob best_move st) as [moved st1] eqn:Ev.
    cbn [snd] in C1.
    assert (manualGameOver st1 = false) as M1
      by (unfold controls in C1; injection C1 as _ _ _ _ -> _; exact M).
    apply (finish_in_sync moved rnd st); [exact I | exact M1|].
    intros ->. exact (applyEvaluation_unmoved prob best_move st st1 Ev).
Qed.

Lemma step_in_sync st (e : Event) : in_sync E st -> in_sync E (step E st e).
Proof.
  destruct e; cbn [step].
  - apply click_in_sync.
  - apply promotion_in_sync.
  - intros _. apply startNewGame_in_sync.
  - apply call_in_sync.
  - apply resume_in_sync.
Qed.

(** X16: the page shows the position after every event.  Once the script
    has loaded, or after any new game, and whatever clicks, button clicks,
    new games and evaluation cycles follow (with any answers and any random
    numbers, the answers arriving at any time), the status line is the one of the current position, the
    tokens are its drawing, a game that is over shows "N/A" twice and no
    active panel, and a game that goes on has the panel of the side to move
    active and the other not. *)
Theorem page_stays_in_sync :
  in_sync E (loaded E)
  /\ (forall st, in_sync E (startNewGame E st))
  /\ (forall st es, in_sync E st -> in_sync E (run E st es))
  /\ (forall st, in_sync E st ->
        statusEl st = status_line E (game st)
        /\ tokens st = tokens (renderPieces E st)
        /\ (game_over E (game st) = true ->
            whiteProbabilityEl st = "N/A" /\ blackProbabilityEl st = "N/A"
            /\ leftPlayerInfo st = false /\ rightPlayerInfo st = false)
        /\ (game_over E (game st) = false ->
            leftPlayerInfo st = Color_eqb (turn E (game st)) White
            /\ rightPlayerInfo st = negb (leftPlayerInfo st))).
Proof.
  split; [|split; [|split]].
  - apply in_sync_redrawn. reflexivity.
  - apply startNewGame_in_sync.
  - intros st es. revert st. induction es as [|e es IH]; intros st I; cbn.
    + exact I.
    + apply IH. now apply step_in_sync.
  - intros st (M & U & T). rewrite (updateStatus_shown E st M) in U.
    destruct (shown_fields st) as (_ & _ & _ & S & L & R & W & B & _). cbv zeta in *.
    rewrite U in S, L, R, W, B.
    split; [exact S|]. split; [now symmetry|]. split.
    + intros O. rewrite O in L, R, W, B. auto.
    + intros O. rewrite O in L, R. rewrite R, L. auto.
Qed.

End Runs.

Lemma page_in_sync_witness :
  let st := run Ref.engine (loaded Ref.engine) Demo.fools_mate in
  statusEl st = status_line Ref.engine (game st)
  /\ tokens st = tokens (renderPieces Ref.engine st)
  /\ (game_over Ref.engine (game st) = true ->
      whiteProbabilityEl st = "N/A" /\ blackProbabilityEl st = "N/A"
      /\ leftPlayerInfo st = false /\ rightPlayerInfo st = false)
  /\ (game_over Ref.engine (game st) = false ->
      leftPlayerInfo st = Color_eqb (turn Ref.engine (game st)) White
      /\ rightPlayerInfo st = negb (leftPlayerInfo st)).
Proof.
  destruct (page_stays_in_sync Ref.engine) as (L & _ & R & C).
  apply C. apply R. exact L.
Defined.

Section Modal.
Variable E : Chess.
Context {host : JS.Casing}.
Implicit Types st : State E.

Lemma tracks_by_controls st st' :
  controls E st' = controls E st ->
  modal_tracks_pending E st -> modal_tracks_pending E st'.
Proof.
  unfold controls, modal_tracks_pending. intros [= _ _ -> -> _ _]. auto.
Qed.

Lemma select_controls (sq : string) st :
  pendingPromotion (select E sq st) = pendingPromotion st
  /\ promotionModal (select E sq st) = promotionModal st.
Proof. destruct (select_writes E sq st) as [cl ->]. split; reflexivity. Qed.

Lemma click_tracks (sq : string) st :
  modal_tracks_pending E st -> modal_tracks_pending E (onSquareClick E sq st).
Proof.
  intros H.
  assert (forall s, pendingPromotion s = pendingPromotion st ->
                    promotionModal s = promotionModal st ->
                    modal_tracks_pending E s) as Same
    by (intros s P Q; unfold modal_tracks_pending in *; now rewrite P, Q).
  unfold onSquareClick.
  destruct (manualGameOver st); [exact H|].
  destruct (game_over E (game st)); [exact H|].
  destruct (negb (Color_eqb (turn E (game st)) White)); [exact H|].
  destruct (negb (JS.truthy (selectedSquare st))).
  { destruct (is_white _); [apply Same; apply select_controls | exact H]. }
  destruct (is_white (get E (game st) sq) && negb (JS.equals (selectedSquare st) sq)).
  { apply Same; apply select_controls. }
  destruct (selectedSquare st) as [sel|]; [|exact H].
  destruct (JS.truthy (Some sel)); [|exact H].
  destruct (shouldPromptPromotion E (game st) sel sq White); [reflexivity|].
  rewrite game_move_eq.
  destruct (move E (game st) (Req.mk sel sq (Some "q"))) as [g'|]; cbn [negb].
  - match goal with
    | |- modal_tracks_pending E (syncAfterHumanMove E ?x) =>
        destruct (syncAfterHumanMove_core E x) as (_ & _ & _ & P & Q)
    end.
    apply Same; [exact P | exact Q].
  - destruct (is_white _).
    + match goal with
      | |- modal_tracks_pending E (select E sq ?x) =>
          destruct (select_controls sq x) as (P & Q)
      end.
      apply Same; [exact P | exact Q].
    + apply Same; reflexivity.
Qed.

Lemma promotion_tracks (btn : option (option string)) st :
  modal_tracks_pending E st -> modal_tracks_pending E (onPromotionClick E btn st).
Proof.
  intros H. destruct btn as [piece|]; [|exact H].
  destruct (pendingPromotion st) as [pending|] eqn:P.
  - destruct (promotion_choice E st pending piece P) as (_ & P' & M' & _).
    unfold modal_tracks_pending. now rewrite P', M'.
  - unfold onPromotionClick. now rewrite P.
Qed.

Lemma startNewGame_tracks st : modal_tracks_pending E (startNewGame E st).
Proof.
  unfold startNewGame. cbv zeta.
  match goal with
  | |- context [updateStatus E ?x] =>
      destruct (updateStatus_writes E x) as (s & w & wp & bp & l & r & ->)
  end.
  reflexivity.
Qed.

(** X17: the promotion modal is open exactly while a promotion is pending:
    this holds once the script has loaded and after any new game, and every
    click, button click, new game and evaluation cycle keeps it. *)
Theorem modal_is_open_while_a_promotion_is_pending :
  modal_tracks_pending E (loaded E)
  /\ (forall st, modal_tracks_pending E (startNewGame E st))
  /\ (forall st e, modal_tracks_pending E st -> modal_tracks_pending E (step E st e))
  /\ (forall st es, modal_tracks_pending E st -> modal_tracks_pending E (run E st es)).
Proof.
  assert (forall st e, modal_tracks_pending E st -> modal_tracks_pending E (step E st e))
    as Step.
  { intros st [sq|btn| |r|a rnd]; cbn [step].
    - apply click_tracks.
    - apply promotion_tracks.
    - intros _. apply startNewGame_tracks.
    - apply tracks_by_controls, call_controls.
    - apply tracks_by_controls, resume_controls. }
  split; [|split; [|split]].
  - unfold loaded.
    destruct (updateStatus_writes E (renderPieces E (declared E (reset E))))
      as (s & w & wp & bp & l & r & ->).
    reflexivity.
  - apply startNewGame_tracks.
  - exact Step.
  - intros st es. revert st. induction es as [|e es IH]; intros st H; cbn.
    + exact H.
    + apply IH, Step, H.
Qed.

(** X18: a new game resets the page whatever its state: the position is the
    starting position, no cell is selected or highlighted, no promotion is
    pending, the modal is closed, [lastAIMoveUCI] is empty, and the status
    line, the tokens and the panels are those of a freshly loaded page; one
    evaluation cycle is scheduled, 300 ms later, and nothing is handed to
    the engine. *)
Theorem new_game_resets_the_page st :
  let st' := startNewGame E st in
  game st' = reset E /\ selectedSquare st' = None
  /\ pendingPromotion st' = None /\ promotionModal st' = false
  /\ manualGameOver st' = false /\ lastAIMoveUCI st' = None
  /\ classes st' = []
  /\ statusEl st' = statusEl (loaded E) /\ tokens st' = tokens (loaded E)
  /\ leftPlayerInfo st' = leftPlayerInfo (loaded E)
  /\ rightPlayerInfo st' = rightPlayerInfo (loaded E)
  /\ timers st' = (timers st ++ [300%nat])%list
  /\ submitted st' = submitted st.
Proof.
  cbv zeta. unfold startNewGame, loaded. cbv zeta.
  rewrite !updateStatus_shown by reflexivity.
  unfold shown. cbv zeta.
  cbn [game renderPieces clearHighlights set_classes set_tokens set_game
       set_selectedSquare set_pendingPromotion set_manualGameOver
       set_lastAIMoveUCI declared].
  destruct (game_over E (reset E)); repeat split; reflexivity.
Qed.

End Modal.

Lemma modal_witness :
  modal_tracks_pending Ref.engine
    (run Ref.engine (loaded Ref.engine)
         (Demo.pawn_to_b7 ++ [CellClick "b7"; CellClick "a8"])).
Proof.
  destruct (modal_is_open_while_a_promotion_is_pending Ref.engine) as (L & _ & _ & R).
  apply R. exact L.
Defined.

(* ================================================================= *)
(** ** Further properties: two variables nobody reads *)

Section WriteOnly.
Variable E : Chess.
Context {host : JS.Casing}.
Implicit Types st : State E.

Ltac fields H :=
  unfold alike, core in H;
  injection H as Hg Hs Hp Hm Hmo Hst Hw Hwp Hbp Hl Hr Hc Ht Hsu Hti.

Ltac more_fields H := unfold alike, core in H; injection H; clear H; intros.

Ltac compare_fields :=
  cbv beta iota zeta; cbn [fst snd];
  unfold alike, core, openPromotionModal, closePromotionModal, clearHighlights;
  cbn [game selectedSquare legalMovesFromSelected pendingPromotion
       manualGameOver lastAIMoveUCI promotionModal statusEl whoIsWinningEl
       whiteProbabilityEl blackProbabilityEl leftPlayerInfo rightPlayerInfo
       classes tokens submitted timers
       set_game set_selectedSquare set_legalMovesFromSelected
       set_pendingPromotion set_manualGameOver set_lastAIMoveUCI
       set_promotionModal set_statusEl set_whoIsWinningEl
       set_whiteProbabilityEl set_blackProbabilityEl set_leftPlayerInfo
       set_rightPlayerInfo set_classes set_tokens set_submitted set_timers];
  congruence.

Lemma updateStatus_off st : manualGameOver st = true -> updateStatus E st = st.
Proof. intros M. unfold updateStatus. now rewrite M. Qed.

Lemma alike_updateStatus a b :
  alike E a b -> alike E (updateStatus E a) (updateStatus E b).
Proof.
  intros H. pose proof H as H'. fields H'.
  destruct (manualGameOver a) eqn:M.
  - rewrite !updateStatus_off by congruence. exact H.
  - rewrite !updateStatus_shown by congruence.
    unfold shown. cbv zeta. rewrite <- Hg.
    destruct (game_over E (game a)); compare_fields.
Qed.

Lemma alike_renderPieces a b :
  alike E a b -> alike E (renderPieces E a) (renderPieces E b).
Proof.
  intros H. fields H. unfold renderPieces. cbn [game set_classes].
  rewrite <- Hg, <- Hc. compare_fields.
Qed.

Lemma alike_select (sq : string) a b :
  alike E a b -> alike E (select E sq a) (select E sq b).
Proof.
  intros H. fields H. rewrite !select_eq, !highlightMoves_eq.
  cbn [game set_selectedSquare]. rewrite <- Hg. compare_fields.
Qed.

Lemma alike_sync a b :
  alike E a b -> alike E (syncAfterHumanMove E a) (syncAfterHumanMove E b).
Proof.
  intros H. rewrite !syncAfterHumanMove_eq. cbv zeta.
  pose proof (alike_updateStatus _ _ (alike_renderPieces _ _ H)) as U.
  fields H. rewrite <- Hg, <- Hm, <- Hti.
  destruct (negb (manualGameOver a) && negb (game_over E (game a))); [|exact U].
  more_fields U. compare_fields.
Qed.

Lemma click_alike (sq : string) a b :
  alike E a b -> alike E (onSquareClick E sq a) (onSquareClick E sq b).
Proof.
  intros H. pose proof H as H'. fields H'. unfold onSquareClick.
  rewrite <- Hm, <- Hg, <- Hs.
  destruct (manualGameOver a) eqn:M; [exact H|].
  destruct (game_over E (game a)); [exact H|].
  destruct (negb (Color_eqb (turn E (game a)) White)); [exact H|].
  destruct (negb (JS.truthy (selectedSquare a))).
  { destruct (is_white _); [now apply alike_select | exact H]. }
  destruct (is_white (get E (game a) sq) && negb (JS.equals (selectedSquare a) sq)).
  { now apply alike_select. }
  destruct (selectedSquare a) as [sel|] eqn:Sel; [|exact H].
  destruct (JS.truthy (Some sel)); [|exact H].
  destruct (shouldPromptPromotion E (game a) sel sq White); [compare_fields|].
  rewrite !game_move_eq, <- Hg, <- Hsu.
  destruct (move E (game a) (Req.mk sel sq (Some "q"))) as [g'|]; cbn [negb].
  - apply alike_sync. compare_fields.
  - destruct (is_white _).
    + apply alike_select. compare_fields.
    + compare_fields.
Qed.

Lemma promotion_alike (btn : option (option string)) a b :
  alike E a b -> alike E (onPromotionClick E btn a) (onPromotionClick E btn b).
Proof.
  intros H. pose proof H as H'. fields H'. unfold onPromotionClick.
  destruct btn as [piece|]; [|exact H]. rewrite <- Hp.
  destruct (pendingPromotion a) as [pending|] eqn:P; [|exact H].
  rewrite !game_move_eq, <- Hg, <- Hsu.
  destruct (move E (game a) _) as [g'|].
  - apply alike_sync. compare_fields.
  - apply alike_updateStatus, alike_renderPieces. compare_fields.
Qed.

Lemma startNewGame_alike a b :
  alike E a b -> alike E (startNewGame E a) (startNewGame E b).
Proof.
  intros H. unfold startNewGame. cbv zeta.
  match goal with
  | |- alike E (set_timers E _ (closePromotionModal E (updateStatus E (renderPieces E ?x))))
               (set_timers E _ (closePromotionModal E (updateStatus E (renderPieces E ?y)))) =>
      assert (alike E x y) as H0 by (fields H; compare_fields);
      pose proof (alike_updateStatus _ _ (alike_renderPieces _ _ H0)) as U;
      generalize dependent (updateStatus E (renderPieces E x));
      generalize dependent (updateStatus E (renderPieces E y))
  end.
  intros Y X U. fields U. compare_fields.
Qed.

Lemma applyBestMove_alike (best_move : JS.value) a b :
  alike E a b ->
  fst (applyBestMove E best_move a) = fst (applyBestMove E best_move b)
  /\ alike E (snd (applyBestMove E best_move a)) (snd (applyBestMove E best_move b)).
Proof.
  intros H. pose proof H as H'. fields H'. unfold applyBestMove. rewrite <- Hg.
  destruct (Color_eqb (turn E (game a)) Black && negb (game_over E (game a)));
    [|split; [reflexivity | exact H]].
  destruct (uciToMove best_move) as [mv|]; [|split; [reflexivity | exact H]].
  rewrite !game_move_eq, <- Hg, <- Hsu.
  destruct (move E (game a) mv); cbv beta iota zeta;
    [split; [reflexivity | compare_fields]|].
  destruct (JS.truthy (Req.promotion mv)); [|split; [reflexivity | compare_fields]].
  rewrite !game_move_eq.
  cbn [game submitted set_submitted]. rewrite <- ?Hg, <- ?Hsu.
  destruct (move E (game a) _); cbv beta iota zeta; split; try reflexivity;
    compare_fields.
Qed.

Lemma applyEvaluation_alike (prob best_move : JS.value) a b :
  alike E a b ->
  fst (applyEvaluation E prob best_move a) = fst (applyEvaluation E prob best_move b)
  /\ alike E (snd (applyEvaluation E prob best_move a))
             (snd (applyEvaluation E prob best_move b)).
Proof.
  intros H. unfold applyEvaluation, showProbabilities.
  destruct (JS.times prob (JS.Fin 100)) as [product|];
    [|split; [reflexivity | exact H]].
  apply applyBestMove_alike. fields H. compare_fields.
Qed.

Lemma fallback_alike (rnd : Q) a b :
  alike E a b ->
  match fallback E rnd a, fallback E rnd b with
  | Some a', Some b' => alike E a' b'
  | None, None => True
  | _, _ => False
  end.
Proof.
  intros H. pose proof H as H'. fields H'. unfold fallback. cbv zeta. rewrite <- Hg.
  destruct (0 <? length (moves E (game a) None))%nat; [|exact H].
  destruct (pick rnd (moves E (game a) None)) as [m|]; [|exact I].
  rewrite !game_move_eq, <- Hg, <- Hsu.
  destruct (JS.includes (Move.flags m) "p");
    destruct (move E (game a) _); compare_fields.
Qed.

Lemma finish_alike (moved : bool) (rnd : Q) a b :
  alike E a b -> alike E (finish E moved rnd a) (finish E moved rnd b).
Proof.
  intros H. pose proof H as H'. fields H'. unfold finish. rewrite <- Hg.
  destruct (negb moved && Color_eqb (turn E (game a)) Black
            && negb (game_over E (game a))).
  - pose proof (fallback_alike rnd a b H) as Fb.
    destruct (fallback E rnd a) as [a2|], (fallback E rnd b) as [b2|];
      try contradiction; [|exact H].
    unfold redraw. now apply alike_updateStatus, alike_renderPieces.
  - unfold redraw. now apply alike_updateStatus, alike_renderPieces.
Qed.

Lemma call_alike (r : Request) a b :
  alike E a b ->
  alike E (engineEvaluateAndAct E r a) (engineEvaluateAndAct E r b).
Proof.
  intros H. pose proof H as H'. fields H'. unfold engineEvaluateAndAct.
  rewrite <- Hm, <- Hg.
  destruct (manualGameOver a || game_over E (game a)); [exact H|].
  assert (alike E (placeholders E a) (placeholders E b)) as P
      by (unfold placeholders; compare_fields).
  destruct r; [now apply finish_alike | now apply finish_alike | exact P].
Qed.

Lemma resume_alike (x : Answer) (rnd : Q) a b :
  alike E a b -> alike E (resume E x rnd a) (resume E x rnd b).
Proof.
  intros H. unfold resume. destruct x as [|prob best_move].
  - now apply finish_alike.
  - destruct (applyEvaluation_alike prob best_move a b H) as [F S].
    destruct (applyEvaluation E prob best_move a) as [moved a1],
             (applyEvaluation E prob best_move b) as [moved' b1].
    cbn [fst snd] in F, S. subst moved'. now apply finish_alike.
Qed.

(** X19: the script's destination list and its record of the last opponent
    move are written and never read: two states that differ in nothing else
    are taken by every event to two states that differ in nothing else, so
    no click, button click, new game or evaluation cycle depends on them,
    and every question of legality goes to the engine. *)
Theorem destination_list_and_last_move_are_never_read :
  (forall (a b : State E) (e : Event), alike E a b -> alike E (step E a e) (step E b e))
  /\ (forall (a b : State E) (es : list Event),
        alike E a b -> alike E (run E a es) (run E b es))
  /\ (forall st (cached : list string) (last : option string) (es : list Event),
        let st' := run E (set_lastAIMoveUCI E last
                            (set_legalMovesFromSelected E cached st)) es in
        game st' = game (run E st es)
        /\ submitted st' = submitted (run E st es)
        /\ selectedSquare st' = selectedSquare (run E st es)
        /\ statusEl st' = statusEl (run E st es)).
Proof.
  assert (forall (a b : State E) (e : Event),
             alike E a b -> alike E (step E a e) (step E b e)) as Step.
  { intros a b [sq|btn| |r|x rnd] H; cbn [step].
    - now apply click_alike.
    - now apply promotion_alike.
    - now apply startNewGame_alike.
    - now apply call_alike.
    - now apply resume_alike. }
  assert (forall (es : list Event) (a b : State E),
             alike E a b -> alike E (run E a es) (run E b es)) as Run.
  { induction es as [|e es IH]; intros a b H; cbn; [exact H|].
    apply IH, Step, H. }
  split; [exact Step|]. split; [intros a b es; apply Run|].
  intros st cached last es. cbv zeta.
  assert (alike E (set_lastAIMoveUCI E last (set_legalMovesFromSelected E cached st)) st)
    as H by reflexivity.
  apply (Run es) in H. fields H. auto.
Qed.

End WriteOnly.

Lemma never_read_witness :
  alike Ref.engine
    (run Ref.engine (set_legalMovesFromSelected Ref.engine ["h8"] Demo.e2_selected)
         [CellClick "e4"])
    (run Ref.engine Demo.e2_selected [CellClick "e4"]).
Proof.
  apply (proj1 (proj2 (destination_list_and_last_move_are_never_read Ref.engine))).
  vm_compute. reflexivity.
Defined.
